(** * onnxscript: autocast and the python-to-graph converter

    A shallow embedding of [onnxscript/autocast.py] and of the lowering
    core of [onnxscript/converter.py], with the properties of the
    autocast engine, of the unique-name generator and of the lowering of
    conditionals, loops and subscripts.

    Python's exceptions are results of type [Result]; the mutable state
    of a [Converter] instance is threaded by the state-and-error monad
    [SE].  Python sets are [gset]s (their iteration order is the order of
    [elements]), dictionaries are [gmap]s. *)

From Stdlib Require Import QArith Ascii.
From stdpp Require Import gmap strings list fin_maps pretty.

Close Scope Q_scope.
Set Warnings "-register-all,-level-tolerance,-clear-no-such-hyp".

Open Scope string_scope.
Open Scope nat_scope.
Open Scope list_scope.

(** ** Exceptions and the state-and-error monad *)

(** The exception classes the modelled code raises.  Messages are the
    source's message templates, without interpolation. *)
Inductive exn :=
| ValueError (msg : string)
| TypeError (msg : string)
| RuntimeError (msg : string)
| IndexError (msg : string)
| NameError (msg : string)
| AttributeError (msg : string)
| TranslationError (msg : string)
| OverflowError (msg : string)
| OutOfFuel.

Inductive Result (A : Type) :=
| Ok (a : A)
| Raise (e : exn).
Arguments Ok {A} a.
Arguments Raise {A} e.

Definition SE (S A : Type) : Type := S → Result (A * S).

Definition ret {S A} (a : A) : SE S A := λ s, Ok (a, s).

Definition bind {S A B} (m : SE S A) (k : A → SE S B) : SE S B :=
  λ s, match m s with
       | Ok (a, s') => k a s'
       | Raise e => Raise e
       end.

Definition raise {S A} (e : exn) : SE S A := λ _, Raise e.
Definition get {S} : SE S S := λ s, Ok (s, s).
Definition gets {S A} (f : S → A) : SE S A := λ s, Ok (f s, s).
Definition modify {S} (f : S → S) : SE S unit := λ s, Ok (tt, f s).

Notation "x <- m ;; k" := (bind m (λ x, k))
  (at level 100, m at next level, right associativity).
Notation "m ;;; k" := (bind m (λ _, k))
  (at level 100, right associativity).

(** [for x in l: f x], collecting the results. *)
Fixpoint mapM {S A B} (f : A → SE S B) (l : list A) : SE S (list B) :=
  match l with
  | [] => ret []
  | x :: l' => y <- f x ;; ys <- mapM f l' ;; ret (y :: ys)
  end.

(** [for x in l: f x], for the effect only. *)
Fixpoint forM_ {S A} (f : A → SE S unit) (l : list A) : SE S unit :=
  match l with
  | [] => ret tt
  | x :: l' => f x ;;; forM_ f l'
  end.

(** ** Python values *)

Inductive np_dtype :=
| np_bool_ | np_int64 | np_float32 | np_float64 | np_int32 | np_float16.

Inductive pyobject :=
| PyNone
| PyBool (b : bool)
| PyInt (z : Z)
| PyFloat (q : Q)
| PyStr (s : string)
| PyList (l : list pyobject)
| PyNdarray (dtype : np_dtype) (shape : list nat) (flat : list pyobject)
| PyTensor (dtype : np_dtype) (shape : list nat) (flat : list pyobject)
| PyObject (cls : string).

(** The classes of the values above ([PyObject] is any other object, such
    as an opset found in the module-level environment); [py_type] is
    Python's [type(x)]. *)
Inductive pytype :=
| Tbool | Tint | Tfloat | Tstr | Tlist | TNoneType | Tndarray | TTensor
| Tobject.

Global Instance pytype_eq_dec : EqDecision pytype.
Proof. solve_decision. Defined.

Global Instance np_dtype_eq_dec : EqDecision np_dtype.
Proof. solve_decision. Defined.

Definition py_type (x : pyobject) : pytype :=
  match x with
  | PyNone => TNoneType
  | PyBool _ => Tbool
  | PyInt _ => Tint
  | PyFloat _ => Tfloat
  | PyStr _ => Tstr
  | PyList _ => Tlist
  | PyNdarray _ _ _ => Tndarray
  | PyTensor _ _ _ => TTensor
  | PyObject _ => Tobject
  end.

(** [bool] is a subclass of [int]; the other classes are unrelated. *)
Definition issubclass (c t : pytype) : bool :=
  bool_decide (c = t) || (bool_decide (c = Tbool) && bool_decide (t = Tint)).

Definition isinstance (x : pyobject) (t : pytype) : bool :=
  issubclass (py_type x) t.

(** Python's truth value of a list: non-empty. *)
Definition truthy_list {A} (l : list A) : bool :=
  match l with [] => false | _ => true end.

(** ** autocast.py: python value to TensorProto (script converter) *)

Inductive TensorProto_DataType :=
| FLOAT | INT32 | STRING | BOOL | FLOAT16 | DOUBLE | INT64.

Global Instance TensorProto_DataType_eq_dec : EqDecision TensorProto_DataType.
Proof. solve_decision. Defined.

(** The contents handed to [helper.make_tensor]. *)
Inductive tensor_vals :=
| Vals (vs : list pyobject)
| ValsInt (vs : list Z)
| ValsBytes (vs : list string).

Record TensorProto := mkTensorProto {
  tp_name : string;
  data_type : TensorProto_DataType;
  dims : list nat;
  vals : tensor_vals
}.

(** The signed 64-bit range. *)
Definition in_int64 (z : Z) : bool :=
  ((- 2 ^ 63 <=? z) && (z <? 2 ^ 63))%Z.

(** A value that is not a python [int] outside the signed 64-bit range. *)
Definition int64_value (v : pyobject) : bool :=
  match v with
  | PyInt z => in_int64 z
  | _ => true
  end.

(** Modelled from the spec: [helper.make_tensor] belongs to the onnx
    package, an external collaborator.  It stores [vals] in the typed
    value field of the tensor, and the field refuses what does not fit:
    a python [int] outside the signed 64-bit range in a 64-bit integer
    tensor, with a [ValueError], and a python [str] in a string tensor,
    whose field holds [bytes], with a [TypeError].  Otherwise the tensor
    records the name, the element type, the dimensions and the values it
    was given. *)
Definition make_tensor (name : string) (data_type : TensorProto_DataType)
    (dims : list nat) (vals : tensor_vals) : Result TensorProto :=
  match data_type, vals with
  | INT64, Vals vs =>
      if forallb int64_value vs then
        Ok (mkTensorProto name data_type dims vals)
      else Raise (ValueError "Value out of range: {value}")
  | STRING, Vals vs =>
      if existsb (λ v, bool_decide (py_type v = Tstr)) vs then
        Raise (TypeError "{value} has type str, but expected one of: bytes")
      else Ok (mkTensorProto name data_type dims vals)
  | _, _ => Ok (mkTensorProto name data_type dims vals)
  end.

Definition _py_type_to_onnx_type (t : pytype) : Result TensorProto_DataType :=
  match t with
  | Tbool => Ok BOOL
  | Tint => Ok INT64
  | Tfloat => Ok FLOAT
  | Tstr => Ok STRING
  | _ => Raise (ValueError "Tensor element of type {pytype} not supported")
  end.

(** Modelled from the spec: [numpy_helper.from_array] and the
    tensor/interpreter value representation are external collaborators;
    the element type of an array maps to the tensor element type of the
    same width. *)
Definition np_dtype_to_tensor_dtype (d : np_dtype) : TensorProto_DataType :=
  match d with
  | np_bool_ => BOOL
  | np_int64 => INT64
  | np_float32 => FLOAT
  | np_float64 => DOUBLE
  | np_int32 => INT32
  | np_float16 => FLOAT16
  end.

Definition from_array (dtype : np_dtype) (shape : list nat)
    (flat : list pyobject) (tensor_name : string) : TensorProto :=
  mkTensorProto tensor_name (np_dtype_to_tensor_dtype dtype) shape (Vals flat).

(** [int(pyvalue)] on a bool. *)
Definition int_of_bool (b : bool) : Z := if b then 1%Z else 0%Z.

Definition pyvalue_to_onnx_tensor (tensor_name : string) (pyvalue : pyobject)
    : Result TensorProto :=
  match pyvalue with
  | PyNdarray dtype shape flat => Ok (from_array dtype shape flat tensor_name)
  | PyList l =>
      match l with
      | [] => Raise (ValueError "Cannot convert an empty list to tensor")
      | e0 :: _ =>
          let pytype := py_type e0 in
          if negb (forallb (λ e, isinstance e pytype) l) then
            Raise (ValueError
              "Cannot convert an list with elements of different types to tensor")
          else
            match _py_type_to_onnx_type pytype with
            | Ok t => make_tensor tensor_name t [length l] (Vals l)
            | Raise e => Raise e
            end
      end
  | _ =>
      match _py_type_to_onnx_type (py_type pyvalue) with
      | Raise e => Raise e
      | Ok onnx_type =>
          match pyvalue with
          | PyBool b =>
              make_tensor tensor_name onnx_type [] (ValsInt [int_of_bool b])
          | PyStr s =>
              make_tensor tensor_name onnx_type [] (ValsBytes [s])
          | _ => make_tensor tensor_name onnx_type [] (Vals [pyvalue])
          end
      end
  end.

(** ** autocast.py: python value to onnxscript tensor (eager mode) *)

Fixpoint _promotable (x : pyobject) : bool :=
  match x with
  | PyBool _ | PyInt _ | PyFloat _ => true
  | PyList (x0 :: _) => _promotable x0
  | _ => false
  end.

Fixpoint _get_dtype (pyvalue : pyobject) : Result np_dtype :=
  match pyvalue with
  | PyBool _ => Ok np_bool_
  | PyInt _ => Ok np_int64
  | PyFloat _ => Ok np_float32
  | PyList (x0 :: _) => _get_dtype x0
  | PyList [] => Raise (ValueError "Cannot determine target type for empty list")
  | _ => Raise (TypeError "Value of unexpected type {type(pyvalue)}")
  end.

(** Modelled from the spec: numpy's [np.array(pyvalue, dtype=dtype)] and
    the [Tensor] wrapper are outside the repository.  The array is
    recorded with the requested element type, the shape of the literal
    and its scalars in row-major order; the conversion of the scalars is
    left symbolic.  [np.array] fails with a [ValueError] on a literal
    that is not rectangular, and with an [OverflowError] on a python
    [int] that the element type cannot take: one outside the signed
    64-bit range for an integer type, one beyond the largest double for a
    floating-point type. *)
Fixpoint np_shape (x : pyobject) : list nat :=
  match x with
  | PyList l =>
      length l :: match l with
                  | x0 :: _ => np_shape x0
                  | [] => []
                  end
  | _ => []
  end.

Fixpoint np_flat (x : pyobject) : list pyobject :=
  match x with
  | PyList l => concat (map np_flat l)
  | _ => [x]
  end.

Fixpoint rectangular (x : pyobject) : bool :=
  match x with
  | PyList l =>
      match l with
      | x0 :: _ =>
          forallb (λ e, rectangular e && bool_decide (np_shape e = np_shape x0)) l
      | [] => true
      end
  | _ => true
  end.

(** A value that is not a python [int] whose conversion to a double
    overflows. *)
Definition double_value (v : pyobject) : bool :=
  match v with
  | PyInt z => (Z.abs z <? 2 ^ 1024 - 2 ^ 969)%Z
  | _ => true
  end.

(** The scalars the element type [dtype] can take. *)
Definition np_fits (dtype : np_dtype) (v : pyobject) : bool :=
  match dtype with
  | np_bool_ => true
  | np_int64 | np_int32 => int64_value v
  | np_float32 | np_float64 | np_float16 => double_value v
  end.

Definition Tensor_of_array (pyvalue : pyobject) (dtype : np_dtype)
    : Result pyobject :=
  if negb (rectangular pyvalue) then
    Raise (ValueError "setting an array element with a sequence.")
  else if negb (forallb (np_fits dtype) (np_flat pyvalue)) then
    Raise (OverflowError "Python int too large to convert")
  else Ok (PyTensor dtype (np_shape pyvalue) (np_flat pyvalue)).

Definition cast_pyvalue_to_os_tensor (pyvalue : pyobject)
    (dtype : option np_dtype)   : Result pyobject :=
  if _promotable pyvalue then
    match dtype with
    | Some d => Tensor_of_array pyvalue d
    | None =>
        match _get_dtype pyvalue with
        | Ok d => Tensor_of_array pyvalue d
        | Raise e => Raise e
        end
    end
  else Ok pyvalue.

(** ** autocast.py: the shared two-pass algorithm *)

(** The part of [onnx.defs.OpSchema] that [cast_inputs] reads. *)
Inductive FormalParameterOption := Single | Optional | Variadic.

Global Instance FormalParameterOption_eq_dec : EqDecision FormalParameterOption.
Proof. solve_decision. Defined.

Record FormalParameter := {
  type_str : string;
  fp_option : FormalParameterOption;
  is_homogeneous : bool
}.

Record OpSchema := { inputs : list FormalParameter }.

(** [c in s] for a one-character string [c]. *)
Fixpoint char_in (c : ascii) (s : string) : bool :=
  match s with
  | EmptyString => false
  | String c' s' => bool_decide (c = c') || char_in c s'
  end.

Definition lparen : ascii := "("%char.

Section cast_inputs.
Context {S A TI B : Type}.
Variable get_type_info : A → option TI.
Variable cast : A → option TI → SE S B.

(** The first pass: the loop over [enumerate(args)], from index [i] on.
    [type_bindings] and [args_typevars] are the two accumulators. *)
Fixpoint bind_typevars (expected_inputs : list FormalParameter) (i : nat)
    (args : list A) (type_bindings : gmap string TI)
    (args_typevars : list (A * option string))
    : Result (gmap string TI * list (A * option string)) :=
  match args with
  | [] => Ok (type_bindings, args_typevars)
  | x :: args' =>
      let use expected :=
        let typevar := type_str expected in
        let type_bindings :=
          if negb (char_in lparen typevar) then
            match get_type_info x with
            | Some typeinfo => <[typevar := typeinfo]> type_bindings
            | None => type_bindings
            end
          else type_bindings in
        bind_typevars expected_inputs (Datatypes.S i) args' type_bindings
          (args_typevars ++ [(x, Some typevar)]) in
      match expected_inputs !! i with
      | Some expected => use expected
      | None =>
          match last expected_inputs with
          | None => Raise (IndexError "list index out of range")
          | Some expected =>
              if bool_decide (fp_option expected = Variadic) then
                if negb (is_homogeneous expected) then
                  bind_typevars expected_inputs (Datatypes.S i) args'
                    type_bindings (args_typevars ++ [(x, None)])
                else use expected
              else
                Raise (ValueError
                  "Number of actual parameters {len(args)} exceeds number of formal parameters {len(expected_inputs)}.")
          end
      end
  end.

(** [type_bindings.get(typevar)] *)
Definition bindings_get (type_bindings : gmap string TI)
    (typevar : option string) : option TI :=
  match typevar with
  | Some t => type_bindings !! t
  | None => None
  end.

Definition cast_inputs (op_schema : option OpSchema) (args : list A)
    : SE S (list B) :=
  match op_schema with
  | None => mapM (λ x, cast x None) args
  | Some op_schema =>
      let expected_inputs := inputs op_schema in
      match bind_typevars expected_inputs 0 args ∅ [] with
      | Raise e => raise e
      | Ok (type_bindings, args_typevars) =>
          mapM (λ xt, cast (fst xt) (bindings_get type_bindings (snd xt)))
               args_typevars
      end
  end.
End cast_inputs.

(** [dynamic_cast_inputs]: autocast during eager-mode execution. *)
Definition dynamic_get_type_info (x : pyobject) : option np_dtype :=
  match x with
  | PyTensor dtype _ _ => Some dtype
  | _ => None
  end.

Definition lift {S A} (r : Result A) : SE S A :=
  λ s, match r with Ok a => Ok (a, s) | Raise e => Raise e end.

Definition dynamic_cast_inputs (op_schema : option OpSchema)
    (args : list pyobject) : SE unit (list pyobject) :=
  cast_inputs dynamic_get_type_info
    (λ x typeinfo, lift (cast_pyvalue_to_os_tensor x typeinfo)) op_schema args.

(** ** converter.py: the abstract syntax that is lowered

    The constructors follow Python's [ast] classes.  [ast.Slice] is an
    expression class, as in Python 3.9 and later.  A [Compare] carries
    its single operator and comparator (the translator asserts there is
    exactly one), a [Call] carries the operator its callee expression
    resolves to and its positional arguments; keyword attributes, tuple
    assignment, annotated assignment, nested function definitions and
    [return] are outside the modelled subset. *)

Record Opset := {
  domain : string;
  version : nat;
  schemas : gmap string OpSchema
}.

(** [values.Op(opset, opname)]; [op_schema] is the schema the opset
    registers under that name, if any. *)
Record Op := mkOp { op_opset : Opset; opname : string }.

Definition op_schema (op : Op) : option OpSchema :=
  schemas (op_opset op) !! opname op.

Module ast.
Inductive opclass :=
| Add | Sub | Mult | MatMult | Div | Mod | Pow | FloorDiv
| LShift | RShift | BitOr | BitXor | BitAnd
| And | Or
| Eq | NotEq | Lt | LtE | Gt | GtE | Is | IsNot | In | NotIn
| Invert | Not | UAdd | USub.

Inductive expr :=
| Constant (value : pyobject)
| Name (id : string)
| UnaryOp (op : opclass) (operand : expr)
| BinOp (left : expr) (op : opclass) (right : expr)
| BoolOp (op : opclass) (values : list expr)
| Compare (left : expr) (op : opclass) (comparator : expr)
| Call (callee : Op) (args : list expr)
| Subscript (value : expr) (indices : list expr)
| Slice (lower upper step : option expr)
| List (elts : list expr).

Inductive stmt :=
| Assign (target : string) (value : expr)
| If (test : expr) (body orelse : list stmt) (live_out : option (gset string))
| For (target : expr) (iter_func : expr) (iter_args : list expr)
      (body : list stmt) (live_out : gset string)
| While (test : expr) (body : list stmt) (live_out : gset string)
| Break.

Global Instance opclass_eq_dec : EqDecision opclass.
Proof. solve_decision. Defined.
End ast.

(** map from python operators to ONNX ops *)
Definition primop_map (op : ast.opclass) : option string :=
  match op with
  | ast.Add => Some "Add"
  | ast.And => Some "And"
  | ast.BitAnd => Some "And"
  | ast.BitOr => Some "Or"
  | ast.Div => Some "Div"
  | ast.Eq => Some "Equal"
  | ast.Gt => Some "Greater"
  | ast.GtE => Some "GreaterOrEqual"
  | ast.Lt => Some "Less"
  | ast.LtE => Some "LessOrEqual"
  | ast.MatMult => Some "MatMul"
  | ast.Mod => Some "Mod"
  | ast.Mult => Some "Mul"
  | ast.Not => Some "Not"
  | ast.NotEq => Some "NotEqual"
  | ast.Or => Some "Or"
  | ast.Pow => Some "Pow"
  | ast.Sub => Some "Sub"
  | ast.USub => Some "Neg"
  | _ => None
  end.

(** ** converter.py: values, graph nodes and the converter state *)

Inductive ConverterExpressionKind := ANY | CONST.

Global Instance ConverterExpressionKind_eq_dec : EqDecision ConverterExpressionKind.
Proof. solve_decision. Defined.

(** [name] is [None] only for an omitted optional call argument. *)
Record ConverterExpression := {
  ce_name : option string;
  ce_kind : ConverterExpressionKind
}.

Definition is_const (x : ConverterExpression) : bool :=
  bool_decide (ce_kind x = CONST).

(** [str(x)] / an f-string field for a name that may be [None]. *)
Definition str_of_name (n : option string) : string :=
  match n with Some s => s | None => "None" end.

Definition name_of (x : ConverterExpression) : string := str_of_name (ce_name x).

(** What the code puts in a node's input list: a name, [None] (an omitted
    input) or a [ConverterExpression] object. *)
Inductive operand :=
| OName (s : string)
| ONone
| OExpr (e : ConverterExpression).

Definition operand_of_name (n : option string) : operand :=
  match n with Some s => OName s | None => ONone end.

Inductive AttributeType := AT_FLOAT | AT_INT | AT_STRING | AT_INTS | AT_OTHER.

(** Type annotations: the two [onnx_types] the lowering itself attaches,
    any other tensor annotation, and the attribute type of an
    attribute-typed annotation. *)
Inductive TypeInfo :=
| onnx_INT64
| onnx_BOOL
| onnx_tensor_type (repr : string)
| attr_type (t : AttributeType).

Inductive DynamicKind := Unknown | Input | Output | Intermediate | Loop.

(** What a name is bound to: [values.Dynamic], [values.AttrRef], or,
    through the module-level environment, a python value. *)
Inductive Value :=
| Dynamic (value : string) (kind : DynamicKind) (typeinfo : option TypeInfo)
| AttrRef (value : string) (typeinfo : TypeInfo)
| PyValue (v : pyobject).

Definition Value_typeinfo (v : Value) : option TypeInfo :=
  match v with
  | Dynamic _ _ t => t
  | AttrRef _ t => Some t
  | PyValue _ => None
  end.

(** Modelled from the spec: the graph-assembly backend ([irbuilder]) is an
    external collaborator.  It accepts node-emission requests
    ([add_stmt]), input and output declarations, makes attributes and
    assembles a function under construction into a subgraph; a graph node
    has an operator identity, ordered input names, ordered output names
    and attributes that are literals or nested subgraphs.
    [assigned_names] are the names the nodes of a subgraph define. *)
Inductive IRAttributeValue :=
| AttrPy (attr_name : string) (v : pyobject)
| AttrTensor (attr_name : string) (t : TensorProto)
| AttrGraph (attr_name : string) (g : IRFunction)
| AttrRefTo (attr_name : string) (ref_name : string) (t : TypeInfo)
with IRStmt :=
| mkIRStmt (result : list string) (callee : Op) (args : list operand)
           (attrs : list IRAttributeValue)
with IRFunction :=
| mkIRFunction (fn_name : string)
               (fn_inputs fn_outputs : list (string * option TypeInfo))
               (stmts : list IRStmt).

Definition result (s : IRStmt) : list string :=
  match s with mkIRStmt r _ _ _ => r end.
Definition callee (s : IRStmt) : Op :=
  match s with mkIRStmt _ c _ _ => c end.
Definition args (s : IRStmt) : list operand :=
  match s with mkIRStmt _ _ a _ => a end.
Definition attrs (s : IRStmt) : list IRAttributeValue :=
  match s with mkIRStmt _ _ _ a => a end.

Definition fn_name (f : IRFunction) : string :=
  match f with mkIRFunction n _ _ _ => n end.
Definition fn_inputs (f : IRFunction) : list (string * option TypeInfo) :=
  match f with mkIRFunction _ i _ _ => i end.
Definition fn_outputs (f : IRFunction) : list (string * option TypeInfo) :=
  match f with mkIRFunction _ _ o _ => o end.
Definition stmts (f : IRFunction) : list IRStmt :=
  match f with mkIRFunction _ _ _ s => s end.

Definition new_function (name : string) : IRFunction :=
  mkIRFunction name [] [] [].

Definition add_stmt (f : IRFunction) (s : IRStmt) : IRFunction :=
  mkIRFunction (fn_name f) (fn_inputs f) (fn_outputs f) (stmts f ++ [s]).

Definition add_input (f : IRFunction) (varname : string)
    (t : option TypeInfo) : IRFunction :=
  mkIRFunction (fn_name f) (fn_inputs f ++ [(varname, t)]) (fn_outputs f)
               (stmts f).

Definition add_output (f : IRFunction) (varname : string)
    (t : option TypeInfo) : IRFunction :=
  mkIRFunction (fn_name f) (fn_inputs f) (fn_outputs f ++ [(varname, t)])
               (stmts f).

Definition assigned_names (f : IRFunction) : list string :=
  concat (map result (stmts f)).

(** The mutable state of a [Converter] while it translates a function.
    [_current_fn] is the function or subgraph under construction. *)
Record Converter := mkConverter {
  default_opset_ : option Opset;
  globals : gmap string pyobject;
  _outer : list IRFunction;
  _current_fn : IRFunction;
  _nextvar : nat;
  _used_vars : gset string;
  _locals : list (gmap string Value)
}.

Definition M (A : Type) : Type := SE Converter A.

Definition set_outer (o : list IRFunction) (c : Converter) : Converter :=
  mkConverter (default_opset_ c) (globals c) o (_current_fn c) (_nextvar c)
              (_used_vars c) (_locals c).
Definition set_current_fn (f : IRFunction) (c : Converter) : Converter :=
  mkConverter (default_opset_ c) (globals c) (_outer c) f (_nextvar c)
              (_used_vars c) (_locals c).
Definition set_names (n : nat) (u : gset string) (c : Converter) : Converter :=
  mkConverter (default_opset_ c) (globals c) (_outer c) (_current_fn c) n u
              (_locals c).
Definition set_locals (l : list (gmap string Value)) (c : Converter) : Converter :=
  mkConverter (default_opset_ c) (globals c) (_outer c) (_current_fn c)
              (_nextvar c) (_used_vars c) l.

(** ** converter.py: scopes, names and node emission *)

Definition default_opset : M Opset :=
  c <- get ;;
  match default_opset_ c with
  | None => raise (RuntimeError
      "default_opset must be specified in script for functions that do not contain any use of an ONNX opset.")
  | Some o => ret o
  end.

(** [values.Op(self.default_opset, opname)] *)
Definition default_op (opname : string) : M Op :=
  o <- default_opset ;; ret (mkOp o opname).

Definition enter_scope (name : string) : M unit :=
  modify (λ c, set_locals (∅ :: _locals c)
                 (set_current_fn (new_function name)
                    (set_outer (_current_fn c :: _outer c) c))).

Definition exit_scope : M IRFunction :=
  c <- get ;;
  let graph := _current_fn c in
  match _outer c with
  | [] => raise (IndexError "pop from empty list")
  | f :: outer =>
      match _locals c with
      | [] => raise (IndexError "pop from empty list")
      | _ :: locals =>
          modify (λ c, set_locals locals (set_current_fn f (set_outer outer c))) ;;;
          ret graph
      end
  end.

Definition current_scope : M (gmap string Value) :=
  c <- get ;;
  match _locals c with
  | [] => raise (IndexError "list index out of range")
  | scope :: _ => ret scope
  end.

Definition bind_name (name : string) (val : Value) : M unit :=
  c <- get ;;
  match _locals c with
  | [] => raise (IndexError "list index out of range")
  | scope :: locals => modify (set_locals (<[name := val]> scope :: locals))
  end.

(** The loop [for scope in self._locals] of [lookup]. *)
Fixpoint lookup_scopes (name : string) (scopes : list (gmap string Value))
    : option Value :=
  match scopes with
  | [] => None
  | scope :: scopes' =>
      match scope !! name with
      | Some v => Some v
      | None => lookup_scopes name scopes'
      end
  end.

Definition lookup (name : string) : M Value :=
  c <- get ;;
  match lookup_scopes name (_locals c) with
  | Some v => ret v
  | None =>
      match globals c !! name with
      | Some v => ret (PyValue v)
      | None => raise (ValueError "Unbound name: {name}.")
      end
  end.

(** The [while] loop of [generate_unique_name].  Each iteration consumes
    one unit of [fuel]; [generate_unique_name] supplies more than the
    loop can use. *)
Fixpoint generate_unique_name_loop (fuel : nat) (candidate : string)
    (used : gset string) (r : string) (nextvar : nat) : option (string * nat) :=
  if bool_decide (r ∈ used) then
    match fuel with
    | 0 => None
    | S fuel' =>
        generate_unique_name_loop fuel' candidate used
          (candidate +:+ "_" +:+ pretty nextvar) (S nextvar)
    end
  else Some (r, nextvar).

Definition generate_unique_name (candidate : string) : M string :=
  c <- get ;;
  match generate_unique_name_loop (S (size (_used_vars c))) candidate
          (_used_vars c) candidate (_nextvar c) with
  | None => raise OutOfFuel
  | Some (r, nextvar) =>
      modify (set_names nextvar ({[r]} ∪ _used_vars c)) ;;;
      ret r
  end.

Definition emit (outputs : list string) (callee : Op) (inputs : list operand)
    (attrs : list IRAttributeValue) : M unit :=
  modify (λ c, set_current_fn
                 (add_stmt (_current_fn c) (mkIRStmt outputs callee inputs attrs)) c).

(** [emit] with the callee given by name: [values.Op(self.default_opset, callee)]. *)
Definition emit_named (outputs : list string) (callee : string)
    (inputs : list operand) (attrs : list IRAttributeValue) : M unit :=
  op <- default_op callee ;;
  emit outputs op inputs attrs.

Definition declare_input (varname : string) (t : option TypeInfo) : M unit :=
  modify (λ c, set_current_fn (add_input (_current_fn c) varname t) c).

Definition declare_output (varname : string) (t : option TypeInfo) : M unit :=
  modify (λ c, set_current_fn (add_output (_current_fn c) varname t) c).

(** [str(pyvalue)] for an [int] or a [bool] that is not negative. *)
Definition str_of_int (v : pyobject) : string :=
  match v with
  | PyBool true => "True"
  | PyBool false => "False"
  | PyInt z => pretty z
  | _ => EmptyString
  end.

(** The value of an [int] (a [bool] is [0] or [1]). *)
Definition int_value (v : pyobject) : Z :=
  match v with
  | PyBool b => int_of_bool b
  | PyInt z => z
  | _ => 0%Z
  end.

Definition int_const_name (v : pyobject) (suffix : string) : string :=
  if bool_decide (0 ≤ int_value v)%Z then "int64_" +:+ str_of_int v +:+ suffix
  else "int64_m" +:+ pretty (Z.abs (int_value v)) +:+ suffix.

Definition fail {A} (msg : string) : M A := raise (TranslationError msg).

Definition emit_const (pyvalue : pyobject) (suggested_name : option string)
    : M ConverterExpression :=
  let suggested_name :=
    match suggested_name with
    | Some n => n
    | None =>
        if isinstance pyvalue Tint then int_const_name pyvalue EmptyString
        else
          match pyvalue with
          | PyList [v0] =>
              if isinstance v0 Tint then int_const_name v0 "_1d" else "const"
          | _ => "const"
          end
    end in
  ovar <- generate_unique_name suggested_name ;;
  match pyvalue_to_onnx_tensor ovar pyvalue with
  | Raise (ValueError e) => fail e
  | Raise e => raise e
  | Ok tensor =>
      let attr := AttrTensor "value" tensor in
      op <- default_op "Constant" ;;
      emit [ovar] op [] [attr] ;;;
      ret {| ce_name := Some ovar; ce_kind := CONST |}
  end.

(** Emits a copy statement, using the ONNX Identity operator. *)
Definition emit_copy (original_var : operand) (suggested_name : string) : M string :=
  new_var <- generate_unique_name suggested_name ;;
  op <- default_op "Identity" ;;
  emit [new_var] op [original_var] [] ;;;
  ret new_var.

Definition to_onnx_attr_ref (value : string) (pytype : TypeInfo)
    : M IRAttributeValue :=
  match pytype with
  | attr_type AT_FLOAT => ret (AttrRefTo "value_float" value pytype)
  | attr_type AT_INT => ret (AttrRefTo "value_int" value pytype)
  | attr_type AT_STRING => ret (AttrRefTo "value_string" value pytype)
  | attr_type AT_INTS => ret (AttrRefTo "value_ints" value pytype)
  | _ => fail "Unsupported attribute type {pytype!r}."
  end.

(** [target or "tmp"] *)
Definition or_tmp (target : option string) : string :=
  match target with
  | Some (String a s) => String a s
  | _ => "tmp"
  end.

Definition to_onnx_var (val : Value) (target : option string) : M operand :=
  match val with
  | AttrRef value typeinfo =>
      result <- generate_unique_name (or_tmp target) ;;
      attr <- to_onnx_attr_ref value typeinfo ;;
      op <- default_op "Constant" ;;
      emit [result] op [] [attr] ;;;
      ret (OExpr {| ce_name := Some result; ce_kind := CONST |})
  | Dynamic value _ _ => ret (OName value)
  | PyValue v =>
      e <- emit_const v (Some (or_tmp target)) ;;
      ret (OExpr e)
  end.

Definition py_var_to_onnx_var (py_var : string) : M operand :=
  val <- lookup py_var ;;
  to_onnx_var val (Some py_var).

Definition emit_loop (outputs : list string) (callee : string)
    (inputs : list operand) (attrs : list IRAttributeValue) : M unit :=
  let rename x :=
    r <- generate_unique_name x ;;
    bind_name x (Dynamic r Output None) ;;;
    ret r in
  onnx_outputs <- mapM rename outputs ;;
  op <- default_op callee ;;
  emit onnx_outputs op inputs attrs.

(** ** converter.py: constant expressions *)

(** [ast.iter_child_nodes] also yields the operator node of a [BinOp]
    and of a [Compare] and the callee expression of a [Call] (a name or
    an attribute of a name); none of these is a constant expression, so
    these three classes never are. *)
Fixpoint is_constant_expr (node : ast.expr) : bool :=
  match node with
  | ast.UnaryOp _ operand => is_constant_expr operand
  | ast.Constant _ => true
  | ast.List elts => forallb is_constant_expr elts
  | ast.Call _ _ | ast.BinOp _ _ _ | ast.Compare _ _ _ => false
  | _ => false
  end.

(** Python's unary operators on the values a literal can have. *)
Definition py_neg (v : pyobject) : Result pyobject :=
  match v with
  | PyInt z => Ok (PyInt (- z))
  | PyBool b => Ok (PyInt (- int_of_bool b))
  | PyFloat q => Ok (PyFloat (Qopp q))
  | _ => Raise (TypeError "bad operand type for unary -")
  end.

Definition py_pos (v : pyobject) : Result pyobject :=
  match v with
  | PyInt z => Ok (PyInt z)
  | PyBool b => Ok (PyInt (int_of_bool b))
  | PyFloat q => Ok (PyFloat q)
  | _ => Raise (TypeError "bad operand type for unary +")
  end.

Definition py_invert (v : pyobject) : Result pyobject :=
  match v with
  | PyInt z => Ok (PyInt (- z - 1))
  | PyBool b => Ok (PyInt (- int_of_bool b - 1))
  | _ => Raise (TypeError "bad operand type for unary ~")
  end.

Definition py_not (v : pyobject) : Result pyobject :=
  match v with
  | PyNone => Ok (PyBool true)
  | PyBool b => Ok (PyBool (negb b))
  | PyInt z => Ok (PyBool (bool_decide (z = 0%Z)))
  | PyFloat q => Ok (PyBool (Qeq_bool q 0))
  | PyStr s => Ok (PyBool (bool_decide (s = EmptyString)))
  | PyList l => Ok (PyBool (negb (truthy_list l)))
  | PyObject _ => Ok (PyBool false)
  | PyNdarray _ _ _ | PyTensor _ _ _ =>
      Raise (ValueError "The truth value of an array is ambiguous")
  end.

(** [eval_constant_expr] evaluates the expression with Python's [eval].
    The modelled code calls it on constant expressions only; on the other
    classes the model reports the name error of a free local name. *)
Fixpoint eval_constant_expr (expr : ast.expr) : Result pyobject :=
  match expr with
  | ast.Constant value => Ok value
  | ast.UnaryOp op operand =>
      match eval_constant_expr operand with
      | Raise e => Raise e
      | Ok v =>
          match op with
          | ast.USub => py_neg v
          | ast.UAdd => py_pos v
          | ast.Not => py_not v
          | ast.Invert => py_invert v
          | _ => Raise (TypeError "expected some sort of unaryop")
          end
      end
  | ast.List elts =>
      match
        (fix eval_list (l : list ast.expr) : Result (list pyobject) :=
           match l with
           | [] => Ok []
           | e :: l' =>
               match eval_constant_expr e with
               | Raise x => Raise x
               | Ok v =>
                   match eval_list l' with
                   | Raise x => Raise x
                   | Ok vs => Ok (v :: vs)
                   end
               end
           end) elts
      with
      | Ok vs => Ok (PyList vs)
      | Raise x => Raise x
      end
  | _ => Raise (NameError "Missing names")
  end.

(** ** autocast.py: the static specialization *)

Definition static_get_type_info (x : ConverterExpression)
    : option ConverterExpression :=
  if negb (is_const x) then Some x else None.

Definition static_cast (x : ConverterExpression)
    (typeinfo : option ConverterExpression) : M (option string) :=
  match typeinfo with
  | Some typeinfo =>
      if is_const x then
        tmp <- generate_unique_name (name_of x +:+ "_cast") ;;
        op <- default_op "CastLike" ;;
        emit [tmp] op [operand_of_name (ce_name x); OExpr typeinfo] [] ;;;
        ret (Some tmp)
      else ret (ce_name x)
  | None => ret (ce_name x)
  end.

Definition static_cast_inputs (op_schema : option OpSchema)
    (args : list ConverterExpression) : M (list (option string)) :=
  cast_inputs static_get_type_info static_cast op_schema args.

(** ** The literal promotion rule, as the specification words it *)

(** A literal bool, int or float. *)
Definition scalar_literal (v : pyobject) : bool :=
  match v with
  | PyBool _ | PyInt _ | PyFloat _ => true
  | _ => false
  end.

(** All the elements of a list have the class of the first one. *)
Definition homogeneous (l : list pyobject) : bool :=
  match l with
  | [] => true
  | e0 :: _ => forallb (λ e, bool_decide (py_type e = py_type e0)) l
  end.

(** A literal bool, int or float, or a homogeneous non-empty list of such. *)
Definition promoted_literal (v : pyobject) : bool :=
  scalar_literal v ||
  match v with
  | PyList l => truthy_list l && forallb scalar_literal l && homogeneous l
  | _ => false
  end.

(** Booleans to a rank-0 boolean, integers to a rank-0 64-bit integer,
    floats to a rank-0 32-bit float, lists to a rank-1 tensor of the first
    element's promoted type. *)
Definition promoted_scalar_type (v : pyobject) : option TensorProto_DataType :=
  match v with
  | PyBool _ => Some BOOL
  | PyInt _ => Some INT64
  | PyFloat _ => Some FLOAT
  | _ => None
  end.

Definition promoted_type (v : pyobject) : option (TensorProto_DataType * nat) :=
  match v with
  | PyList (e0 :: _) => t ← promoted_scalar_type e0; Some (t, 1)
  | _ => t ← promoted_scalar_type v; Some (t, 0)
  end.

(** The class [pyvalue_to_onnx_tensor] hands to [_py_type_to_onnx_type]:
    that of the first element of a list, that of the value otherwise. *)
Definition literal_pytype (v : pyobject) : pytype :=
  match v with
  | PyList (e0 :: _) => py_type e0
  | _ => py_type v
  end.

(** No python [int] of the literal lies outside the signed 64-bit range. *)
Definition int64_literal (v : pyobject) : bool :=
  forallb int64_value (np_flat v).

(** A promotable literal: a bool, an int, a float, or a non-empty list
    whose first element is promotable. *)
Inductive promotable_literal : pyobject → Prop :=
| promotable_bool b : promotable_literal (PyBool b)
| promotable_int z : promotable_literal (PyInt z)
| promotable_float q : promotable_literal (PyFloat q)
| promotable_list x0 l :
    promotable_literal x0 → promotable_literal (PyList (x0 :: l)).

(** ** The binding pass, as the specification words it *)

(** The type string that labels the [i]-th actual argument: that of the
    [i]-th formal parameter, or of a trailing homogeneous variadic one.
    Arguments of a heterogeneous variadic parameter have no label. *)
Definition label_of (expected_inputs : list FormalParameter) (i : nat)
    : option string :=
  match expected_inputs !! i with
  | Some expected => Some (type_str expected)
  | None =>
      match last expected_inputs with
      | Some expected =>
          if bool_decide (fp_option expected = Variadic) && is_homogeneous expected
          then Some (type_str expected) else None
      | None => None
      end
  end.

(** A type string is a type variable when it is an identifier, like [T],
    and not a concrete type, like [tensor(int64)]. *)
Definition is_typevar (t : string) : bool := negb (char_in lparen t).

Section known_types.
Context {A TI : Type}.
Variable get_type_info : A → option TI.
Variable expected_inputs : list FormalParameter.
Variable typevar : string.

(** The concrete types the inspector determines for the arguments
    labelled with [typevar], in argument order, for the arguments from
    index [i] on. *)
Fixpoint known_types (i : nat) (args : list A) : list TI :=
  match args with
  | [] => []
  | x :: args' =>
      (if bool_decide (label_of expected_inputs i = Some typevar)
          && is_typevar typevar
       then option_list (get_type_info x) else [])
      ++ known_types (Datatypes.S i) args'
  end.
End known_types.



(** ** converter.py: expression lowering *)

(** What the translator of one expression class hands back to
    [translate_expr]: a [ConverterExpression], a node-emission request
    [(callee, args, attrs)], or a bare name. *)
Inductive expr_result :=
| RExpr (e : ConverterExpression)
| RCall (callee : Op) (args : list operand) (attrs : list IRAttributeValue)
| RName (n : option string).

(** A slice [lower:upper:step]. *)
Definition slice_expr : Type := option ast.expr * option ast.expr * option ast.expr.

Definition maxint : Z := (Z.shiftl 1 63 - 1)%Z.
Definition minint : Z := (- Z.shiftl 1 63)%Z.

(** The partition of the index elements of a subscript: slices,
    known-to-be-scalar, other-tensor; [::] is skipped. *)
Fixpoint partition_indices (axis : nat) (indices : list ast.expr)
    (sliced_indices : list (nat * slice_expr))
    (scalar_indices non_scalar_indices : list (nat * ast.expr))
    : Result (list (nat * slice_expr) * list (nat * ast.expr) * list (nat * ast.expr)) :=
  match indices with
  | [] => Ok (sliced_indices, scalar_indices, non_scalar_indices)
  | elt :: indices' =>
      match elt with
      | ast.Slice lower upper step =>
          match lower, upper, step with
          | None, None, None =>
              partition_indices (S axis) indices' sliced_indices scalar_indices
                non_scalar_indices
          | _, _, _ =>
              partition_indices (S axis) indices'
                (sliced_indices ++ [(axis, (lower, upper, step))]) scalar_indices
                non_scalar_indices
          end
      | _ =>
          if is_constant_expr elt then
            match eval_constant_expr elt with
            | Raise e => Raise e
            | Ok v =>
                if isinstance v Tint then
                  partition_indices (S axis) indices' sliced_indices
                    (scalar_indices ++ [(axis, elt)]) non_scalar_indices
                else
                  partition_indices (S axis) indices' sliced_indices scalar_indices
                    (non_scalar_indices ++ [(axis, elt)])
            end
          else
            partition_indices (S axis) indices' sliced_indices scalar_indices
              (non_scalar_indices ++ [(axis, elt)])
      end
  end.

(** A scalar index [i] as the slice [i:i+1:1]. *)
Fixpoint scalars_as_slices (scalar_indices : list (nat * ast.expr))
    : Result (list (nat * slice_expr)) :=
  match scalar_indices with
  | [] => Ok []
  | (axis, expr) :: rest =>
      match eval_constant_expr expr with
      | Raise e => Raise e
      | Ok index =>
          match scalars_as_slices rest with
          | Raise e => Raise e
          | Ok slices =>
              Ok ((axis, (Some (ast.Constant index),
                          Some (ast.Constant (PyInt (int_value index + 1))),
                          Some (ast.Constant (PyInt 1)))) :: slices)
          end
      end
  end.

Section expression_lowering.
Variable translate_expr : ast.expr → option string → M ConverterExpression.

Definition translate_opt_expr (node : ast.expr) : M ConverterExpression :=
  match node with
  | ast.Constant PyNone => ret {| ce_name := None; ce_kind := ANY |}
  | _ => translate_expr node None
  end.

(** The cache of 1-D int constants of one subscript; python's [True]
    and [1] are the same key. *)
Definition const_1d (value : pyobject) (cached_int_consts : gmap Z ConverterExpression)
    : M (ConverterExpression * gmap Z ConverterExpression) :=
  match cached_int_consts !! int_value value with
  | Some e => ret (e, cached_int_consts)
  | None =>
      e <- emit_const (PyList [value]) None ;;
      ret (e, <[int_value value := e]> cached_int_consts)
  end.

(** Translate optional start/stop/step component of a Slice expression. *)
Definition translate_slice_component (node_arg : option ast.expr)
    (default_value : option Z) (cache : gmap Z ConverterExpression)
    : M (operand * option Z * gmap Z ConverterExpression) :=
  match node_arg with
  | None =>
      match default_value with
      | None => raise (RuntimeError
          "Default start/stop not supported when step direction is unknown.")
      | Some d =>
          p <- const_1d (PyInt d) cache ;;
          ret (OExpr (fst p), Some d, snd p)
      end
  | Some node_arg =>
      if is_constant_expr node_arg then
        match eval_constant_expr node_arg with
        | Raise e => raise e
        | Ok cst =>
            if isinstance cst Tint then
              p <- const_1d cst cache ;;
              ret (OExpr (fst p), Some (int_value cst), snd p)
            else raise (RuntimeError
              "Slice component type must be int, not {type(cst)}")
        end
      else
        e <- translate_expr node_arg None ;;
        reshaped <- generate_unique_name (name_of e +:+ "_reshaped") ;;
        op <- default_op "Reshape" ;;
        p <- const_1d (PyInt 1) cache ;;
        emit [reshaped] op
          [operand_of_name (ce_name e); operand_of_name (ce_name (fst p))] [] ;;;
        ret (OName reshaped, None, snd p)
  end.

(** Translate slice-expression of the form from:to:step. *)
Definition translate_slice (slice : slice_expr) (cache : gmap Z ConverterExpression)
    : M (operand * operand * operand * gmap Z ConverterExpression) :=
  let '(lower, upper, step) := slice in
  s <- translate_slice_component step (Some 1%Z) cache ;;
  let '(step_name, step, cache) := s in
  let defaults :=
    match step with
    | None => (None, None)
    | Some step =>
        if bool_decide (0 < step)%Z then (Some 0%Z, Some maxint)
        else (Some maxint, Some minint)
    end in
  l <- translate_slice_component lower (fst defaults) cache ;;
  let '(lower_name, _, cache) := l in
  u <- translate_slice_component upper (snd defaults) cache ;;
  let '(upper_name, _, cache) := u in
  ret (lower_name, upper_name, step_name, cache).

(** The loop [for axis, element in sliced_indices]. *)
Fixpoint translate_slices (sliced_indices : list (nat * slice_expr))
    (cache : gmap Z ConverterExpression)
    (starts ends axes steps : list operand)
    : M (list operand * list operand * list operand * list operand) :=
  match sliced_indices with
  | [] => ret (starts, ends, axes, steps)
  | (axis, element) :: rest =>
      a <- const_1d (PyInt (Z.of_nat axis)) cache ;;
      let '(axis_var, cache) := a in
      i <- translate_slice element cache ;;
      let '(lower_name, upper_name, step_name, cache) := i in
      translate_slices rest cache
        (starts ++ [lower_name]) (ends ++ [upper_name])
        (axes ++ [operand_of_name (ce_name axis_var)]) (steps ++ [step_name])
  end.

(** The loop [for axis, index_expr in non_scalar_indices]. *)
Fixpoint translate_gathers (var : ConverterExpression) (target : string)
    (last_axis : nat) (non_scalar_indices : list (nat * ast.expr))
    (result : option string) : M (option string) :=
  match non_scalar_indices with
  | [] => ret result
  | (axis, index_expr) :: rest =>
      index_value <- translate_expr index_expr None ;;
      let axis_attr := AttrPy "axis" (PyInt (Z.of_nat axis)) in
      gathered <- (if bool_decide (axis ≠ last_axis)
                   then generate_unique_name
                          (name_of var +:+ "_axis_" +:+ pretty axis)
                   else ret target) ;;
      emit_named [gathered] "Gather"
        [OName (str_of_name result); OExpr index_value] [axis_attr] ;;;
      translate_gathers var target last_axis rest (Some gathered)
  end.

(** The block [if len(starts) > 1: ... else: ...] that combines the
    per-axis start/stop/axis/step values. *)
Definition combine_slice_inputs (var : ConverterExpression)
    (starts ends axes steps : list operand)
    : M (operand * operand * operand * operand) :=
  if bool_decide (1 < length starts) then
    let axis_0_attr := AttrPy "axis" (PyInt 0) in
    start_name <- generate_unique_name (name_of var +:+ "_start") ;;
    emit_named [start_name] "Concat" starts [axis_0_attr] ;;;
    end_name <- generate_unique_name (name_of var +:+ "_end") ;;
    emit_named [end_name] "Concat" ends [axis_0_attr] ;;;
    axes_name <- generate_unique_name (name_of var +:+ "_axis") ;;
    emit_named [axes_name] "Concat" axes [axis_0_attr] ;;;
    steps_name <- generate_unique_name (name_of var +:+ "_step") ;;
    emit_named [steps_name] "Concat" steps [axis_0_attr] ;;;
    ret (OName start_name, OName end_name, OName axes_name, OName steps_name)
  else
    match starts, ends, axes, steps with
    | s0 :: _, e0 :: _, a0 :: _, t0 :: _ => ret (s0, e0, a0, t0)
    | _, _, _, _ => raise (IndexError "list index out of range")
    end.

(** The block [if sliced_indices or len(scalar_indices) > 1: ...]: one
    Slice node, followed by one Squeeze node when scalar indices were
    rewritten as slices.  It returns [result]. *)
Definition translate_sliced (var : ConverterExpression) (target : string)
    (sliced_indices : list (nat * slice_expr))
    (scalar_indices non_scalar_indices : list (nat * ast.expr))
    : M (option string) :=
  let var_name := ce_name var in
  let squeezed_axes := map fst scalar_indices in
  match scalars_as_slices scalar_indices with
  | Raise e => raise e
  | Ok slices =>
      let sliced_indices := sliced_indices ++ slices in
      s <- translate_slices sliced_indices ∅ [] [] [] [] ;;
      let '(starts, ends, axes, steps) := s in
      n <- combine_slice_inputs var starts ends axes steps ;;
      let '(start_name, end_name, axes_name, steps_name) := n in
      let slice_inputs :=
        [operand_of_name var_name; start_name; end_name; axes_name; steps_name] in
      if truthy_list squeezed_axes then
        sliced_name <- generate_unique_name (name_of var +:+ "_sliced") ;;
        emit_named [sliced_name] "Slice" slice_inputs [] ;;;
        squeezed <- emit_const
                      (PyList (map (λ a, PyInt (Z.of_nat a)) squeezed_axes))
                      (Some "squeezed_axes") ;;
        result <- (if truthy_list non_scalar_indices
                   then generate_unique_name (name_of var +:+ "_squeezed")
                   else ret target) ;;
        emit_named [result] "Squeeze" [OName sliced_name; OExpr squeezed] [] ;;;
        ret (Some result)
      else
        result <- (if truthy_list non_scalar_indices
                   then generate_unique_name (name_of var +:+ "_sliced")
                   else ret target) ;;
        emit_named [result] "Slice" slice_inputs [] ;;;
        ret (Some result)
  end.

Definition translate_subscript_expr (value : ast.expr) (indices : list ast.expr)
    (target : option string) : M expr_result :=
  var <- translate_expr value None ;;
  let var_name := ce_name var in
  let target :=
    match target with
    | None => name_of var +:+ "_subscripted"
    | Some target => target
    end in
  target <- generate_unique_name target ;;
  match partition_indices 0 indices [] [] [] with
  | Raise e => raise e
  | Ok (sliced_indices, scalar_indices, non_scalar_indices) =>
      if negb (truthy_list sliced_indices || truthy_list scalar_indices
               || truthy_list non_scalar_indices) then
        emit_named [target] "Identity" [operand_of_name var_name] [] ;;;
        ret (RName (Some target))
      else
        p <- (if truthy_list sliced_indices || bool_decide (1 < length scalar_indices)
              then
                result <- translate_sliced var target sliced_indices
                            scalar_indices non_scalar_indices ;;
                ret (result, [])
              else ret (var_name, scalar_indices)) ;;
        let '(result, scalar_indices) := p in
        let non_scalar_indices := non_scalar_indices ++ scalar_indices in
        let last_axis :=
          match last non_scalar_indices with
          | Some (last_axis, _) => last_axis
          | None => 0
          end in
        result <- translate_gathers var target last_axis non_scalar_indices result ;;
        ret (RName result)
  end.

Definition translate_call_expr (callee : Op) (args : list ast.expr) : M expr_result :=
  args <- mapM translate_opt_expr args ;;
  args <- static_cast_inputs (op_schema callee) args ;;
  ret (RCall callee (map operand_of_name args) []).

Definition _cast_like_binary_expression (op : Op)
    (left right : ConverterExpression) : M (operand * operand) :=
  r <- static_cast_inputs (op_schema op) [left; right] ;;
  match r with
  | [l; r] => ret (operand_of_name l, operand_of_name r)
  | _ => raise (ValueError "not enough values to unpack")
  end.

(** The loop [for operand in node.values[1:]]. *)
Fixpoint translate_bool_operands (op : Op) (expr : ConverterExpression)
    (operands : list ast.expr) : M ConverterExpression :=
  match operands with
  | [] => ret expr
  | operand :: rest =>
      right <- translate_expr operand None ;;
      lr <- _cast_like_binary_expression op expr right ;;
      ovar <- generate_unique_name "tmp" ;;
      emit [ovar] op [fst lr; snd lr] [] ;;;
      translate_bool_operands op {| ce_name := Some ovar; ce_kind := ANY |} rest
  end.

Definition translate_bool_op_expr (op : ast.opclass) (values : list ast.expr)
    : M expr_result :=
  op <- match op with
        | ast.And => default_op "And"
        | ast.Or => default_op "Or"
        | _ => raise (ValueError "Unsupported operator {node.op!r}.")
        end ;;
  match values with
  | [] => raise (IndexError "list index out of range")
  | v0 :: rest =>
      expr <- translate_expr v0 None ;;
      expr <- translate_bool_operands op expr rest ;;
      ret (RExpr expr)
  end.

Definition translate_bin_op_expr (left : ast.expr) (op : ast.opclass)
    (right : ast.expr) : M expr_result :=
  match primop_map op with
  | None => raise (ValueError "Unsupported operator {op!r}.")
  | Some opname =>
      attr <- (if bool_decide (op = ast.Mod) && is_constant_expr right then
                 match eval_constant_expr right with
                 | Raise e => raise e
                 | Ok (PyFloat _) => ret [AttrPy "fmod" (PyInt 1)]
                 | Ok _ => ret []
                 end
               else ret []) ;;
      op <- default_op opname ;;
      l <- translate_expr left None ;;
      r <- translate_expr right None ;;
      lr <- _cast_like_binary_expression op l r ;;
      ret (RCall op [fst lr; snd lr] attr)
  end.

Definition translate_unary_op_expr (op : ast.opclass) (operand : ast.expr)
    : M expr_result :=
  match primop_map op with
  | None => raise (AttributeError "'str' object has no attribute 'msg'")
  | Some opname =>
      let general :=
        operand <- translate_expr operand None ;;
        op <- default_op opname ;;
        ret (RCall op [OExpr operand] []) in
      if is_constant_expr operand then
        match operand with
        | ast.Constant val =>
            if bool_decide (op = ast.USub) then
              match py_neg val with
              | Raise e => raise e
              | Ok v => e <- translate_expr (ast.Constant v) None ;; ret (RExpr e)
              end
            else if bool_decide (op = ast.UAdd) then
              e <- translate_expr operand None ;; ret (RExpr e)
            else general
        | _ => raise (TypeError
            "Unable to guess constant value from type {type(node.operand)!r} and attributes {dir(node.operand)!r}.")
        end
      else general
  end.

Definition translate_compare_expr (left : ast.expr) (op : ast.opclass)
    (comparator : ast.expr) : M expr_result :=
  match primop_map op with
  | None => raise (ValueError "Unsupported operator {op!r}.")
  | Some opname =>
      left <- translate_expr left None ;;
      right <- translate_expr comparator None ;;
      let not_equal := bool_decide (opname = "NotEqual") in
      op <- default_op (if not_equal then "Equal" else opname) ;;
      lr <- _cast_like_binary_expression op left right ;;
      if not_equal then
        tmp <- generate_unique_name "tmp" ;;
        emit [tmp] op [fst lr; snd lr] [] ;;;
        not_op <- default_op "Not" ;;
        ret (RCall not_op [OName tmp] [])
      else ret (RCall op [fst lr; snd lr] [])
  end.

Definition translate_name_expr (id : string) : M expr_result :=
  r <- py_var_to_onnx_var id ;;
  match r with
  | OName s => ret (RName (Some s))
  | ONone => ret (RName None)
  | OExpr e => ret (RExpr e)
  end.

(** The body of [translate_expr], with its recursive calls through
    [translate_expr] above. *)
Definition translate_expr_body (node : ast.expr) (target : option string)
    : M ConverterExpression :=
  r <- match node with
       | ast.Call callee args => translate_call_expr callee args
       | ast.BinOp l op r => translate_bin_op_expr l op r
       | ast.BoolOp op values => translate_bool_op_expr op values
       | ast.UnaryOp op operand => translate_unary_op_expr op operand
       | ast.Compare l op comparator => translate_compare_expr l op comparator
       | ast.Name id => translate_name_expr id
       | ast.Subscript value indices => translate_subscript_expr value indices target
       | _ =>
           if is_constant_expr node then
             match eval_constant_expr node with
             | Raise e => raise e
             | Ok v => e <- emit_const v target ;; ret (RExpr e)
             end
           else raise (ValueError "Unsupported expression type {type(node)!r}.")
       end ;;
  match r with
  | RExpr r => ret r
  | RCall callee args attrs =>
      let target := match target with None => "tmp" | Some t => t end in
      result <- generate_unique_name target ;;
      emit [result] callee args attrs ;;;
      ret {| ce_name := Some result; ce_kind := ANY |}
  | RName r => ret {| ce_name := r; ce_kind := ANY |}
  end.
End expression_lowering.

(** [translate_expr], with the depth of the recursion bounded by [fuel]. *)
Fixpoint translate_expr (fuel : nat) (node : ast.expr) (target : option string)
    : M ConverterExpression :=
  match fuel with
  | 0 => raise OutOfFuel
  | S fuel => translate_expr_body (translate_expr fuel) node target
  end.

(** ** converter.py: statement and control-flow lowering *)

(** [val.value] of a bound value. *)
Definition Value_value (v : Value) : M string :=
  match v with
  | Dynamic value _ _ => ret value
  | AttrRef value _ => ret value
  | PyValue _ => raise (AttributeError "object has no attribute 'value'")
  end.

(** [if output not in self._current_fn.assigned_names:
        output = self.emit_copy(output, pvar)]:
    a [ConverterExpression] object is never equal to a name, so it is
    always copied. *)
Definition copy_unless_assigned (output : operand) (f : IRFunction)
    (pvar : string) : M string :=
  match output with
  | OName s =>
      if bool_decide (s ∉ assigned_names f) then emit_copy output pvar else ret s
  | _ => emit_copy output pvar
  end.

(** [if <test>: break], the shape [translate_loop_stmt] intercepts. *)
Definition is_break_test (s : ast.stmt) : option ast.expr :=
  match s with
  | ast.If test [ast.Break] _ _ => Some test
  | _ => None
  end.

(** [condition_name or o_cond_var] *)
Definition or_name (condition_name o_cond_var : option string) : option string :=
  match condition_name with
  | Some (String a s) => Some (String a s)
  | _ => o_cond_var
  end.

Section statement_lowering.
(** The liveness oracle ([analysis.defs] and [analysis.exposed_uses]) is
    an external collaborator; the [live_out] sets it computes are part
    of the statements. *)
Variable defs : list ast.stmt → gset string.
Variable exposed_uses : list ast.stmt → gset string.
Variable translate_expr : ast.expr → option string → M ConverterExpression.
Variable translate_stmt : ast.stmt → M unit.

Definition translate_assign_stmt (lhs : string) (rhs : ast.expr) : M unit :=
  t <- translate_expr rhs (Some lhs) ;;
  bind_name lhs (Dynamic (name_of t) Intermediate None).

(** The body of the loop [for pvar in live_defs] of [translate_block]. *)
Definition block_output (stmts : list ast.stmt) (pvar : string) : M unit :=
  scope <- current_scope ;;
  match scope !! pvar with
  | Some pv_val =>
      output <- to_onnx_var pv_val (Some pvar) ;;
      c <- get ;;
      output <- copy_unless_assigned output (_current_fn c) pvar ;;
      declare_output output (Value_typeinfo pv_val)
  | None =>
      c <- get ;;
      match lookup_scopes pvar (_locals c) with
      | None =>
          match stmts with
          | [] => raise (IndexError "list index out of range")
          | _ => fail
              "Variable {pvar} is not assigned a value along a conditional branch, known variables: {list(self._locals)}."
          end
      | Some pv_val =>
          ovar <- generate_unique_name pvar ;;
          op <- default_op "Identity" ;;
          input <- to_onnx_var pv_val (Some pvar) ;;
          emit [ovar] op [input] [] ;;;
          declare_output ovar None
      end
  end.

(** Translation of a statement-block to GraphProto attribute. *)
Definition translate_block (stmts : list ast.stmt) (name : string)
    (live_defs : list string) : M IRFunction :=
  enter_scope name ;;;
  forM_ translate_stmt stmts ;;;
  forM_ (block_output stmts) live_defs ;;;
  exit_scope.

Definition if_rename (x : string) : M string :=
  r <- generate_unique_name x ;;
  bind_name x (Dynamic r Intermediate None) ;;;
  ret r.

Definition translate_if_stmt (stmt : ast.stmt) (test : ast.expr)
    (body orelse : list ast.stmt) (live_out : option (gset string)) : M unit :=
  let live_defs :=
    match live_out with
    | Some live_out => elements (live_out ∩ defs [stmt])
    | None => elements (defs [stmt])
    end in
  test <- translate_expr test (Some "cond") ;;
  let test := ce_name test in
  thenGraph <- translate_block body "thenGraph_{lineno}" live_defs ;;
  let thenAttr := AttrGraph "then_branch" thenGraph in
  elseGraph <- translate_block orelse "elseGraph_{lineno}" live_defs ;;
  let elseAttr := AttrGraph "else_branch" elseGraph in
  renamed <- mapM if_rename live_defs ;;
  if negb (truthy_list renamed) then
    fail "A subgraph for a test do not have any output variable."
  else if bool_decide (map Some renamed = [test]) then
    fail "Input and output cannot be the same {renamed!r}."
  else
    op <- default_op "If" ;;
    emit renamed op [operand_of_name test] [thenAttr; elseAttr].

(** The loop [for pv in loop_state_vars] that declares the state inputs
    of the loop body. *)
Definition loop_state_input (pv : string) : M unit :=
  ov <- generate_unique_name pv ;;
  declare_input ov None ;;;
  bind_name pv (Dynamic ov Loop None).

(** The loop [for i, s in enumerate(loop_stmt.body)]; [n] is
    [len(loop_stmt.body)]. *)
Fixpoint translate_loop_body (n : nat) (i : nat) (body : list ast.stmt)
    (condition_name : option string) (operator_name : string)
    : M (option string * string) :=
  match body with
  | [] => ret (condition_name, operator_name)
  | s :: body' =>
      match is_break_test s with
      | Some test =>
          match test with
          | ast.Name id =>
              if bool_decide (i ≠ n - 1) then
                fail "Instruction break must be the last one of the loop."
              else
                current_scope <- current_scope ;;
                match current_scope !! id with
                | None => fail
                    "Unable to find condition variable {s.test.id!r} in known variables {list(current_scope)!r}."
                | Some v =>
                    condition_name <- Value_value v ;;
                    translate_loop_body n (S i) body' (Some condition_name) "Not"
                end
          | _ => fail
              "Instruction break can be introduced with test but it must be if <condition>: break. However condition is of type {type(s.test)!r}."
          end
      | None =>
          translate_stmt s ;;;
          translate_loop_body n (S i) body' condition_name operator_name
      end
  end.

(** The loop [for pv in loop_state_vars] that declares the state
    outputs of the loop body. *)
Definition loop_state_output (pv : string) : M unit :=
  ov <- py_var_to_onnx_var pv ;;
  c <- get ;;
  ov <- copy_unless_assigned ov (_current_fn c) pv ;;
  declare_output ov None.

(** [translate_loop_stmt] after the analysis of the loop header, in
    three parts: up to the declaration of the inputs of the loop body,
    the statements of the body ([translate_loop_body] above), and from
    the condition output on.  [p_loop_var], [o_loop_bound],
    [i_cond_var], [cond_while] and [o_cond_var] are local variables of
    [translate_loop_stmt]. *)
Definition loop_state_vars (body : list ast.stmt) (live_out : gset string)
    : gset string :=
  let exposed_uses := exposed_uses body in
  let vars_def_in_loop := defs body in
  vars_def_in_loop ∩ (exposed_uses ∪ live_out).

Definition loop_prologue (loop_state_vars : gset string)
    (p_loop_var i_cond_var : string) : M ConverterExpression :=
  o_true <- emit_const (PyBool true) (Some "true") ;;
  enter_scope "loop_body" ;;;
  o_loop_var <- generate_unique_name p_loop_var ;;
  declare_input o_loop_var (Some onnx_INT64) ;;;
  bind_name p_loop_var (Dynamic o_loop_var Loop None) ;;;
  declare_input i_cond_var (Some onnx_BOOL) ;;;
  forM_ loop_state_input (elements loop_state_vars) ;;;
  ret o_true.

Definition loop_epilogue (loop_state_vars : gset string)
    (o_loop_bound : operand) (o_true : ConverterExpression)
    (cond_while : option string) (o_cond_var : option string)
    (condition_name : option string) (operator_name : string) : M unit :=
  let scan_outputs : gset string := ∅ in
  let outputs := elements (loop_state_vars ∪ scan_outputs) in
  o_cond_out <- generate_unique_name "cond_out" ;;
  o_cond_var <- match cond_while with
                | Some cond_while =>
                    current_scope <- current_scope ;;
                    match current_scope !! cond_while with
                    | None => fail
                        "Unable to find condition variable {cond_while!r} in known variables {list(current_scope)!r}."
                    | Some v => value <- Value_value v ;; ret (Some value)
                    end
                | None => ret o_cond_var
                end ;;
  op <- default_op operator_name ;;
  emit [o_cond_out] op [operand_of_name (or_name condition_name o_cond_var)] [] ;;;
  declare_output o_cond_out (Some onnx_BOOL) ;;;
  forM_ loop_state_output (elements loop_state_vars) ;;;
  body <- exit_scope ;;
  state <- mapM py_var_to_onnx_var (elements loop_state_vars) ;;
  let inputs := [o_loop_bound; OExpr o_true] ++ state in
  let attrs := [AttrGraph "body" body] in
  emit_loop outputs "Loop" inputs attrs.

Definition translate_loop_stmt_body (body : list ast.stmt) (live_out : gset string)
    (p_loop_var : string) (o_loop_bound : operand) (i_cond_var : string)
    (cond_while : option string) (o_cond_var : option string) : M unit :=
  let loop_state_vars := loop_state_vars body live_out in
  o_true <- loop_prologue loop_state_vars p_loop_var i_cond_var ;;
  b <- translate_loop_body (length body) 0 body None "Identity" ;;
  loop_epilogue loop_state_vars o_loop_bound o_true cond_while o_cond_var
    (fst b) (snd b).

Definition translate_loop_stmt (loop_stmt : ast.stmt) : M unit :=
  match loop_stmt with
  | ast.For target iter_func iter_args body live_out =>
      match target with
      | ast.Name p_loop_var =>
          match iter_func with
          | ast.Name id =>
              if bool_decide (id ≠ "range") then
                fail "Unsupported loop bound, only function 'range' is allowed."
              else
                match iter_args with
                | [bound] =>
                    o_loop_bound <- translate_expr bound (Some "loop_bound") ;;
                    o_cond_var <- generate_unique_name "cond_in" ;;
                    translate_loop_stmt_body body live_out p_loop_var
                      (operand_of_name (ce_name o_loop_bound)) o_cond_var None
                      (Some o_cond_var)
                | _ => fail "Unsupported loop bound, it should be 'range(?)'."
                end
          | _ => fail "Unsupported loop bound {iter.func!r}."
          end
      | _ => fail "For loop target must be a single variable."
      end
  | ast.While test body live_out =>
      match test with
      | ast.Name id =>
          translate_loop_stmt_body body live_out "infinite_loop"
            (OName EmptyString) id (Some id) None
      | _ => fail
          "Unexpected condition type {type(loop_stmt)!r} for a while loop, it should be 'while <condition_name>:'."
      end
  | _ => fail "Unexpected loop type {type(loop_stmt)!r}."
  end.

(** The body of [translate_stmt], with its recursive calls through
    [translate_stmt] above. *)
Definition translate_stmt_body (node : ast.stmt) : M unit :=
  match node with
  | ast.Assign target value => translate_assign_stmt target value
  | ast.If test body orelse live_out =>
      translate_if_stmt node test body orelse live_out
  | ast.For _ _ _ _ _ | ast.While _ _ _ => translate_loop_stmt node
  | ast.Break => raise (ValueError "Unsupported statement type {type(node)!r}.")
  end.
End statement_lowering.

(** [translate_stmt], with the depth of the recursion bounded by [fuel]. *)
Fixpoint translate_stmt (defs exposed_uses : list ast.stmt → gset string)
    (fuel : nat) (node : ast.stmt) : M unit :=
  match fuel with
  | 0 => raise OutOfFuel
  | S fuel =>
      translate_stmt_body defs exposed_uses (translate_expr fuel)
        (translate_stmt defs exposed_uses fuel) node
  end.

(** ** Inputs used in the examples *)

Definition T_single : FormalParameter :=
  {| type_str := "T"; fp_option := Single; is_homogeneous := true |}.
Definition T_variadic : FormalParameter :=
  {| type_str := "T"; fp_option := Variadic; is_homogeneous := true |}.
Definition tensor_f32 : pyobject := PyTensor np_float32 [] [PyFloat 1].
Definition tensor_i64 : pyobject := PyTensor np_int64 [] [PyInt 2].

(** ** Emitted value names and the frame of a translation step *)

(** The value names a node emits: its outputs and, for a control node,
    the names emitted inside its subgraphs. *)
Fixpoint node_names (s : IRStmt) : list string :=
  match s with
  | mkIRStmt result _ _ attrs => result ++ concat (map attr_names attrs)
  end
with attr_names (a : IRAttributeValue) : list string :=
  match a with
  | AttrGraph _ g => fn_names g
  | _ => []
  end
with fn_names (f : IRFunction) : list string :=
  match f with
  | mkIRFunction _ _ _ stmts => concat (map node_names stmts)
  end.

Definition nodes_names (nodes : list IRStmt) : list string :=
  concat (map node_names nodes).

(** The names [ns] are pairwise distinct, were unused in state [st] and
    are in use in state [st']. *)
Definition fresh_names (st st' : Converter) (ns : list string) : Prop :=
  NoDup ns ∧ ∀ n, n ∈ ns → n ∉ _used_vars st ∧ n ∈ _used_vars st'.

(** The name is bound to a graph value. *)
Definition is_Dynamic (v : option Value) : Prop :=
  ∃ value kind typeinfo, v = Some (Dynamic value kind typeinfo).

(** What a translation step may change: it appends nodes to the function
    under construction, binds names in the innermost scope to graph
    values and takes fresh names from the generator.  With [strict] the
    declared inputs and outputs of the function under construction are
    unchanged too.

    [P] is a set of names that the generator handed out before the step
    and that no node defines yet, [Q] is that set after the step.  The
    names the appended nodes define (in nested subgraphs too) are
    pairwise distinct, and each of them is either taken from the
    generator during the step or a name of [P] that is no longer in
    [Q]. *)
Record ExtP (strict : bool) (P Q : gset string) (st st' : Converter) : Prop := {
  ext_opset : default_opset_ st' = default_opset_ st;
  ext_globals : globals st' = globals st;
  ext_outer : _outer st' = _outer st;
  ext_fn_name : fn_name (_current_fn st') = fn_name (_current_fn st);
  ext_io : strict = true →
           fn_inputs (_current_fn st') = fn_inputs (_current_fn st) ∧
           fn_outputs (_current_fn st') = fn_outputs (_current_fn st);
  ext_locals : tail (_locals st') = tail (_locals st) ∧
               length (_locals st') = length (_locals st);
  ext_dynamic : ∀ scope x, head (_locals st) = Some scope →
                is_Dynamic (scope !! x) →
                ∃ scope', head (_locals st') = Some scope' ∧
                          is_Dynamic (scope' !! x);
  ext_used : _used_vars st ⊆ _used_vars st';
  ext_nextvar : _nextvar st ≤ _nextvar st';
  ext_pending : ∀ n, n ∈ Q → n ∈ P ∨ n ∉ _used_vars st;
  ext_stmts : P ⊆ _used_vars st →
              Q ⊆ _used_vars st' ∧
              ∃ new, stmts (_current_fn st') = stmts (_current_fn st) ++ new ∧
                     NoDup (nodes_names new) ∧
                     ∀ n, n ∈ nodes_names new →
                          n ∈ _used_vars st' ∧ n ∉ Q ∧
                          (n ∉ _used_vars st ∨ n ∈ P)
}.

(** A step all of whose node names are taken from the generator during
    the step. *)
Definition Ext (strict : bool) (st st' : Converter) : Prop :=
  ExtP strict ∅ ∅ st st'.

(** The nodes a step appended to the function under construction. *)
Definition new_nodes (st st' : Converter) : list IRStmt :=
  drop (length (stmts (_current_fn st))) (stmts (_current_fn st')).

(** The number of nodes with the given operator name. *)
Definition count_op (name : string) (nodes : list IRStmt) : nat :=
  length (filter (λ n, opname (callee n) = name) nodes).

(** ** The decisions of the static specialization, as the specification
    words them *)

(** The argument is a compile-time constant and its type variable
    received a binding in the first pass. *)
Definition needs_cast (type_bindings : gmap string ConverterExpression)
    (xt : ConverterExpression * option string) : Prop :=
  is_const (fst xt) = true ∧ is_Some (bindings_get type_bindings (snd xt)).

Global Instance needs_cast_dec type_bindings xt : Decision (needs_cast type_bindings xt).
Proof. unfold needs_cast. apply _. Defined.


(** The labelled arguments and the bindings the first pass computes for
    a call; without a schema no argument has a label. *)
Definition first_pass (op_schema : option OpSchema) (args : list ConverterExpression)
    : Result (gmap string ConverterExpression * list (ConverterExpression * option string)) :=
  match op_schema with
  | Some op_schema =>
      bind_typevars static_get_type_info (inputs op_schema) 0 args ∅ []
  | None => Ok (∅, map (λ x, (x, None)) args)
  end.

(** A call result carries no subgraph attribute. *)
Definition plain_result (res : expr_result) : Prop :=
  match res with
  | RCall _ _ attrs => concat (map attr_names attrs) = []
  | _ => True
  end.

(** The nodes of the function under construction define pairwise
    distinct names, all of them known to the generator. *)
Definition well_named (st : Converter) : Prop :=
  NoDup (nodes_names (stmts (_current_fn st))) ∧
  ∀ n, n ∈ nodes_names (stmts (_current_fn st)) → n ∈ _used_vars st.

(** ** A translation state and programs used in the examples *)

Definition example_opset : Opset :=
  {| domain := EmptyString; version := 15;
     schemas := {[ "Add" := {| inputs := [T_single; T_single] |};
                   "Sub" := {| inputs := [T_single; T_single] |} ]} |}.

(** The state at the start of the body of a function with the inputs
    [A], [c], [I] and [J]. *)
Definition example_state : Converter :=
  mkConverter (Some example_opset) ∅ [] (new_function "f") 0
    {["A"; "c"; "I"; "J"]}
    [ {[ "A" := Dynamic "A" Input None; "c" := Dynamic "c" Input None;
         "I" := Dynamic "I" Input None; "J" := Dynamic "J" Input None ]} ].

(** Modelled from the spec: the liveness oracle maps statements to the
    names they assign; the statements of the examples assign [x] only,
    and read no name before they assign it. *)
Definition example_defs (l : list ast.stmt) : gset string := {["x"]}.
Definition example_exposed_uses (l : list ast.stmt) : gset string := ∅.

(** [if c: x = A + 1 else: x = A - 1], with [x] and [A] live
    afterwards. *)
Definition example_if : ast.stmt :=
  ast.If (ast.Name "c")
    [ast.Assign "x" (ast.BinOp (ast.Name "A") ast.Add (ast.Constant (PyInt 1)))]
    [ast.Assign "x" (ast.BinOp (ast.Name "A") ast.Sub (ast.Constant (PyInt 1)))]
    (Some {["x"; "A"]}).

(** The state in which a run ends; the state of the examples stands in
    for a run that raises. *)
Definition state_of {A} (r : Result (A * Converter)) : Converter :=
  match r with Ok (_, c) => c | Raise _ => example_state end.

(** [x = A + 1], the "then" block of [example_if]. *)
Definition example_body : list ast.stmt :=
  [ast.Assign "x" (ast.BinOp (ast.Name "A") ast.Add (ast.Constant (PyInt 1)))].

(** The subgraph a run returns; the empty function stands in for a run
    that raises. *)
Definition graph_of (r : Result (IRFunction * Converter)) : IRFunction :=
  match r with Ok (g, _) => g | Raise _ => new_function EmptyString end.

(** The step from [st] to [st'] appended exactly the nodes [new] to the
    function under construction; the scopes, the module-level names and
    the default opset are as before. *)
Definition emitted (new : list IRStmt) (st st' : Converter) : Prop :=
  default_opset_ st' = default_opset_ st ∧ _locals st' = _locals st ∧
  globals st' = globals st ∧
  stmts (_current_fn st') = stmts (_current_fn st) ++ new.

(** The node applies the operator of the given name. *)
Definition is_op (name : string) (n : IRStmt) : Prop :=
  opname (callee n) = name.




(** * Properties *)

(** ** The state-and-error monad *)

Lemma bind_Ok {S A B} (m : SE S A) (k : A → SE S B) s b s' :
  bind m k s = Ok (b, s') ↔ ∃ a s1, m s = Ok (a, s1) ∧ k a s1 = Ok (b, s').
Proof.
  unfold bind. split.
  - destruct (m s) as [[a s1]|e]; [|done]. intros H. by exists a, s1.
  - intros (a & s1 & -> & H). done.
Qed.


(** ** Literal promotion (autocast.py) *)

Lemma issubclass_refl t : issubclass t t = true.
Proof. unfold issubclass. by rewrite bool_decide_eq_true_2. Qed.

Lemma homogeneous_isinstance e0 l :
  homogeneous (e0 :: l) = true →
  forallb (λ e, isinstance e (py_type e0)) (e0 :: l) = true.
Proof.
  unfold homogeneous. rewrite !forallb_forall. intros H e He.
  specialize (H e He). apply bool_decide_eq_true_1 in H.
  unfold isinstance. rewrite H. apply issubclass_refl.
Qed.

Lemma scalar_literal_promoted v :
  scalar_literal v = true → ∃ t, promoted_scalar_type v = Some t.
Proof. destruct v; try done; simpl; eauto. Qed.

Lemma np_flat_scalars l :
  forallb scalar_literal l = true → concat (map np_flat l) = l.
Proof.
  induction l as [|e l IH]; [done|]. simpl.
  intros [He Hl]%andb_true_iff. rewrite (IH Hl). by destruct e.
Qed.

Lemma rectangular_scalars e0 l :
  forallb scalar_literal (e0 :: l) = true → rectangular (PyList (e0 :: l)) = true.
Proof.
  intros H. change (rectangular (PyList (e0 :: l)))
    with (forallb (λ e, rectangular e && bool_decide (np_shape e = np_shape e0))
            (e0 :: l)).
  assert (np_shape e0 = []) as ->.
  { simpl in H. apply andb_true_iff in H as [H _]. by destruct e0. }
  apply forallb_forall. intros e He.
  rewrite forallb_forall in H. specialize (H e He). by destruct e.
Qed.

Lemma np_fits_homogeneous d e0 l :
  _get_dtype e0 = Ok d → scalar_literal e0 = true →
  homogeneous (e0 :: l) = true → forallb int64_value (e0 :: l) = true →
  forallb (np_fits d) (e0 :: l) = true.
Proof.
  unfold homogeneous. rewrite !forallb_forall. intros Hd H0 Hh Hi e He.
  specialize (Hh e He). apply bool_decide_eq_true_1 in Hh.
  specialize (Hi e He).
  destruct e0; try done; destruct e; try done; by simplify_eq/=.
Qed.

(** C2: for every literal bool, int, float or homogeneous non-empty list
    of such, the static conversion ([pyvalue_to_onnx_tensor], through
    [_py_type_to_onnx_type]) and the dynamic conversion
    ([cast_pyvalue_to_os_tensor], through [_get_dtype]) choose the
    element type of the promotion rule: bool to BOOL, int to INT64,
    float to FLOAT (32-bit), a list to its first element's type.  Every
    tensor either conversion returns has that element type, and rank 0
    for a scalar, rank 1 for a list; both conversions return one when no
    integer of the literal lies outside the signed 64-bit range. *)
Theorem literal_promotion_agrees (tensor_name : string) (v : pyobject) :
  promoted_literal v = true →
  ∃ ty rank d,
    promoted_type v = Some (ty, rank) ∧
    _py_type_to_onnx_type (literal_pytype v) = Ok ty ∧
    _get_dtype v = Ok d ∧ np_dtype_to_tensor_dtype d = ty ∧
    (∀ t, pyvalue_to_onnx_tensor tensor_name v = Ok t →
          data_type t = ty ∧ length (dims t) = rank) ∧
    (∀ r, cast_pyvalue_to_os_tensor v None = Ok r →
          ∃ shape flat, r = PyTensor d shape flat ∧ length shape = rank) ∧
    (int64_literal v = true →
     (∃ t, pyvalue_to_onnx_tensor tensor_name v = Ok t) ∧
     (∃ r, cast_pyvalue_to_os_tensor v None = Ok r)).
Proof.
  unfold promoted_literal. intros H. apply orb_true_iff in H as [H|H].
  - destruct v as [|b|z|q| | | | |]; try done.
    + exists BOOL, 0, np_bool_. do 4 (split; [done|]). split; [|split].
      * by intros t [= <-].
      * intros r [= <-]. by eexists _, _.
      * intros _. split; by eexists.
    + exists INT64, 0, np_int64. do 4 (split; [done|]).
      unfold int64_literal, pyvalue_to_onnx_tensor, cast_pyvalue_to_os_tensor,
        Tensor_of_array, make_tensor. simpl.
      destruct (in_int64 z); simpl; split; [|split| |split]; try done.
      * by intros t [= <-].
      * intros r [= <-]. by eexists _, _.
      * intros _. split; by eexists.
    + exists FLOAT, 0, np_float32. do 4 (split; [done|]). split; [|split].
      * by intros t [= <-].
      * intros r [= <-]. by eexists _, _.
      * intros _. split; by eexists.
  - destruct v as [| | | | |l| | |]; try done.
    apply andb_true_iff in H as [H Hh]. apply andb_true_iff in H as [Hne Hs].
    destruct l as [|e0 l]; [done|].
    pose proof (homogeneous_isinstance _ _ Hh) as Hi.
    pose proof (np_flat_scalars _ Hs) as Hflat.
    pose proof (rectangular_scalars _ _ Hs) as Hrect.
    assert (scalar_literal e0 = true) as H0.
    { simpl in Hs. by apply andb_true_iff in Hs as [? _]. }
    assert (∃ ty d, promoted_scalar_type e0 = Some ty ∧
                    _py_type_to_onnx_type (py_type e0) = Ok ty ∧
                    _get_dtype e0 = Ok d ∧ np_dtype_to_tensor_dtype d = ty)
      as (ty & d & Hty & Hst & Hd & Hdt).
    { destruct e0; try done; simpl; eauto 10. }
    exists ty, 1, d.
    assert (∀ t, pyvalue_to_onnx_tensor tensor_name (PyList (e0 :: l)) = Ok t →
                 data_type t = ty ∧ length (dims t) = 1) as Hstatic.
    { intros t. unfold pyvalue_to_onnx_tensor. rewrite Hi, Hst. simpl negb.
      cbv iota. unfold make_tensor.
      destruct ty; try (by intros [= <-]).
      - destruct (existsb _ _); [done|]. by intros [= <-].
      - destruct (forallb int64_value (e0 :: l)); [|done]. by intros [= <-]. }
    assert (∀ r, cast_pyvalue_to_os_tensor (PyList (e0 :: l)) None = Ok r →
                 ∃ shape flat, r = PyTensor d shape flat ∧ length shape = 1)
      as Hdynamic.
    { intros r. unfold cast_pyvalue_to_os_tensor.
      change (_promotable (PyList (e0 :: l))) with (_promotable e0).
      change (_get_dtype (PyList (e0 :: l))) with (_get_dtype e0).
      rewrite Hd. assert (_promotable e0 = true) as -> by (by destruct e0).
      unfold Tensor_of_array. rewrite Hrect. simpl negb. cbv iota.
      destruct (negb _); [done|]. intros [= <-]. eexists _, _. split; [done|].
      change (np_shape (PyList (e0 :: l))) with (length (e0 :: l) :: np_shape e0).
      by destruct e0. }
    split; [by simpl; rewrite Hty|]. split; [done|]. split; [done|].
    split; [done|]. split; [done|]. split; [done|].
    unfold int64_literal. change (np_flat (PyList (e0 :: l)))
      with (concat (map np_flat (e0 :: l))). rewrite Hflat. intros Hr. split.
    + unfold pyvalue_to_onnx_tensor. rewrite Hi, Hst. simpl negb. cbv iota.
      unfold make_tensor. rewrite Hr.
      destruct e0; try done; simplify_eq/=; by eexists.
    + unfold cast_pyvalue_to_os_tensor.
      change (_promotable (PyList (e0 :: l))) with (_promotable e0).
      change (_get_dtype (PyList (e0 :: l))) with (_get_dtype e0).
      rewrite Hd. assert (_promotable e0 = true) as -> by (by destruct e0).
      unfold Tensor_of_array. rewrite Hrect. change (negb true) with false.
      cbv iota.
      change (np_flat (PyList (e0 :: l))) with (concat (map np_flat (e0 :: l))).
      rewrite Hflat, (np_fits_homogeneous d e0 l Hd H0 Hh Hr). by eexists.
Qed.

Lemma literal_promotion_agrees_witness :
  promoted_literal (PyList [PyInt 1; PyInt 2]) = true ∧
  ∃ ty rank d,
    promoted_type (PyList [PyInt 1; PyInt 2]) = Some (ty, rank) ∧
    _py_type_to_onnx_type (literal_pytype (PyList [PyInt 1; PyInt 2])) = Ok ty ∧
    _get_dtype (PyList [PyInt 1; PyInt 2]) = Ok d ∧
    np_dtype_to_tensor_dtype d = ty ∧
    (∀ t, pyvalue_to_onnx_tensor "c" (PyList [PyInt 1; PyInt 2]) = Ok t →
          data_type t = ty ∧ length (dims t) = rank) ∧
    (∀ r, cast_pyvalue_to_os_tensor (PyList [PyInt 1; PyInt 2]) None = Ok r →
          ∃ shape flat, r = PyTensor d shape flat ∧ length shape = rank) ∧
    (int64_literal (PyList [PyInt 1; PyInt 2]) = true →
     (∃ t, pyvalue_to_onnx_tensor "c" (PyList [PyInt 1; PyInt 2]) = Ok t) ∧
     (∃ r, cast_pyvalue_to_os_tensor (PyList [PyInt 1; PyInt 2]) None = Ok r)).
Proof.
  split; [reflexivity|].
  apply (literal_promotion_agrees "c" (PyList [PyInt 1; PyInt 2])). reflexivity.
Defined.

(** An integer outside the signed 64-bit range is refused by both
    conversions. *)
Example literal_out_of_range :
  pyvalue_to_onnx_tensor "c" (PyInt (2 ^ 63))
  = Raise (ValueError "Value out of range: {value}") ∧
  cast_pyvalue_to_os_tensor (PyInt (2 ^ 63)) None
  = Raise (OverflowError "Python int too large to convert").
Proof. split; reflexivity. Qed.

(** The claim that both conversions reject an empty list fails on the
    dynamic one: [_promotable] is false on the empty list, so
    [cast_pyvalue_to_os_tensor] hands it back. *)
Lemma dynamic_empty_list_not_rejected :
  cast_pyvalue_to_os_tensor (PyList []) None = Ok (PyList []) ∧
  ¬ ∃ e, cast_pyvalue_to_os_tensor (PyList []) None = Raise e.
Proof. split; [reflexivity|]. intros [e H]. discriminate H. Qed.

(** The dynamic conversion of a list looks at the first element only. *)
Example dynamic_mixed_list :
  cast_pyvalue_to_os_tensor (PyList [PyInt 1; PyFloat 2]) None
  = Ok (PyTensor np_int64 [2] [PyInt 1; PyFloat 2]).
Proof. reflexivity. Qed.

(** A [bool] after an [int] is an instance of the first element's class. *)
Example static_int_then_bool :
  pyvalue_to_onnx_tensor "c" (PyList [PyInt 1; PyBool true])
  = Ok (mkTensorProto "c" INT64 [2] (Vals [PyInt 1; PyBool true])).
Proof. reflexivity. Qed.

(** C3 (amended): the static literal-to-tensor conversion fails with a
    [ValueError] on an empty list (the empty-list error) and on a list
    with an element that is not an instance of the first element's class
    (the type-mismatch error); the dynamic literal-to-value conversion
    does not fail on an empty list, it returns it unchanged. *)
Theorem static_rejects_bad_lists (tensor_name : string) :
  pyvalue_to_onnx_tensor tensor_name (PyList [])
    = Raise (ValueError "Cannot convert an empty list to tensor") ∧
  (∀ e0 l e,
     e ∈ e0 :: l → isinstance e (py_type e0) = false →
     pyvalue_to_onnx_tensor tensor_name (PyList (e0 :: l))
     = Raise (ValueError
         "Cannot convert an list with elements of different types to tensor")) ∧
  (∀ dtype, cast_pyvalue_to_os_tensor (PyList []) dtype = Ok (PyList [])).
Proof.
  split; [reflexivity|]. split; [|reflexivity].
  intros e0 l e He Hi. unfold pyvalue_to_onnx_tensor.
  assert (forallb (λ e, isinstance e (py_type e0)) (e0 :: l) = false) as ->; [|done].
  apply not_true_is_false. rewrite forallb_forall. intros H.
  apply list_elem_of_In in He. specialize (H e He). congruence.
Qed.

Lemma static_rejects_bad_lists_witness :
  (PyFloat 2 ∈ [PyInt 1; PyFloat 2] ∧
   isinstance (PyFloat 2) (py_type (PyInt 1)) = false) ∧
  pyvalue_to_onnx_tensor "c" (PyList [PyInt 1; PyFloat 2])
  = Raise (ValueError
      "Cannot convert an list with elements of different types to tensor").
Proof.
  assert (PyFloat 2 ∈ [PyInt 1; PyFloat 2]) as H by (right; left).
  split; [split; [exact H | reflexivity]|].
  exact (proj1 (proj2 (static_rejects_bad_lists "c")) _ _ _ H eq_refl).
Defined.

(** [_promotable] decides the promotable literals. *)
Fixpoint _promotable_spec (x : pyobject) :
  _promotable x = true ↔ promotable_literal x.
Proof.
  destruct x as [| | | | |l| | |]; simpl;
    try (split; [discriminate | by inversion 1]);
    try (split; [constructor | done]).
  destruct l as [|x0 l].
  - split; [discriminate | by inversion 1].
  - rewrite _promotable_spec. split; [by constructor | by inversion 1].
Qed.

(** C10: every value that is not a promotable literal (not a bool, int
    or float, nor a non-empty list whose first element is promotable) is
    returned unchanged and without error by [cast_pyvalue_to_os_tensor],
    whatever the requested dtype; strings, tensors, [None] and the empty
    list are such values. *)
Theorem cast_pyvalue_unpromotable (v : pyobject) (dtype : option np_dtype) :
  ¬ promotable_literal v →
  cast_pyvalue_to_os_tensor v dtype = Ok v ∧
  (∀ s, ¬ promotable_literal (PyStr s)) ∧
  (∀ d shape flat, ¬ promotable_literal (PyTensor d shape flat)) ∧
  ¬ promotable_literal PyNone ∧
  ¬ promotable_literal (PyList []).
Proof.
  intros H. split.
  - unfold cast_pyvalue_to_os_tensor.
    destruct (_promotable v) eqn:E; [|done].
    by apply _promotable_spec in E.
  - repeat split; intros; inversion 1.
Qed.

Lemma cast_pyvalue_unpromotable_witness :
  ¬ promotable_literal (PyStr "abc") ∧
  cast_pyvalue_to_os_tensor (PyStr "abc") (Some np_float32) = Ok (PyStr "abc").
Proof.
  assert (¬ promotable_literal (PyStr "abc")) as H by (inversion 1).
  split; [exact H|].
  exact (proj1 (cast_pyvalue_unpromotable (PyStr "abc") (Some np_float32) H)).
Defined.

(** ** The binding pass of [cast_inputs] *)

Section bind_typevars_facts.
Context {A TI : Type}.
Variable get_type_info : A → option TI.
Variable expected_inputs : list FormalParameter.


(** One iteration of the loop adds the label of the argument, and
    overwrites the binding of its type variable when the inspector
    knows the argument's type. *)
Lemma bind_typevars_Ok (args : list A) :
  ∀ i tb atv tb' atv',
    bind_typevars get_type_info expected_inputs i args tb atv = Ok (tb', atv') →
    atv' = atv ++ imap (λ j x, (x, label_of expected_inputs (i + j))) args ∧
    ∀ T, tb' !! T =
         match last (known_types get_type_info expected_inputs T i args) with
         | Some ti => Some ti
         | None => tb !! T
         end.
Proof.
  induction args as [|x args IH]; intros i tb atv tb' atv'; simpl.
  - intros [= -> ->]. split; [by rewrite app_nil_r|done].
  - assert (∀ expected tb0,
      label_of expected_inputs i = Some (type_str expected) →
      tb0 = (if negb (char_in lparen (type_str expected))
             then match get_type_info x with
                  | Some typeinfo => <[type_str expected:=typeinfo]> tb
                  | None => tb
                  end
             else tb) →
      bind_typevars get_type_info expected_inputs (S i) args tb0
        (atv ++ [(x, Some (type_str expected))]) = Ok (tb', atv') →
      atv' = atv ++ (x, label_of expected_inputs (i + 0))
               :: imap ((λ j x0, (x0, label_of expected_inputs (i + j))) ∘ S) args ∧
      ∀ T, tb' !! T =
        match last ((if bool_decide (label_of expected_inputs i = Some T)
                        && is_typevar T
                     then option_list (get_type_info x) else [])
                    ++ known_types get_type_info expected_inputs T (S i) args) with
        | Some ti => Some ti
        | None => tb !! T
        end) as Huse.
    { intros expected tb0 Hlab -> H. apply IH in H as [-> H]. split.
      - rewrite <- app_assoc, Nat.add_0_r, Hlab. simpl. do 2 f_equal.
        apply imap_ext. intros j y _. simpl. f_equal. f_equal. lia.
      - intros T. rewrite H, last_app.
        destruct (last (known_types _ _ T (S i) args)) as [ti|]; [done|].
        rewrite Hlab. unfold is_typevar.
        destruct (decide (type_str expected = T)) as [<-|Hne].
        + rewrite bool_decide_eq_true_2 by done. simpl.
          destruct (negb (char_in lparen (type_str expected))); [|done].
          destruct (get_type_info x); simpl; [|done].
          by rewrite lookup_insert_eq.
        + rewrite bool_decide_eq_false_2 by congruence. simpl.
          destruct (negb (char_in lparen (type_str expected))); [|done].
          destruct (get_type_info x); simpl; [|done].
          by rewrite lookup_insert_ne. }
    destruct (expected_inputs !! i) as [expected|] eqn:Hi.
    + apply Huse; [|done]. unfold label_of. by rewrite Hi.
    + destruct (last expected_inputs) as [expected|] eqn:Hl; [|done].
      destruct (bool_decide (fp_option expected = Variadic)) eqn:Hv; [|done].
      destruct (is_homogeneous expected) eqn:Hh; simpl.
      * apply Huse; [|done]. unfold label_of. by rewrite Hi, Hl, Hv, Hh.
      * intros H. apply IH in H as [-> H].
        assert (label_of expected_inputs i = None) as Hlab.
        { unfold label_of. by rewrite Hi, Hl, Hv, Hh. }
        split.
        -- rewrite <- app_assoc, Nat.add_0_r, Hlab. simpl. do 2 f_equal.
           apply imap_ext. intros j y _. simpl. f_equal. f_equal. lia.
        -- intros T. rewrite H, Hlab. by rewrite bool_decide_eq_false_2.
Qed.



(** When the arguments do not outnumber the formal parameters the loop
    never fails either. *)
Lemma bind_typevars_fits (args : list A) :
  ∀ i tb atv, i + length args ≤ length expected_inputs →
    ∃ tb' atv',
      bind_typevars get_type_info expected_inputs i args tb atv = Ok (tb', atv').
Proof.
  induction args as [|x args IH]; intros i tb atv Hlen; simpl in *.
  - eauto.
  - destruct (lookup_lt_is_Some_2 expected_inputs i) as [e ->]; [lia|].
    apply IH. lia.
Qed.
End bind_typevars_facts.


(** C1 (amended): in the shared two-pass algorithm, for every operator
    schema and argument list, each type variable is bound to the concrete
    type of the LAST argument labelled with that variable whose type the
    inspector can determine (last writer wins: a later argument with a
    knowable type overwrites the binding); the second pass casts every
    argument with the binding of its label. *)
Theorem binding_last_writer_wins {S A TI B} (get_type_info : A → option TI)
    (cast : A → option TI → SE S B) (op_schema : OpSchema) (args : list A)
    (tb : gmap string TI) (atv : list (A * option string)) :
  bind_typevars get_type_info (inputs op_schema) 0 args ∅ [] = Ok (tb, atv) →
  (∀ T, tb !! T = last (known_types get_type_info (inputs op_schema) T 0 args)) ∧
  atv = imap (λ i x, (x, label_of (inputs op_schema) i)) args ∧
  cast_inputs get_type_info cast (Some op_schema) args
  = mapM (λ xt, cast (fst xt) (bindings_get tb (snd xt))) atv.
Proof.
  intros H. unfold cast_inputs. rewrite H.
  apply bind_typevars_Ok in H as [-> H]. split; [|done].
  intros T. rewrite H, lookup_empty. by destruct (last _).
Qed.

Lemma binding_last_writer_wins_witness :
  bind_typevars dynamic_get_type_info [T_single; T_single] 0
    [tensor_f32; tensor_i64] ∅ []
  = Ok ({["T" := np_int64]},
        [(tensor_f32, Some "T"); (tensor_i64, Some "T")]) ∧
  ({["T" := np_int64]} : gmap string np_dtype) !! "T"
  = last (known_types dynamic_get_type_info [T_single; T_single] "T" 0
            [tensor_f32; tensor_i64]).
Proof.
  assert (bind_typevars dynamic_get_type_info [T_single; T_single] 0
            [tensor_f32; tensor_i64] ∅ []
          = Ok ({["T" := np_int64]},
                [(tensor_f32, Some "T"); (tensor_i64, Some "T")])) as H.
  { vm_compute. reflexivity. }
  split; [exact H|].
  exact (proj1 (binding_last_writer_wins dynamic_get_type_info
                  (λ x t, lift (S:=unit) (cast_pyvalue_to_os_tensor x t))
                  {| inputs := [T_single; T_single] |} _ _ _ H) "T").
Defined.

(** The first argument of known type does not keep the binding: in
    [Sum(x, y, 1)] with [x] a 32-bit float tensor and [y] a 64-bit integer
    tensor, the literal is cast to the type of [y]. *)
Lemma binding_not_first_writer :
  (∃ tb atv,
     bind_typevars dynamic_get_type_info [T_single; T_single] 0
       [tensor_f32; tensor_i64] ∅ [] = Ok (tb, atv) ∧
     head (known_types dynamic_get_type_info [T_single; T_single] "T" 0
             [tensor_f32; tensor_i64]) = Some np_float32 ∧
     tb !! "T" = Some np_int64) ∧
  dynamic_cast_inputs (Some {| inputs := [T_variadic] |})
    [tensor_f32; tensor_i64; PyInt 1] tt
  = Ok ([tensor_f32; tensor_i64; PyTensor np_int64 [] [PyInt 1]], tt).
Proof.
  split; [|vm_compute; reflexivity].
  eexists _, _. split; [vm_compute; reflexivity|]. split; reflexivity.
Qed.

(** ** The unique-name generator *)

Lemma candidate_suffix_ne (candidate : string) (k : nat) :
  candidate +:+ "_" +:+ pretty k ≠ candidate.
Proof.
  induction candidate as [|a candidate IH]; simpl; [done|].
  intros [= H]. by apply IH.
Qed.

Lemma candidate_suffix_inj (candidate : string) (k n : nat) :
  candidate +:+ "_" +:+ pretty k = candidate +:+ "_" +:+ pretty n → k = n.
Proof.
  intros H. apply String.app_inj in H. injection H as H.
  by apply pretty_nat_inj in H.
Qed.

Lemma generate_unique_name_loop_fresh fuel candidate used :
  ∀ r n r' n',
    generate_unique_name_loop fuel candidate used r n = Some (r', n') →
    r' ∉ used ∧ n ≤ n'.
Proof.
  induction fuel as [|fuel IH]; intros r n r' n'; simpl;
    case_bool_decide as Hr; try done.
  - intros [= <- <-]. done.
  - intros H. apply IH in H as [? ?]. split; [done|lia].
  - intros [= <- <-]. done.
Qed.

(** The loop stops before its fuel runs out: every name it has tried is a
    different member of [used]. *)
Lemma generate_unique_name_loop_total fuel candidate (used : gset string) :
  ∀ r n (tried : gset string),
    tried ⊆ used → r ∉ tried →
    (∀ k, n ≤ k → candidate +:+ "_" +:+ pretty k ∉ tried) →
    (∀ k, n ≤ k → candidate +:+ "_" +:+ pretty k ≠ r) →
    size used < fuel + size tried →
    is_Some (generate_unique_name_loop fuel candidate used r n).
Proof.
  induction fuel as [|fuel IH]; intros r n tried Hsub Hr Hfut Hne Hsize; simpl;
    case_bool_decide as Hin; try done.
  - exfalso.
    assert (size ({[r]} ∪ tried) ≤ size used) as Hle.
    { apply subseteq_size. set_solver. }
    rewrite size_union, size_singleton in Hle by set_solver. lia.
  - apply (IH _ _ ({[r]} ∪ tried)).
    + set_solver.
    + apply not_elem_of_union. split.
      * rewrite elem_of_singleton. by apply Hne.
      * by apply Hfut.
    + intros k Hk. apply not_elem_of_union. split.
      * rewrite elem_of_singleton. apply Hne. lia.
      * apply Hfut. lia.
    + intros k Hk H. apply candidate_suffix_inj in H. lia.
    + rewrite size_union, size_singleton by set_solver. lia.
Qed.

Lemma generate_unique_name_Ok (candidate : string) (st : Converter) :
  ∃ r n,
    generate_unique_name candidate st
    = Ok (r, set_names n ({[r]} ∪ _used_vars st) st) ∧
    r ∉ _used_vars st ∧ _nextvar st ≤ n.
Proof.
  unfold generate_unique_name, bind, get.
  destruct (generate_unique_name_loop_total (S (size (_used_vars st))) candidate
              (_used_vars st) candidate (_nextvar st) ∅) as [[r n] H].
  - set_solver.
  - set_solver.
  - set_solver.
  - intros k _. apply candidate_suffix_ne.
  - rewrite size_empty. lia.
  - rewrite H. exists r, n. split; [done|].
    by apply generate_unique_name_loop_fresh in H.
Qed.

Lemma generate_unique_name_inv (candidate : string) (st : Converter) r st' :
  generate_unique_name candidate st = Ok (r, st') →
  r ∉ _used_vars st ∧
  ∃ n, _nextvar st ≤ n ∧ st' = set_names n ({[r]} ∪ _used_vars st) st.
Proof.
  destruct (generate_unique_name_Ok candidate st) as (r0 & n & -> & Hr & Hn).
  intros [= <- <-]. eauto.
Qed.

Lemma generate_unique_name_unused (candidate : string) (st : Converter) :
  candidate ∉ _used_vars st →
  generate_unique_name candidate st
  = Ok (candidate, set_names (_nextvar st) ({[candidate]} ∪ _used_vars st) st).
Proof.
  intros H. unfold generate_unique_name, bind, get. simpl.
  by rewrite bool_decide_eq_false_2.
Qed.

(** ** Inversion of monadic computations *)

Lemma ret_Ok {S A} (a b : A) (s s' : S) : ret a s = Ok (b, s') ↔ a = b ∧ s = s'.
Proof. unfold ret. split; [by intros [= -> ->] | by intros [-> ->]]. Qed.

Lemma modify_Ok {S} (f : S → S) (u : unit) (s s' : S) :
  modify f s = Ok (u, s') ↔ s' = f s.
Proof. unfold modify. destruct u. split; [by intros [= <-] | by intros ->]. Qed.

Lemma get_Ok {S} (a s s' : S) : get s = Ok (a, s') ↔ a = s ∧ s' = s.
Proof. unfold get. split; [by intros [= <- <-] | by intros [-> ->]]. Qed.

Lemma lift_Ok {S A} (r : Result A) (a : A) (s s' : S) :
  lift r s = Ok (a, s') ↔ r = Ok a ∧ s' = s.
Proof.
  unfold lift. destruct r; split; try by intros [= <- <-].
  - by intros [[= ->] ->].
  - by intros [[=] _].
Qed.

(** Decompose a hypothesis [m st = Ok (a, st')] along the structure of
    the computation [m]. *)
Ltac monad_prim H :=
  lazymatch type of H with
  | ret _ _ = Ok _ => apply ret_Ok in H as [? ?]; subst
  | raise _ _ = Ok _ => discriminate H
  | fail _ _ = Ok _ => discriminate H
  | Raise _ = Ok _ => discriminate H
  | get _ = Ok _ => apply get_Ok in H as [? ?]; subst
  | modify _ _ = Ok _ => apply modify_Ok in H; subst
  end.

Ltac monad_inv1 H :=
  first
  [ monad_prim H
  | lazymatch type of H with
    | bind _ _ _ = Ok _ =>
        let a := fresh "a" in let s := fresh "st" in let H1 := fresh "Hm" in
        apply bind_Ok in H as (a & s & H1 & H); repeat monad_inv1 H1;
        repeat match goal with p : (_ * _)%type |- _ => destruct p end;
        cbn [fst snd] in *
    | Ok _ = Ok _ => injection H as ? ?; subst
    | (match ?x with _ => _ end) _ = Ok _ =>
        let E := fresh "E" in destruct x eqn:E; simpl in H
    | match ?x with _ => _ end = Ok _ =>
        let E := fresh "E" in destruct x eqn:E; simpl in H
    | (let '(_, _) := ?x in _) _ = Ok _ => destruct x; simpl in H
    end ].

Ltac monad_inv H := repeat monad_inv1 H.

(** ** The frame relation *)

Lemma fresh_names_nil st st' : fresh_names st st' [].
Proof. split; [constructor | by intros n Hn%elem_of_nil]. Qed.

Lemma fresh_names_app st1 st2 st3 ns1 ns2 :
  _used_vars st1 ⊆ _used_vars st2 → _used_vars st2 ⊆ _used_vars st3 →
  fresh_names st1 st2 ns1 → fresh_names st2 st3 ns2 →
  fresh_names st1 st3 (ns1 ++ ns2).
Proof.
  intros H12 H23 [Hd1 H1] [Hd2 H2]. split.
  - apply NoDup_app. split; [done|]. split; [|done].
    intros n Hn1 Hn2. destruct (H1 n Hn1) as [_ ?]. destruct (H2 n Hn2) as [? _].
    done.
  - intros n [Hn|Hn]%elem_of_app.
    + destruct (H1 n Hn). set_solver.
    + destruct (H2 n Hn). set_solver.
Qed.

Lemma fresh_names_weaken st1 st2 st3 st4 ns :
  _used_vars st1 ⊆ _used_vars st2 → _used_vars st3 ⊆ _used_vars st4 →
  fresh_names st2 st3 ns → fresh_names st1 st4 ns.
Proof.
  intros H12 H34 [Hd H]. split; [done|]. intros n Hn.
  destruct (H n Hn). set_solver.
Qed.

Lemma nodes_names_app l1 l2 : nodes_names (l1 ++ l2) = nodes_names l1 ++ nodes_names l2.
Proof. unfold nodes_names. by rewrite map_app, concat_app. Qed.

Lemma nodes_names_singleton n : nodes_names [n] = node_names n.
Proof. unfold nodes_names. simpl. by rewrite app_nil_r. Qed.

(** A step that leaves the function under construction and the scopes
    alone and only takes names from the generator. *)
Lemma ExtP_names_only strict P Q st st' :
  default_opset_ st' = default_opset_ st → globals st' = globals st →
  _outer st' = _outer st → _current_fn st' = _current_fn st →
  _locals st' = _locals st → _used_vars st ⊆ _used_vars st' →
  _nextvar st ≤ _nextvar st' →
  (∀ n, n ∈ Q → n ∈ _used_vars st' ∧ (n ∈ P ∨ n ∉ _used_vars st)) →
  ExtP strict P Q st st'.
Proof.
  intros Ho Hg Hu Hf Hl Hs Hn HQ. split; try done; try by rewrite ?Hf, ?Hl.
  - intros scope x Hsc Hd. exists scope. by rewrite Hl.
  - intros n Hn'. by apply HQ.
  - intros HP. split; [intros n Hn'; by apply HQ|].
    exists []. split; [by rewrite Hf, app_nil_r|]. split; [constructor|].
    by intros n Hn'%elem_of_nil.
Qed.

Lemma ExtP_refl strict P st : ExtP strict P P st st.
Proof.
  split; try done.
  - intros scope x Hsc Hd. by exists scope.
  - intros n Hn. by left.
  - intros HP. split; [done|]. exists []. split; [by rewrite app_nil_r|].
    split; [constructor|]. by intros n Hn%elem_of_nil.
Qed.

Lemma Ext_refl strict st : Ext strict st st.
Proof. apply ExtP_refl. Qed.

Lemma ExtP_trans strict P Q R st1 st2 st3 :
  ExtP strict P Q st1 st2 → ExtP strict Q R st2 st3 → ExtP strict P R st1 st3.
Proof.
  intros [Ho1 Hg1 Hu1 Hn1 Hio1 [Ht1 Hl1] Hd1 Hs1 Hv1 Hp1 Hst1]
         [Ho2 Hg2 Hu2 Hn2 Hio2 [Ht2 Hl2] Hd2 Hs2 Hv2 Hp2 Hst2].
  split; try congruence.
  - intros Hs. destruct (Hio1 Hs), (Hio2 Hs). split; congruence.
  - split; congruence.
  - intros scope x Hsc Hd. destruct (Hd1 scope x Hsc Hd) as (scope' & Hsc' & Hd').
    by apply (Hd2 scope' x).
  - set_solver.
  - lia.
  - intros n Hn. destruct (Hp2 n Hn) as [HQ|Hu]; [|right; set_solver].
    by apply Hp1.
  - intros HP. destruct (Hst1 HP) as (HQ & n1 & E1 & D1 & F1).
    destruct (Hst2 HQ) as (HR & n2 & E2 & D2 & F2). split; [done|].
    exists (n1 ++ n2). split; [by rewrite E2, E1, app_assoc|].
    rewrite nodes_names_app. split.
    + apply NoDup_app. split; [done|]. split; [|done].
      intros n Hin1 Hin2. destruct (F1 n Hin1) as (? & ? & _).
      destruct (F2 n Hin2) as (_ & _ & [?|?]); done.
    + intros n [Hn|Hn]%elem_of_app.
      * destruct (F1 n Hn) as (Hu & HnQ & Hor). split; [set_solver|].
        split; [|done]. intros HnR. destruct (Hp2 n HnR); done.
      * destruct (F2 n Hn) as (Hu & HnR & Hor). split; [done|]. split; [done|].
        destruct Hor as [Hor|Hor]; [left; set_solver|].
        destruct (Hp1 n Hor); [by right | by left].
Qed.

Lemma Ext_trans strict st1 st2 st3 :
  Ext strict st1 st2 → Ext strict st2 st3 → Ext strict st1 st3.
Proof. apply ExtP_trans. Qed.

(** Names that stay pending through a step. *)
Lemma ExtP_frame strict P Q F st st' :
  F ## P → ExtP strict P Q st st' → ExtP strict (P ∪ F) (Q ∪ F) st st'.
Proof.
  intros HF [Ho Hg Hu Hn Hio Hl Hd Hs Hv Hp Hst]. split; try done.
  - intros n [HQ|Hn']%elem_of_union; [|left; set_solver].
    destruct (Hp n HQ); [left; set_solver | by right].
  - intros HPF. destruct Hst as (HQ & new & E & D & Fr); [set_solver|].
    split; [set_solver|]. exists new. split; [done|]. split; [done|].
    intros n Hin. destruct (Fr n Hin) as (Hu' & HnQ & Hor). split; [done|]. split.
    + intros [?|HnF]%elem_of_union; [done|].
      destruct Hor as [Hor|Hor]; [set_solver | set_solver].
    + destruct Hor; [by left | right; set_solver].
Qed.

Lemma Ext_frame strict F st st' : Ext strict st st' → ExtP strict F F st st'.
Proof.
  intros H. apply (ExtP_frame _ _ _ F) in H; [|set_solver].
  by rewrite !(left_id_L ∅ (∪)) in H.
Qed.

(** Pending names may be forgotten: they are then never given to a node. *)
Lemma ExtP_forget strict P Q Q' st st' :
  Q' ⊆ Q → ExtP strict P Q st st' → ExtP strict P Q' st st'.
Proof.
  intros HQ' [Ho Hg Hu Hn Hio Hl Hd Hs Hv Hp Hst]. split; try done.
  - intros n Hn'. apply Hp. set_solver.
  - intros HP. destruct (Hst HP) as (HQ & new & E & D & Fr).
    split; [set_solver|]. exists new. split; [done|]. split; [done|].
    intros n Hin. destruct (Fr n Hin) as (Hu' & HnQ & Hor). set_solver.
Qed.

Lemma ExtP_more strict P P' Q st st' :
  P ⊆ P' → ExtP strict P Q st st' → ExtP strict P' Q st st'.
Proof.
  intros HP' [Ho Hg Hu Hn Hio Hl Hd Hs Hv Hp Hst]. split; try done.
  - intros n Hn'. destruct (Hp n Hn'); [left; set_solver | by right].
  - intros HP. destruct Hst as (HQ & new & E & D & Fr); [set_solver|].
    split; [done|]. exists new. split; [done|]. split; [done|].
    intros n Hin. destruct (Fr n Hin) as (Hu' & HnQ & Hor).
    split; [done|]. split; [done|]. destruct Hor; [by left | right; set_solver].
Qed.

Lemma ExtP_weaken P Q st st' : ExtP true P Q st st' → ExtP false P Q st st'.
Proof. intros []. by split. Qed.

Lemma ExtP_strict_of strict P Q st st' :
  ExtP true P Q st st' → ExtP strict P Q st st'.
Proof. destruct strict; [done | apply ExtP_weaken]. Qed.

Lemma Ext_strict_of strict st st' : Ext true st st' → Ext strict st st'.
Proof. apply ExtP_strict_of. Qed.

(** The nodes a step appended define fresh, pairwise distinct names. *)
Lemma Ext_fresh strict st st' :
  Ext strict st st' →
  ∃ new, stmts (_current_fn st') = stmts (_current_fn st) ++ new ∧
         fresh_names st st' (nodes_names new).
Proof.
  intros [_ _ _ _ _ _ _ _ _ _ Hst]. destruct Hst as (_ & new & E & D & Fr); [done|].
  exists new. split; [done|]. split; [done|]. intros n Hn.
  destruct (Fr n Hn) as (? & _ & [?|?]); [done | set_solver].
Qed.

(** ** Frames of the primitive operations *)

Lemma emit_Ok outputs callee inputs attrs st u st' :
  emit outputs callee inputs attrs st = Ok (u, st') ↔
  st' = set_current_fn
          (add_stmt (_current_fn st) (mkIRStmt outputs callee inputs attrs)) st.
Proof.
  unfold emit, modify. destruct u. split; [by intros [= <-] | by intros ->].
Qed.

Lemma default_opset_Ok st o st' :
  default_opset st = Ok (o, st') ↔ default_opset_ st = Some o ∧ st' = st.
Proof.
  unfold default_opset, bind, get. destruct (default_opset_ st); simpl.
  - unfold ret. split; [by intros [= -> ->] | by intros [[= ->] ->]].
  - split; [done | by intros [? _]].
Qed.

Lemma default_op_Ok name st op st' :
  default_op name st = Ok (op, st') ↔
  ∃ o, default_opset_ st = Some o ∧ op = mkOp o name ∧ st' = st.
Proof.
  unfold default_op. rewrite bind_Ok. split.
  - intros (o & s1 & [H ->]%default_opset_Ok & [<- <-]%ret_Ok). eauto.
  - intros (o & H & -> & ->). exists o, st. split; [by apply default_opset_Ok|done].
Qed.

Lemma default_op_opname name st op st' :
  default_op name st = Ok (op, st') → opname op = name ∧ st' = st.
Proof. intros (o & _ & -> & ->)%default_op_Ok. done. Qed.

Lemma generate_unique_name_frame candidate st r st' :
  generate_unique_name candidate st = Ok (r, st') →
  r ∉ _used_vars st ∧ _used_vars st' = {[r]} ∪ _used_vars st ∧
  _current_fn st' = _current_fn st ∧ _locals st' = _locals st ∧
  default_opset_ st' = default_opset_ st ∧ globals st' = globals st ∧
  _outer st' = _outer st ∧ _nextvar st ≤ _nextvar st'.
Proof. intros (Hr & n & Hn & ->)%generate_unique_name_inv. done. Qed.

(** The generator makes its result pending. *)
Lemma ExtP_generate_unique_name strict P candidate st r st' :
  generate_unique_name candidate st = Ok (r, st') →
  ExtP strict P ({[r]} ∪ P) st st'.
Proof.
  intros (Hr & Hu & Hf & Hl & Ho & Hg & Hou & Hn)%generate_unique_name_frame.
  split; try done; try by rewrite ?Hf, ?Hl.
  - intros scope x Hsc Hd. exists scope. by rewrite Hl.
  - set_solver.
  - intros n [->%elem_of_singleton|?]%elem_of_union; [by right | by left].
  - intros HP. split; [set_solver|].
    exists []. split; [by rewrite Hf, app_nil_r|]. split; [constructor|].
    by intros n Hn'%elem_of_nil.
Qed.

Lemma Ext_generate_unique_name strict candidate st r st' :
  generate_unique_name candidate st = Ok (r, st') → Ext strict st st'.
Proof.
  intros H. eapply ExtP_forget; [|by eapply ExtP_generate_unique_name]. set_solver.
Qed.

(** A node takes its names out of the pending set. *)
Lemma ExtP_emit strict P outputs op ins attrs st u st' :
  emit outputs op ins attrs st = Ok (u, st') →
  NoDup (node_names (mkIRStmt outputs op ins attrs)) →
  (∀ n, n ∈ node_names (mkIRStmt outputs op ins attrs) → n ∈ P) →
  ExtP strict P (P ∖ list_to_set (node_names (mkIRStmt outputs op ins attrs))) st st'.
Proof.
  intros ->%emit_Ok Hd Hin. split; try done.
  all: try (simpl; by destruct (_current_fn st)).
  - intros scope x Hsc Hdy. by exists scope.
  - intros n Hn. left. set_solver.
  - intros HP. split; [set_solver|].
    exists [mkIRStmt outputs op ins attrs]. split; [by destruct (_current_fn st)|].
    rewrite nodes_names_singleton. split; [done|].
    intros n Hn. split; [set_solver|]. split; [|right; by apply Hin].
    rewrite elem_of_difference, elem_of_list_to_set. tauto.
Qed.

Lemma bind_name_frame x v st u st' :
  bind_name x v st = Ok (u, st') →
  ∃ scope locals, _locals st = scope :: locals ∧
                  st' = set_locals (<[x := v]> scope :: locals) st.
Proof. unfold bind_name. intros H. monad_inv H. eauto. Qed.

Lemma ExtP_bind_name strict P x value kind typeinfo st u st' :
  bind_name x (Dynamic value kind typeinfo) st = Ok (u, st') →
  ExtP strict P P st st'.
Proof.
  intros (scope & locals & E & ->)%bind_name_frame. split; simpl; try done.
  - by rewrite E.
  - rewrite E. simpl. intros scope0 y [= <-] Hd. eexists. split; [done|].
    destruct (decide (x = y)) as [<-|Hne].
    + rewrite lookup_insert_eq. by eexists _, _, _.
    + by rewrite lookup_insert_ne.
  - intros n Hn. by left.
  - intros HP. split; [done|]. exists []. split; [by rewrite app_nil_r|].
    split; [constructor|]. by intros n Hn%elem_of_nil.
Qed.

(** A node whose single output was taken from the generator, emitted
    after further steps: the pair extends the frame. *)
Lemma Ext_emit_generated strict candidate r sA sB s2 op ins attrs u s3 :
  generate_unique_name candidate sA = Ok (r, sB) →
  Ext strict sB s2 →
  emit [r] op ins attrs s2 = Ok (u, s3) →
  concat (map attr_names attrs) = [] →
  Ext strict sA s3.
Proof.
  intros Hg HB He Hattrs.
  assert (node_names (mkIRStmt [r] op ins attrs) = [r]) as Hnames.
  { simpl. by rewrite Hattrs. }
  eapply ExtP_forget; [|eapply ExtP_trans; [|eapply ExtP_trans]].
  2: { exact (ExtP_generate_unique_name strict ∅ _ _ _ _ Hg). }
  2: { exact (Ext_frame _ ({[r]} ∪ ∅) _ _ HB). }
  2: { eapply (ExtP_emit strict ({[r]} ∪ ∅)); [exact He| |].
       - rewrite Hnames. apply NoDup_singleton.
       - rewrite Hnames. set_solver. }
  set_solver.
Qed.

(** ** The static specialization of autocast *)

Lemma static_cast_inv x ti st r st' :
  static_cast x ti st = Ok (r, st') →
  (is_const x = true ∧
   ∃ t tmp sB op, ti = Some t ∧ r = Some tmp ∧
     generate_unique_name (name_of x +:+ "_cast") st = Ok (tmp, sB) ∧
     default_op "CastLike" sB = Ok (op, sB) ∧
     emit [tmp] op [operand_of_name (ce_name x); OExpr t] [] sB = Ok (tt, st')) ∨
  ((is_const x = false ∨ ti = None) ∧ st' = st ∧ r = ce_name x).
Proof.
  unfold static_cast. intros H. destruct ti as [t|]; [|monad_inv H; by right; eauto].
  destruct (is_const x) eqn:Hc; [|monad_inv H; by right; eauto].
  left. split; [done|]. monad_inv H.
  pose proof Hm0 as [_ ->]%default_op_opname.
  destruct a1. eauto 10.
Qed.

Lemma static_cast_Ext x ti st r st' :
  static_cast x ti st = Ok (r, st') → Ext true st st'.
Proof.
  intros [(_ & t & tmp & sB & op & -> & -> & Hg & Ho & He) | (_ & -> & _)]%static_cast_inv.
  - eapply Ext_emit_generated; [done | apply Ext_refl | done | done].
  - apply Ext_refl.
Qed.

Lemma mapM_Ok_nil {S A B} (f : A → SE S B) s r s' :
  mapM f [] s = Ok (r, s') ↔ r = [] ∧ s = s'.
Proof. simpl. rewrite ret_Ok. naive_solver. Qed.

Lemma mapM_Ok_cons {S A B} (f : A → SE S B) x l s r s' :
  mapM f (x :: l) s = Ok (r, s') ↔
  ∃ y s1 ys, f x s = Ok (y, s1) ∧ mapM f l s1 = Ok (ys, s') ∧ r = y :: ys.
Proof.
  simpl. rewrite bind_Ok. split.
  - intros (y & s1 & Hy & H). apply bind_Ok in H as (ys & s2 & Hys & H).
    apply ret_Ok in H as [<- <-]. eauto 10.
  - intros (y & s1 & ys & Hy & Hys & ->). exists y, s1. split; [done|].
    apply bind_Ok. exists ys, s'. by rewrite ret_Ok.
Qed.

Lemma mapM_length {S A B} (f : A → SE S B) l s r s' :
  mapM f l s = Ok (r, s') → length r = length l.
Proof.
  revert s r. induction l as [|x l IH]; intros s r.
  - by intros [-> _]%mapM_Ok_nil.
  - intros (y & s1 & ys & _ & H & ->)%mapM_Ok_cons. simpl. f_equal. by eapply IH.
Qed.

Lemma mapM_Ext {A B} strict (f : A → M B) l :
  (∀ x st r st', x ∈ l → f x st = Ok (r, st') → Ext strict st st') →
  ∀ st r st', mapM f l st = Ok (r, st') → Ext strict st st'.
Proof.
  induction l as [|x l IH]; intros Hf st r st'.
  - intros [_ ->]%mapM_Ok_nil. apply Ext_refl.
  - intros (y & s1 & ys & Hy & H & _)%mapM_Ok_cons.
    eapply Ext_trans; [eapply Hf; [left|done]|].
    eapply IH; [|done]. intros ? ? ? ? ?. apply Hf. by right.
Qed.

Lemma forM__Ok_cons {S A} (f : A → SE S unit) x l s u s' :
  forM_ f (x :: l) s = Ok (u, s') ↔
  ∃ s1, f x s = Ok (tt, s1) ∧ forM_ f l s1 = Ok (u, s').
Proof.
  simpl. rewrite bind_Ok. split.
  - intros ([] & s1 & Hy & H). eauto.
  - intros (s1 & Hy & H). eauto.
Qed.

Lemma forM__Ext {A} strict (f : A → M unit) l :
  (∀ x st r st', x ∈ l → f x st = Ok (r, st') → Ext strict st st') →
  ∀ st r st', forM_ f l st = Ok (r, st') → Ext strict st st'.
Proof.
  induction l as [|x l IH]; intros Hf st r st'.
  - intros [_ ->]%ret_Ok. apply Ext_refl.
  - intros (s1 & Hy & H)%forM__Ok_cons.
    eapply Ext_trans; [eapply Hf; [left|done]|].
    eapply IH; [|done]. intros ? ? ? ? ?. apply Hf. by right.
Qed.




Lemma static_cast_inputs_first_pass op_schema args st rs st' :
  static_cast_inputs op_schema args st = Ok (rs, st') →
  ∃ tb atv,
    first_pass op_schema args = Ok (tb, atv) ∧
    mapM (λ xt, static_cast (fst xt) (bindings_get tb (snd xt))) atv st
    = Ok (rs, st').
Proof.
  unfold static_cast_inputs, cast_inputs, first_pass.
  destruct op_schema as [s|].
  - destruct (bind_typevars _ _ _ _ _ _) as [[tb atv]|e]; [|done]. eauto.
  - intros H. exists ∅, (map (λ x, (x, None)) args). split; [done|].
    revert st rs H. induction args as [|x args IH]; intros st rs; [done|].
    intros (y & s1 & ys & Hy & H & ->)%mapM_Ok_cons.
    apply mapM_Ok_cons. exists y, s1, ys. split; [done|]. split; [by apply IH|done].
Qed.


(** ** The arity check of [cast_inputs] *)







(** ** Frames of the emitting helpers *)

Ltac destruct_units :=
  repeat match goal with u : unit |- _ => destruct u end.

Lemma emit_stmts outputs op ins attrs st u st' :
  emit outputs op ins attrs st = Ok (u, st') →
  stmts (_current_fn st') = stmts (_current_fn st) ++ [mkIRStmt outputs op ins attrs] ∧
  _locals st' = _locals st ∧ _used_vars st' = _used_vars st ∧
  _outer st' = _outer st ∧ default_opset_ st' = default_opset_ st ∧
  fn_outputs (_current_fn st') = fn_outputs (_current_fn st) ∧
  fn_inputs (_current_fn st') = fn_inputs (_current_fn st).
Proof. intros ->%emit_Ok. simpl. by destruct (_current_fn st). Qed.

Lemma emit_named_inv outputs name ins attrs st u st' :
  emit_named outputs name ins attrs st = Ok (u, st') →
  ∃ op, default_op name st = Ok (op, st) ∧
        emit outputs op ins attrs st = Ok (u, st').
Proof.
  unfold emit_named. intros H. monad_inv H.
  pose proof Hm as [_ ->]%default_op_opname. eauto.
Qed.

Lemma emit_const_inv v suggested_name st e st' :
  emit_const v suggested_name st = Ok (e, st') →
  ∃ candidate ovar sB tensor op,
    generate_unique_name candidate st = Ok (ovar, sB) ∧
    pyvalue_to_onnx_tensor ovar v = Ok tensor ∧
    default_op "Constant" sB = Ok (op, sB) ∧
    emit [ovar] op [] [AttrTensor "value" tensor] sB = Ok (tt, st') ∧
    e = {| ce_name := Some ovar; ce_kind := CONST |}.
Proof.
  unfold emit_const. intros H. monad_inv H.
  pose proof Hm0 as [_ ->]%default_op_opname. destruct_units.
  eexists _, _, _, _, _. eauto 10.
Qed.

(** [emit_const] appends one [Constant] node that defines a fresh name. *)
Lemma emit_const_spec strict v suggested_name st e st' :
  emit_const v suggested_name st = Ok (e, st') →
  Ext strict st st' ∧
  ∃ ovar node,
    e = {| ce_name := Some ovar; ce_kind := CONST |} ∧ ovar ∉ _used_vars st ∧
    stmts (_current_fn st') = stmts (_current_fn st) ++ [node] ∧
    result node = [ovar] ∧ opname (callee node) = "Constant".
Proof.
  intros (c & ovar & sB & t & op & Hg & _ & Ho & He & ->)%emit_const_inv. split.
  - eapply Ext_emit_generated; [done | apply Ext_refl | done | done].
  - pose proof Ho as [Hop _]%default_op_opname.
    apply generate_unique_name_frame in Hg as (Hfresh & _ & Hfn & _).
    apply emit_stmts in He as (He & _). rewrite Hfn in He. eauto 10.
Qed.

Lemma emit_copy_inv original_var suggested_name st r st' :
  emit_copy original_var suggested_name st = Ok (r, st') →
  ∃ sB op,
    generate_unique_name suggested_name st = Ok (r, sB) ∧
    default_op "Identity" sB = Ok (op, sB) ∧
    emit [r] op [original_var] [] sB = Ok (tt, st').
Proof.
  unfold emit_copy. intros H. monad_inv H.
  pose proof Hm0 as [_ ->]%default_op_opname. destruct_units. eauto.
Qed.

Lemma emit_copy_spec strict original_var suggested_name st r st' :
  emit_copy original_var suggested_name st = Ok (r, st') →
  Ext strict st st' ∧ r ∉ _used_vars st ∧
  ∃ node,
    stmts (_current_fn st') = stmts (_current_fn st) ++ [node] ∧
    result node = [r] ∧ opname (callee node) = "Identity" ∧
    args node = [original_var].
Proof.
  intros (sB & op & Hg & Ho & He)%emit_copy_inv. split.
  - eapply Ext_emit_generated; [done | apply Ext_refl | done | done].
  - pose proof Ho as [Hop _]%default_op_opname.
    apply generate_unique_name_frame in Hg as (Hfresh & _ & Hfn & _).
    apply emit_stmts in He as (He & _). rewrite Hfn in He. eauto 10.
Qed.

Lemma to_onnx_attr_ref_state value pytype st a st' :
  to_onnx_attr_ref value pytype st = Ok (a, st') →
  st' = st ∧ attr_names a = [].
Proof.
  unfold to_onnx_attr_ref. intros H.
  destruct pytype as [| | |t]; try discriminate H.
  destruct t; monad_inv H; done.
Qed.

Lemma to_onnx_var_Ext strict val target st r st' :
  to_onnx_var val target st = Ok (r, st') → Ext strict st st'.
Proof.
  unfold to_onnx_var. intros H. destruct val as [value k t|value t|v].
  - monad_inv H. apply Ext_refl.
  - monad_inv H. apply to_onnx_attr_ref_state in Hm0 as [-> Ha].
    pose proof Hm1 as [_ ->]%default_op_opname. destruct_units.
    eapply Ext_emit_generated; [done | apply Ext_refl | done |].
    simpl. by rewrite Ha.
  - monad_inv H. by eapply emit_const_spec.
Qed.

Lemma to_onnx_var_Dynamic value kind typeinfo target st :
  to_onnx_var (Dynamic value kind typeinfo) target st = Ok (OName value, st).
Proof. done. Qed.

Lemma lookup_inv name st v st' :
  lookup name st = Ok (v, st') →
  st' = st ∧
  (lookup_scopes name (_locals st) = Some v ∨
   lookup_scopes name (_locals st) = None ∧
   ∃ pv, globals st !! name = Some pv ∧ v = PyValue pv).
Proof.
  unfold lookup. intros H. monad_inv H; split; try done; [by left|].
  right. split; [done|]. eauto.
Qed.

Lemma py_var_to_onnx_var_Ext strict py_var st r st' :
  py_var_to_onnx_var py_var st = Ok (r, st') → Ext strict st st'.
Proof.
  unfold py_var_to_onnx_var. intros H. monad_inv H.
  apply lookup_inv in Hm as [-> _]. by eapply to_onnx_var_Ext.
Qed.

Lemma py_var_to_onnx_var_Dynamic py_var value kind typeinfo st :
  lookup_scopes py_var (_locals st) = Some (Dynamic value kind typeinfo) →
  py_var_to_onnx_var py_var st = Ok (OName value, st).
Proof.
  intros H. unfold py_var_to_onnx_var, lookup, bind, get. simpl. by rewrite H.
Qed.

Lemma current_scope_inv st sc st' :
  current_scope st = Ok (sc, st') → st' = st ∧ head (_locals st) = Some sc.
Proof.
  unfold current_scope, bind, get. destruct (_locals st) as [|sc0 l]; [done|].
  by intros [= <- <-].
Qed.

Lemma static_cast_inputs_Ext strict op_schema args st rs st' :
  static_cast_inputs op_schema args st = Ok (rs, st') → Ext strict st st'.
Proof.
  intros (tb & atv & _ & H)%static_cast_inputs_first_pass.
  eapply mapM_Ext; [|done]. intros xt s r s' _ Hc. simpl in Hc.
  apply Ext_strict_of. by eapply static_cast_Ext.
Qed.

(** ** Frames of expression lowering *)

Create HintDb ext discriminated.

Lemma emit_const_Ext strict v suggested_name st e st' :
  emit_const v suggested_name st = Ok (e, st') → Ext strict st st'.
Proof. intros H. by eapply emit_const_spec. Qed.

Lemma emit_copy_Ext strict original_var suggested_name st r st' :
  emit_copy original_var suggested_name st = Ok (r, st') → Ext strict st st'.
Proof. intros H. by eapply emit_copy_spec. Qed.

Lemma bind_name_Ext strict x value kind typeinfo st u st' :
  bind_name x (Dynamic value kind typeinfo) st = Ok (u, st') → Ext strict st st'.
Proof. apply ExtP_bind_name. Qed.

Global Hint Resolve emit_const_Ext emit_copy_Ext to_onnx_var_Ext
  py_var_to_onnx_var_Ext static_cast_inputs_Ext Ext_generate_unique_name
  bind_name_Ext : ext.

(** Replace the final state of an operation that does not change the
    state. *)
Ltac norm_state :=
  repeat match goal with
  | H : default_op _ ?s = Ok (_, ?s') |- _ =>
      assert_fails (constr_eq s s');
      let E := fresh in
      pose proof (proj2 (default_op_opname _ _ _ _ H)) as E; subst s'
  | H : lookup _ ?s = Ok (_, ?s') |- _ =>
      assert_fails (constr_eq s s');
      let E := fresh in
      pose proof (proj1 (lookup_inv _ _ _ _ H)) as E; subst s'
  | H : current_scope ?s = Ok (_, ?s') |- _ =>
      assert_fails (constr_eq s s');
      let E := fresh in
      pose proof (proj1 (current_scope_inv _ _ _ H)) as E; subst s'
  | H : to_onnx_attr_ref _ _ ?s = Ok (_, ?s') |- _ =>
      assert_fails (constr_eq s s');
      let E := fresh in
      pose proof (proj1 (to_onnx_attr_ref_state _ _ _ _ _ H)) as E; subst s'
  end; destruct_units.

(** Prove [Ext strict s s'] by following the steps recorded in the
    hypotheses from [s] to [s']: a name taken from the generator is paired
    with the node that defines it. *)
Ltac ext_chain :=
  lazymatch goal with
  | |- Ext _ ?s ?s' =>
      first
      [ constr_eq s s'; apply Ext_refl
      | match goal with
        | Hg : generate_unique_name _ s = Ok (?r, _),
          He : emit [?r] _ _ _ _ = Ok (_, _) |- _ =>
            eapply Ext_trans;
            [ refine (Ext_emit_generated _ _ _ _ _ _ _ _ _ _ _ Hg _ He _);
              [ clear Hg He; ext_chain | try reflexivity ]
            | clear Hg He; ext_chain ]
        end
      | match goal with
        | He : emit_named [?r] _ _ _ ?s2 = Ok (_, _) |- _ =>
            let op := fresh "op" in let Ho := fresh "Ho" in
            apply emit_named_inv in He as (op & Ho & He); ext_chain
        end
      | eapply Ext_trans; [solve [eauto 2 with ext] | ext_chain]
      | apply Ext_refl ]
  end.

(** The axes of the scalar and of the computed specifiers are pairwise
    distinct. *)
Lemma partition_indices_axes indices :
  ∀ axis sliced scalar non_scalar sliced' scalar' non_scalar',
    partition_indices axis indices sliced scalar non_scalar
    = Ok (sliced', scalar', non_scalar') →
    NoDup (map fst (non_scalar ++ scalar)) →
    (∀ a, a ∈ map fst (non_scalar ++ scalar) → a < axis) →
    NoDup (map fst (non_scalar' ++ scalar')).
Proof.
  induction indices as [|elt indices IH];
    intros axis sliced scalar non_scalar sliced' scalar' non_scalar' H Hnd Hlt;
    simpl in H.
  - by injection H as <- <- <-.
  - assert (∀ a, a ∈ map fst (non_scalar ++ scalar) → a < S axis) as Hlt'.
    { intros a Ha. specialize (Hlt a Ha). lia. }
    assert (NoDup (map fst ((non_scalar ++ [(axis, elt)]) ++ scalar)) ∧
            ∀ a, a ∈ map fst ((non_scalar ++ [(axis, elt)]) ++ scalar) → a < S axis)
      as [Hnd1 Hlt1].
    { rewrite !map_app in *. simpl. split.
      - rewrite <- app_assoc. apply NoDup_app in Hnd as (H1 & H2 & H3).
        apply NoDup_app. split; [done|]. split.
        + intros a Ha [->%list_elem_of_singleton|Hb]%elem_of_app; [|by eapply H2].
          specialize (Hlt axis). rewrite elem_of_app in Hlt. specialize (Hlt (or_introl Ha)). lia.
        + simpl. apply NoDup_cons. split; [|done]. intros Ha.
          specialize (Hlt axis). rewrite elem_of_app in Hlt. specialize (Hlt (or_intror Ha)). lia.
      - intros a. rewrite !elem_of_app, list_elem_of_singleton.
        intros [[Ha| ->]|Ha]; [|lia|].
        + specialize (Hlt a). rewrite elem_of_app in Hlt. specialize (Hlt (or_introl Ha)). lia.
        + specialize (Hlt a). rewrite elem_of_app in Hlt. specialize (Hlt (or_intror Ha)). lia. }
    assert (NoDup (map fst (non_scalar ++ scalar ++ [(axis, elt)])) ∧
            ∀ a, a ∈ map fst (non_scalar ++ scalar ++ [(axis, elt)]) → a < S axis)
      as [Hnd2 Hlt2].
    { rewrite app_assoc, map_app. simpl. split.
      - apply NoDup_app. split; [done|]. split; [|apply NoDup_singleton].
        intros a Ha ->%list_elem_of_singleton. specialize (Hlt _ Ha). lia.
      - intros a [Ha| ->%list_elem_of_singleton]%elem_of_app; [|lia].
        specialize (Hlt a Ha). lia. }
    assert (∀ e, (if is_constant_expr e
                  then match eval_constant_expr e with
                       | Raise x => Raise x
                       | Ok v =>
                           if isinstance v Tint
                           then partition_indices (S axis) indices sliced
                                  (scalar ++ [(axis, elt)]) non_scalar
                           else partition_indices (S axis) indices sliced scalar
                                  (non_scalar ++ [(axis, elt)])
                       end
                  else partition_indices (S axis) indices sliced scalar
                         (non_scalar ++ [(axis, elt)]))
                 = Ok (sliced', scalar', non_scalar') →
                 NoDup (map fst (non_scalar' ++ scalar'))) as Hgen.
    { intros e He. destruct (is_constant_expr e).
      - destruct (eval_constant_expr e) as [v|]; [|done].
        destruct (isinstance v Tint); by eapply IH; [exact He|..].
      - by eapply IH; [exact He|..]. }
    destruct elt as [v|id|op e|l op r|op vs|l op c|callee args|v idx|lower upper step|elts];
      try (by eapply Hgen).
    destruct lower, upper, step; by eapply IH; [exact H|..].
Qed.

Section expression_frames.
Variable translate_expr : ast.expr → option string → M ConverterExpression.
Hypothesis translate_expr_Ext :
  ∀ strict node target st r st',
    translate_expr node target st = Ok (r, st') → Ext strict st st'.

Local Hint Resolve translate_expr_Ext : ext.

Lemma translate_opt_expr_Ext strict node st r st' :
  translate_opt_expr translate_expr node st = Ok (r, st') → Ext strict st st'.
Proof.
  unfold translate_opt_expr. intros H.
  destruct node as [v| | | | | | | | |]; try by eauto with ext.
  destruct v; try by eauto with ext. monad_inv H. apply Ext_refl.
Qed.

Lemma const_1d_Ext strict value cache st r st' :
  const_1d value cache st = Ok (r, st') → Ext strict st st'.
Proof.
  unfold const_1d. intros H. monad_inv H; [apply Ext_refl | eauto with ext].
Qed.

Local Hint Resolve translate_opt_expr_Ext const_1d_Ext : ext.

Lemma translate_slice_component_Ext strict node_arg default_value cache st r st' :
  translate_slice_component translate_expr node_arg default_value cache st
  = Ok (r, st') → Ext strict st st'.
Proof.
  unfold translate_slice_component. intros H.
  monad_inv H; norm_state; try ext_chain.
Qed.

Local Hint Resolve translate_slice_component_Ext : ext.

Lemma translate_slice_Ext strict slice cache st r st' :
  translate_slice translate_expr slice cache st = Ok (r, st') → Ext strict st st'.
Proof.
  unfold translate_slice. destruct slice as [[lower upper] step]. intros H.
  monad_inv H. ext_chain.
Qed.

Local Hint Resolve translate_slice_Ext : ext.

Lemma translate_slices_Ext strict sliced_indices :
  ∀ cache starts ends axes steps st r st',
    translate_slices translate_expr sliced_indices cache starts ends axes steps st
    = Ok (r, st') → Ext strict st st'.
Proof.
  induction sliced_indices as [|[axis element] rest IH];
    intros cache starts ends axes steps st r st' H; simpl in H.
  - monad_inv H. apply Ext_refl.
  - monad_inv H. apply IH in H. ext_chain.
Qed.

Local Hint Resolve translate_slices_Ext : ext.

(** The gathers of axes other than [last_axis] write generated names. *)
Lemma translate_gathers_Ext strict var target last_axis non_scalar_indices :
  last_axis ∉ map fst non_scalar_indices →
  ∀ result st r st',
    translate_gathers translate_expr var target last_axis non_scalar_indices
      result st = Ok (r, st') → Ext strict st st'.
Proof.
  induction non_scalar_indices as [|[axis index_expr] rest IH];
    intros Hlast result st r st' H; simpl in H.
  - monad_inv H. apply Ext_refl.
  - simpl in Hlast. apply not_elem_of_cons in Hlast as [Hne Hlast].
    rewrite bool_decide_eq_true_2 in H by done.
    monad_inv H. apply (IH Hlast) in H. ext_chain.
Qed.

Lemma translate_gathers_app var target last_axis l1 l2 :
  ∀ result st r st',
    translate_gathers translate_expr var target last_axis (l1 ++ l2) result st
    = Ok (r, st') ↔
    ∃ r1 st1,
      translate_gathers translate_expr var target last_axis l1 result st
      = Ok (r1, st1) ∧
      translate_gathers translate_expr var target last_axis l2 r1 st1
      = Ok (r, st').
Proof.
  induction l1 as [|[axis e] l1 IH]; intros result st r st'; simpl.
  - split; [intros H; by exists result, st|]. by intros (r1 & st1 & [= <- <-] & H).
  - split.
    + intros H. apply bind_Ok in H as (iv & s1 & Hiv & H).
      apply bind_Ok in H as (g & s2 & Hg & H).
      apply bind_Ok in H as (u & s3 & He & H).
      apply IH in H as (r1 & s4 & H1 & H2).
      exists r1, s4. split; [|done].
      repeat (apply bind_Ok; eexists _, _; split; [done|]). done.
    + intros (r1 & s4 & H & H2). apply bind_Ok in H as (iv & s1 & Hiv & H).
      apply bind_Ok in H as (g & s2 & Hg & H).
      apply bind_Ok in H as (u & s3 & He & H).
      repeat (apply bind_Ok; eexists _, _; split; [done|]).
      apply IH. eauto.
Qed.

(** The last gather writes the pending [target]. *)
Lemma translate_gathers_target strict var target last_axis l index_expr :
  last_axis ∉ map fst l →
  ∀ result st r st',
    translate_gathers translate_expr var target last_axis
      (l ++ [(last_axis, index_expr)]) result st = Ok (r, st') →
    ExtP strict {[target]} ∅ st st' ∧ r = Some target.
Proof.
  intros Hlast result st r st' (r1 & st1 & H1 & H)%translate_gathers_app.
  eapply (translate_gathers_Ext strict) in H1; [|done]. simpl in H.
  rewrite bool_decide_eq_false_2 in H by (by intros ?).
  apply bind_Ok in H as (iv & s1 & Hiv & H).
  apply bind_Ok in H as (g & s2 & Hg & H). apply ret_Ok in Hg as [<- <-].
  apply bind_Ok in H as (u & s3 & He & H). apply ret_Ok in H as [<- <-].
  split; [|done]. apply emit_named_inv in He as (op & Ho & He).
  eapply ExtP_trans; [apply Ext_frame; ext_chain|].
  eapply ExtP_forget; [|eapply ExtP_emit; [exact He| |]].
  - set_solver.
  - simpl. apply NoDup_singleton.
  - simpl. set_solver.
Qed.

Lemma combine_slice_inputs_Ext strict var starts ends axes steps st r st' :
  combine_slice_inputs var starts ends axes steps st = Ok (r, st') →
  Ext strict st st'.
Proof.
  unfold combine_slice_inputs. intros H.
  monad_inv H; norm_state; ext_chain.
Qed.

Local Hint Resolve combine_slice_inputs_Ext : ext.

(** The Slice block writes the pending [target] exactly when no
    computed specifier remains. *)
Lemma translate_sliced_ExtP strict var target sliced scalar non_scalar st r st' :
  translate_sliced translate_expr var target sliced scalar non_scalar st
  = Ok (r, st') →
  match non_scalar with
  | [] => ExtP strict {[target]} ∅ st st' ∧ r = Some target
  | _ => Ext strict st st'
  end.
Proof.
  unfold translate_sliced. intros H.
  destruct non_scalar as [|i non_scalar]; simpl in H.
  - monad_inv H; norm_state;
      (split; [|done]);
      match goal with
      | He : emit_named [_] _ _ _ _ = Ok _ |- _ =>
          apply emit_named_inv in He as (op & Ho & He);
          (eapply ExtP_trans; [apply Ext_frame; ext_chain|]);
          (eapply ExtP_forget; [|eapply ExtP_emit; [exact He| |]]);
          [set_solver | simpl; apply NoDup_singleton | simpl; set_solver]
      end.
  - monad_inv H; norm_state; ext_chain.
Qed.

Lemma ExtP_generated_pending strict candidate st r st' :
  generate_unique_name candidate st = Ok (r, st') → ExtP strict ∅ {[r]} st st'.
Proof.
  intros H%(ExtP_generate_unique_name strict ∅).
  by rewrite (right_id_L ∅ (∪)) in H.
Qed.

Lemma last_axis_not_in (l : list (nat * ast.expr)) :
  l ≠ [] → NoDup (map fst l) →
  ∃ l0 e, l = l0 ++ [(match last l with Some (a, _) => a | None => 0 end, e)] ∧
          match last l with Some (a, _) => a | None => 0 end ∉ map fst l0.
Proof.
  intros [[a e] Hl]%last_is_Some Hnd. rewrite Hl.
  apply last_Some in Hl as [l0 ->]. exists l0, e. split; [done|].
  rewrite map_app in Hnd. apply NoDup_app in Hnd as (_ & Hnd & _).
  intros Ha. apply (Hnd a Ha). simpl. left.
Qed.

Lemma translate_subscript_expr_Ext strict value indices target st r st' :
  translate_subscript_expr translate_expr value indices target st = Ok (r, st') →
  Ext strict st st'.
Proof.
  unfold translate_subscript_expr. intros H.
  apply bind_Ok in H as (var & st0 & Hv & H).
  apply bind_Ok in H as (tgt & st1 & Hg & H).
  destruct (partition_indices 0 indices [] [] []) as [[[sl sc] ns]|] eqn:E;
    [|done].
  apply partition_indices_axes in E; [|constructor|by intros a Ha%elem_of_nil].
  destruct (negb _) eqn:E2.
  { monad_inv H. ext_chain. }
  apply bind_Ok in H as ([result scalar'] & st2 & Hp & H). simpl in H.
  apply bind_Ok in H as (res & st3 & Hga & H). apply ret_Ok in H as [<- <-].
  eapply Ext_trans; [by eapply translate_expr_Ext|].
  eapply ExtP_trans; [by eapply ExtP_generated_pending|].
  destruct (truthy_list sl || bool_decide (1 < length sc)) eqn:Ec.
  - apply bind_Ok in Hp as (res0 & st4 & Hs & Hp). apply ret_Ok in Hp as [[= <- <-] <-].
    rewrite app_nil_r in Hga. rewrite map_app in E.
    apply NoDup_app in E as (E & _ & _).
    apply (translate_sliced_ExtP strict) in Hs. destruct ns as [|i ns].
    + simpl in Hga. apply ret_Ok in Hga as [<- <-]. by destruct Hs.
    + destruct (last_axis_not_in (i :: ns)) as (l0 & e & Hl & Hnotin); [done..|].
      rewrite Hl in Hga at 2.
      eapply translate_gathers_target in Hga as [Hga _]; [|done].
      eapply ExtP_trans; [apply Ext_frame, Hs | exact Hga].
  - apply ret_Ok in Hp as [[= <- <-] <-].
    destruct (last_axis_not_in (ns ++ sc)) as (l0 & e & Hl & Hnotin); [|done|].
    { intros [-> ->]%app_eq_nil. destruct sl; simpl in *; done. }
    rewrite Hl in Hga at 2.
    by eapply translate_gathers_target in Hga as [Hga _].
Qed.

Local Hint Resolve translate_subscript_expr_Ext : ext.

Lemma translate_call_expr_Ext strict callee args st r st' :
  translate_call_expr translate_expr callee args st = Ok (r, st') →
  Ext strict st st'.
Proof.
  unfold translate_call_expr. intros H. monad_inv H.
  eapply Ext_trans; [|eauto with ext].
  eapply mapM_Ext; [|done]. intros. by eapply translate_opt_expr_Ext.
Qed.

Lemma _cast_like_binary_expression_Ext strict op l r st res st' :
  _cast_like_binary_expression op l r st = Ok (res, st') → Ext strict st st'.
Proof.
  unfold _cast_like_binary_expression. intros H. monad_inv H. eauto with ext.
Qed.

Local Hint Resolve translate_call_expr_Ext _cast_like_binary_expression_Ext : ext.

Lemma translate_bool_operands_Ext strict op operands :
  ∀ expr st r st',
    translate_bool_operands translate_expr op expr operands st = Ok (r, st') →
    Ext strict st st'.
Proof.
  induction operands as [|operand rest IH]; intros expr st r st' H; simpl in H.
  - monad_inv H. apply Ext_refl.
  - monad_inv H. apply IH in H. ext_chain.
Qed.

Local Hint Resolve translate_bool_operands_Ext : ext.

Lemma translate_bool_op_expr_Ext strict op values st r st' :
  translate_bool_op_expr translate_expr op values st = Ok (r, st') →
  Ext strict st st'.
Proof.
  unfold translate_bool_op_expr. intros H.
  monad_inv H; norm_state; ext_chain.
Qed.

Lemma translate_bin_op_expr_Ext strict l op r st res st' :
  translate_bin_op_expr translate_expr l op r st = Ok (res, st') →
  Ext strict st st'.
Proof.
  unfold translate_bin_op_expr. intros H.
  monad_inv H; norm_state; ext_chain.
Qed.

Lemma translate_unary_op_expr_Ext strict op operand st res st' :
  translate_unary_op_expr translate_expr op operand st = Ok (res, st') →
  Ext strict st st'.
Proof.
  unfold translate_unary_op_expr. intros H.
  monad_inv H; norm_state; ext_chain.
Qed.

Lemma translate_compare_expr_Ext strict l op c st res st' :
  translate_compare_expr translate_expr l op c st = Ok (res, st') →
  Ext strict st st'.
Proof.
  unfold translate_compare_expr. intros H.
  monad_inv H; norm_state; ext_chain.
Qed.

Lemma translate_name_expr_Ext strict id st res st' :
  translate_name_expr id st = Ok (res, st') → Ext strict st st'.
Proof.
  unfold translate_name_expr. intros H. monad_inv H; eauto with ext.
Qed.

Local Hint Resolve translate_bool_op_expr_Ext translate_bin_op_expr_Ext
  translate_unary_op_expr_Ext translate_compare_expr_Ext
  translate_name_expr_Ext : ext.

Lemma translate_expr_cases_plain node target st res st' :
  match node with
  | ast.Call callee args => translate_call_expr translate_expr callee args
  | ast.BinOp l op r => translate_bin_op_expr translate_expr l op r
  | ast.BoolOp op values => translate_bool_op_expr translate_expr op values
  | ast.UnaryOp op operand => translate_unary_op_expr translate_expr op operand
  | ast.Compare l op comparator =>
      translate_compare_expr translate_expr l op comparator
  | ast.Name id => translate_name_expr id
  | ast.Subscript value indices =>
      translate_subscript_expr translate_expr value indices target
  | _ =>
      if is_constant_expr node then
        match eval_constant_expr node with
        | Raise e => raise e
        | Ok v => e <- emit_const v target ;; ret (RExpr e)
        end
      else raise (ValueError "Unsupported expression type {type(node)!r}.")
  end st = Ok (res, st') →
  plain_result res.
Proof.
  destruct node; intros H;
    try (unfold translate_name_expr, translate_unary_op_expr,
           translate_bin_op_expr, translate_bool_op_expr,
           translate_compare_expr, translate_call_expr,
           translate_subscript_expr in H);
    monad_inv H; done.
Qed.

Lemma translate_expr_body_Ext strict node target st r st' :
  translate_expr_body translate_expr node target st = Ok (r, st') →
  Ext strict st st'.
Proof.
  unfold translate_expr_body. intros H.
  apply bind_Ok in H as (res & st0 & Hres & H).
  assert (Ext strict st st0) as Hext.
  { destruct node; try (by eauto with ext);
      monad_inv Hres; eauto with ext. }
  apply translate_expr_cases_plain in Hres.
  eapply Ext_trans; [exact Hext|]. monad_inv H; ext_chain. exact Hres.
Qed.
End expression_frames.

(** Translating an expression appends nodes with fresh, pairwise
    distinct names to the function under construction and leaves the rest
    of the state in place. *)
Lemma translate_expr_Ext fuel :
  ∀ strict node target st r st',
    translate_expr fuel node target st = Ok (r, st') → Ext strict st st'.
Proof.
  induction fuel as [|fuel IH]; intros strict node target st r st' H; [done|].
  simpl in H. by eapply translate_expr_body_Ext.
Qed.

Global Hint Resolve translate_expr_Ext : ext.

(** ** Frames of statement lowering *)

Lemma fn_names_stmts f : fn_names f = nodes_names (stmts f).
Proof. by destruct f. Qed.

Lemma ExtP_pending_fresh strict Q st st' :
  ExtP strict ∅ Q st st' → ∀ n, n ∈ Q → n ∉ _used_vars st ∧ n ∈ _used_vars st'.
Proof.
  intros [_ _ _ _ _ _ _ _ _ Hp Hst] n Hn. split.
  - destruct (Hp n Hn) as [?|?]; [set_solver | done].
  - destruct Hst as [HQ _]; [set_solver|]. by apply HQ.
Qed.

Lemma ExtP_frame_r strict Q F st st' :
  ExtP strict ∅ Q st st' → ExtP strict F (Q ∪ F) st st'.
Proof.
  intros H. apply (ExtP_frame _ _ _ F) in H; [|set_solver].
  by rewrite (left_id_L ∅ (∪)) in H.
Qed.

(** Declaring an input or an output of the function under construction
    leaves its nodes alone. *)
Lemma Ext_declare st f' :
  fn_name f' = fn_name (_current_fn st) → stmts f' = stmts (_current_fn st) →
  Ext false st (set_current_fn f' st).
Proof.
  intros Hn Hs. split; simpl; try done.
  - intros scope x Hsc Hd. by exists scope.
  - intros _. split; [done|]. exists []. split; [by rewrite app_nil_r|].
    split; [constructor|]. by intros n Hn'%elem_of_nil.
Qed.

Lemma declare_input_Ext varname t st u st' :
  declare_input varname t st = Ok (u, st') → Ext false st st'.
Proof.
  unfold declare_input. intros ->%modify_Ok.
  apply Ext_declare; by destruct (_current_fn st).
Qed.

Lemma declare_output_Ext varname t st u st' :
  declare_output varname t st = Ok (u, st') → Ext false st st'.
Proof.
  unfold declare_output. intros ->%modify_Ok.
  apply Ext_declare; by destruct (_current_fn st).
Qed.

Global Hint Resolve declare_input_Ext declare_output_Ext : ext.

Lemma enter_scope_Ok name st u st' :
  enter_scope name st = Ok (u, st') ↔
  st' = set_locals (∅ :: _locals st)
          (set_current_fn (new_function name)
             (set_outer (_current_fn st :: _outer st) st)).
Proof. unfold enter_scope. by rewrite modify_Ok. Qed.

Lemma exit_scope_inv st g st' :
  exit_scope st = Ok (g, st') →
  ∃ f outer scope locals,
    _outer st = f :: outer ∧ _locals st = scope :: locals ∧ g = _current_fn st ∧
    st' = set_locals locals (set_current_fn f (set_outer outer st)).
Proof.
  unfold exit_scope. intros H. monad_inv H. eauto 10.
Qed.

(** A subgraph built between [enter_scope] and [exit_scope]: the
    enclosing function and scopes are as before, and the names the nodes
    of the subgraph define are fresh, pairwise distinct and pending. *)
Lemma scope_ExtP strict name st u s0 s2 g st' :
  enter_scope name st = Ok (u, s0) → Ext false s0 s2 →
  exit_scope s2 = Ok (g, st') →
  ExtP strict ∅ (list_to_set (fn_names g)) st st' ∧ NoDup (fn_names g) ∧
  _current_fn st' = _current_fn st ∧ _locals st' = _locals st ∧
  _outer st' = _outer st ∧ default_opset_ st' = default_opset_ st ∧
  g = _current_fn s2.
Proof.
  intros ->%enter_scope_Ok HE (f & outer & sc & locals & Ho & Hl & -> & ->)%exit_scope_inv.
  destruct HE as [Ho' Hg' Hu' Hn' _ [Ht' Hl'] _ Hs' Hv' _ Hst']. simpl in *.
  rewrite Ho in Hu'. injection Hu' as -> ->.
  rewrite Hl in Ht'. simpl in Ht'. subst locals.
  destruct Hst' as (_ & new & E & D & Fr); [done|]. simpl in E.
  rewrite fn_names_stmts, E.
  split; [|done].
  apply ExtP_names_only; simpl; try done.
  intros n Hn%elem_of_list_to_set. destruct (Fr n Hn) as (? & _ & [?|?]); [|set_solver].
  split; [done | by right].
Qed.

(** The loop that gives each variable a new value name and binds it. *)
Lemma rename_ExtP strict kind (l : list string) :
  ∀ st rs st',
    mapM (λ x, r <- generate_unique_name x ;;
               bind_name x (Dynamic r kind None) ;;; ret r) l st = Ok (rs, st') →
    ExtP strict ∅ (list_to_set rs) st st' ∧ NoDup rs ∧ length rs = length l.
Proof.
  induction l as [|x l IH]; intros st rs st'.
  - intros [-> ->]%mapM_Ok_nil. split; [apply ExtP_refl|]. split; [constructor|done].
  - intros (r & s1 & rs' & Hr & H & ->)%mapM_Ok_cons.
    apply bind_Ok in Hr as (r0 & s2 & Hg & Hr).
    apply bind_Ok in Hr as (u & s3 & Hb & Hr). apply ret_Ok in Hr as [-> ->].
    apply IH in H as (HE & Hnd & Hlen).
    pose proof (ExtP_pending_fresh _ _ _ _ HE) as Hfresh.
    pose proof (ExtP_generate_unique_name strict ∅ _ _ _ _ Hg) as H1.
    pose proof (ExtP_bind_name strict ({[r]} ∪ ∅) _ _ _ _ _ _ _ Hb) as H2.
    pose proof (ExtP_trans _ _ _ _ _ _ _ H1 H2) as H12.
    assert (r ∈ _used_vars s1) as Hr1.
    { destruct H12 as [_ _ _ _ _ _ _ _ _ _ Hst]. destruct Hst as [HQ _]; [done|].
      apply HQ. set_solver. }
    split; [|split; [|simpl; by rewrite Hlen]].
    + eapply ExtP_forget; [|eapply ExtP_trans; [exact H12|]].
      2: { exact (ExtP_frame_r _ _ ({[r]} ∪ ∅) _ _ HE). }
      set_solver.
    + constructor; [|done]. intros Hin.
      destruct (Hfresh r) as [Hn _]; [set_solver|]. done.
Qed.

(** A node that defines pending names. *)
Lemma Ext_emit_pending strict Q st s outs op ins attrs u s' :
  ExtP strict ∅ Q st s → emit outs op ins attrs s = Ok (u, s') →
  NoDup (node_names (mkIRStmt outs op ins attrs)) →
  (∀ n, n ∈ node_names (mkIRStmt outs op ins attrs) → n ∈ Q) →
  Ext strict st s'.
Proof.
  intros H1 He Hd Hin.
  eapply ExtP_forget; [|eapply ExtP_trans; [exact H1|by eapply ExtP_emit]].
  set_solver.
Qed.

(** A control node: its outputs are renamed variables, its attributes
    carry subgraphs whose names are pending. *)
Lemma Ext_renamed_emit strict kind G st s l rs s1 op ins attrs u s' :
  ExtP strict ∅ G st s →
  mapM (λ x, r <- generate_unique_name x ;;
             bind_name x (Dynamic r kind None) ;;; ret r) l s = Ok (rs, s1) →
  emit rs op ins attrs s1 = Ok (u, s') →
  NoDup (concat (map attr_names attrs)) →
  (∀ n, n ∈ concat (map attr_names attrs) → n ∈ G) →
  Ext strict st s'.
Proof.
  intros HG (HR & Hnd & _)%(rename_ExtP strict) He Hna Hin.
  pose proof (ExtP_pending_fresh _ _ _ _ HG) as HfG.
  pose proof (ExtP_pending_fresh _ _ _ _ HR) as HfR.
  eapply Ext_emit_pending; [|exact He| |].
  - eapply ExtP_trans; [exact HG|]. exact (ExtP_frame_r _ _ _ _ _ HR).
  - simpl. apply NoDup_app. split; [done|]. split; [|done].
    intros n Hn1 Hn2. destruct (HfR n); [set_solver|].
    destruct (HfG n); [by apply Hin|]. done.
  - simpl. intros n [Hn|Hn]%elem_of_app; [set_solver|].
    apply elem_of_union. right. by apply Hin.
Qed.

Lemma assigned_names_app f new f' :
  stmts f' = stmts f ++ new → ∀ n, n ∈ assigned_names f → n ∈ assigned_names f'.
Proof.
  unfold assigned_names. intros -> n Hn. rewrite map_app, concat_app.
  apply elem_of_app. by left.
Qed.

Lemma Ext_assigned_names strict st st' n :
  Ext strict st st' → n ∈ assigned_names (_current_fn st) →
  n ∈ assigned_names (_current_fn st').
Proof.
  intros (new & E & _)%Ext_fresh. by apply assigned_names_app with new.
Qed.

Lemma Ext_false strict st st' : Ext strict st st' → Ext false st st'.
Proof. destruct strict; [apply ExtP_weaken | done]. Qed.

Lemma copy_unless_assigned_spec output pvar st r st' :
  copy_unless_assigned output (_current_fn st) pvar st = Ok (r, st') →
  Ext true st st' ∧ r ∈ assigned_names (_current_fn st').
Proof.
  assert (∀ o, emit_copy o pvar st = Ok (r, st') →
               Ext true st st' ∧ r ∈ assigned_names (_current_fn st')) as Hcopy.
  { intros o H. destruct (emit_copy_spec true _ _ _ _ _ H) as (HE & _ & node & E & Hr & _).
    split; [done|]. unfold assigned_names. rewrite E, map_app, concat_app.
    apply elem_of_app. right. simpl. rewrite Hr. set_solver. }
  unfold copy_unless_assigned. destruct output as [s| |e]; [|by apply Hcopy..].
  destruct (bool_decide _) eqn:E; [by apply Hcopy|].
  intros [<- <-]%ret_Ok. split; [apply Ext_refl|].
  apply bool_decide_eq_false in E. by apply dec_stable in E.
Qed.

Lemma declare_output_outputs varname t st u st' :
  declare_output varname t st = Ok (u, st') →
  fn_outputs (_current_fn st') = fn_outputs (_current_fn st) ++ [(varname, t)] ∧
  fn_inputs (_current_fn st') = fn_inputs (_current_fn st) ∧
  stmts (_current_fn st') = stmts (_current_fn st).
Proof.
  unfold declare_output. intros ->%modify_Ok. simpl. by destruct (_current_fn st).
Qed.

Lemma Ext_io st st' :
  Ext true st st' →
  fn_inputs (_current_fn st') = fn_inputs (_current_fn st) ∧
  fn_outputs (_current_fn st') = fn_outputs (_current_fn st).
Proof. intros [_ _ _ _ Hio _ _ _ _ _ _]. by apply Hio. Qed.

Section statement_frames.
Variable defs : list ast.stmt → gset string.
Variable exposed_uses : list ast.stmt → gset string.
Variable translate_expr : ast.expr → option string → M ConverterExpression.
Variable translate_stmt : ast.stmt → M unit.
Hypothesis translate_expr_frame :
  ∀ strict node target st r st',
    translate_expr node target st = Ok (r, st') → Ext strict st st'.
Hypothesis translate_stmt_frame :
  ∀ node st r st', translate_stmt node st = Ok (r, st') → Ext true st st'.

Local Hint Resolve translate_expr_frame : ext.

Lemma translate_stmt_frame' strict node st r st' :
  translate_stmt node st = Ok (r, st') → Ext strict st st'.
Proof. intros H. eapply Ext_strict_of, translate_stmt_frame, H. Qed.

Local Hint Resolve translate_stmt_frame' : ext.

Lemma translate_assign_stmt_Ext strict lhs rhs st u st' :
  translate_assign_stmt translate_expr lhs rhs st = Ok (u, st') →
  Ext strict st st'.
Proof.
  unfold translate_assign_stmt. intros H. monad_inv H. ext_chain.
Qed.

(** One output of a block: declared once, and defined by a node of the
    block. *)
Lemma block_output_spec stmts pvar st u st' :
  block_output stmts pvar st = Ok (u, st') →
  Ext false st st' ∧
  fn_inputs (_current_fn st') = fn_inputs (_current_fn st) ∧
  ∃ o t, fn_outputs (_current_fn st') = fn_outputs (_current_fn st) ++ [(o, t)] ∧
         o ∈ assigned_names (_current_fn st').
Proof.
  unfold block_output. intros H.
  apply bind_Ok in H as (scope & s0 & [-> _]%current_scope_inv & H).
  destruct (scope !! pvar) as [pv_val|] eqn:E.
  - apply bind_Ok in H as (output & s1 & Ho & H).
    apply bind_Ok in H as (c & s2 & [-> ->]%get_Ok & H).
    apply bind_Ok in H as (out & s3 & [Hc Hin]%copy_unless_assigned_spec & H).
    pose proof (to_onnx_var_Ext true _ _ _ _ _ Ho) as Ho'.
    pose proof (declare_output_outputs _ _ _ _ _ H) as (Hout & Hinp & Hst).
    destruct (Ext_io _ _ Ho') as [I1 O1]. destruct (Ext_io _ _ Hc) as [I2 O2].
    split; [|split].
    + eapply Ext_trans; [exact (Ext_false _ _ _ Ho')|].
      eapply Ext_trans; [exact (Ext_false _ _ _ Hc)|]. by eapply declare_output_Ext.
    + congruence.
    + exists out, (Value_typeinfo pv_val). split; [congruence|].
      unfold assigned_names in *. by rewrite Hst.
  - apply bind_Ok in H as (c & s2 & [-> ->]%get_Ok & H).
    destruct (lookup_scopes pvar (_locals st)) as [pv_val|] eqn:E2;
      [|destruct stmts; discriminate H].
    apply bind_Ok in H as (ovar & s1 & Hg & H).
    apply bind_Ok in H as (op & s2 & Hop & H).
    pose proof Hop as [_ ->]%default_op_opname.
    apply bind_Ok in H as (input & s3 & Hi & H).
    apply bind_Ok in H as ([] & s4 & He & H).
    pose proof (declare_output_outputs _ _ _ _ _ H) as (Hout & Hinp & Hst).
    assert (Ext true st s4) as HE.
    { eapply Ext_emit_generated; [exact Hg| |exact He|done].
      by eapply to_onnx_var_Ext. }
    destruct (Ext_io _ _ HE) as [I1 O1].
    split; [|split].
    + eapply Ext_trans; [exact (Ext_false _ _ _ HE)|]. by eapply declare_output_Ext.
    + congruence.
    + exists ovar, None. split; [congruence|].
      unfold assigned_names. rewrite Hst.
      apply emit_stmts in He as (He & _). rewrite He, map_app, concat_app.
      apply elem_of_app. right. simpl. set_solver.
Qed.

Lemma block_outputs_spec stmts live_defs :
  ∀ st u st',
    forM_ (block_output stmts) live_defs st = Ok (u, st') →
    Ext false st st' ∧
    fn_inputs (_current_fn st') = fn_inputs (_current_fn st) ∧
    ∃ outs, fn_outputs (_current_fn st') = fn_outputs (_current_fn st) ++ outs ∧
            length outs = length live_defs ∧
            Forall (λ o, o.1 ∈ assigned_names (_current_fn st')) outs.
Proof.
  induction live_defs as [|pvar live_defs IH]; intros st u st'.
  - intros [_ ->]%ret_Ok. split; [apply Ext_refl|]. split; [done|].
    exists []. by rewrite app_nil_r.
  - intros (s1 & (H1 & I1 & o & t & O1 & A1)%block_output_spec
            & (H2 & I2 & outs & O2 & L2 & A2)%IH)%forM__Ok_cons.
    split; [by eapply Ext_trans|]. split; [congruence|].
    exists ((o, t) :: outs). split; [by rewrite O2, O1, <- app_assoc|].
    split; [simpl; by rewrite L2|]. constructor; [|done].
    simpl. by eapply Ext_assigned_names.
Qed.

(** A branch subgraph: it has no declared input and one declared output
    per live variable, each defined by a node of the subgraph. *)
Lemma translate_block_spec strict stmts name live_defs st g st' :
  translate_block translate_stmt stmts name live_defs st = Ok (g, st') →
  ExtP strict ∅ (list_to_set (fn_names g)) st st' ∧ NoDup (fn_names g) ∧
  _current_fn st' = _current_fn st ∧ _locals st' = _locals st ∧
  _outer st' = _outer st ∧ default_opset_ st' = default_opset_ st ∧
  fn_inputs g = [] ∧ length (fn_outputs g) = length live_defs ∧
  Forall (λ o, o.1 ∈ assigned_names g) (fn_outputs g).
Proof.
  unfold translate_block. intros H.
  apply bind_Ok in H as ([] & s0 & He & H).
  apply bind_Ok in H as ([] & s1 & Hs & H).
  apply bind_Ok in H as ([] & s2 & Ho & H).
  apply (forM__Ext true) in Hs; [|intros; by eapply translate_stmt_frame].
  apply block_outputs_spec in Ho as (Ho & I2 & outs & O2 & L2 & A2).
  destruct (Ext_io _ _ Hs) as [I1 O1].
  destruct (scope_ExtP strict _ _ _ _ _ _ _ He
              (Ext_trans _ _ _ _ (Ext_false _ _ _ Hs) Ho) H)
    as (HE & Hnd & Hf & Hl & Hou & Hop & ->).
  apply enter_scope_Ok in He. subst s0. simpl in *.
  rewrite O2, O1, I2, I1. simpl. done.
Qed.

Lemma translate_if_stmt_Ext strict stmt test body orelse live_out st u st' :
  translate_if_stmt defs translate_expr translate_stmt stmt test body orelse
    live_out st = Ok (u, st') →
  Ext strict st st'.
Proof.
  unfold translate_if_stmt. intros H.
  apply bind_Ok in H as (t & s1 & Ht & H).
  apply bind_Ok in H as (g1 & s2 & (H1 & D1 & _)%(translate_block_spec strict) & H).
  apply bind_Ok in H as (g2 & s3 & (H2 & D2 & _)%(translate_block_spec strict) & H).
  apply bind_Ok in H as (renamed & s4 & Hr & H).
  destruct (negb _); [discriminate H|].
  destruct (bool_decide _); [discriminate H|].
  apply bind_Ok in H as (op & s5 & Hop & H).
  pose proof Hop as [_ ->]%default_op_opname.
  pose proof (ExtP_pending_fresh _ _ _ _ H1) as F1.
  pose proof (ExtP_pending_fresh _ _ _ _ H2) as F2.
  eapply Ext_trans; [by eapply translate_expr_frame|].
  eapply (Ext_renamed_emit strict Intermediate
            (list_to_set (fn_names g2) ∪ list_to_set (fn_names g1)));
    [|exact Hr|exact H| |].
  - eapply ExtP_trans; [exact H1|]. exact (ExtP_frame_r _ _ _ _ _ H2).
  - simpl. rewrite app_nil_r. apply NoDup_app. split; [done|]. split; [|done].
    intros n Hn1 Hn2. destruct (F1 n) as [_ ?]; [set_solver|].
    destruct (F2 n) as [? _]; [set_solver|]. done.
  - simpl. rewrite app_nil_r. set_solver.
Qed.

Lemma Value_value_state v st r st' : Value_value v st = Ok (r, st') → st' = st.
Proof. destruct v; simpl; intros H; monad_inv H; done. Qed.

Lemma translate_loop_body_Ext n body :
  ∀ i condition_name operator_name st r st',
    translate_loop_body translate_stmt n i body condition_name operator_name st
    = Ok (r, st') → Ext false st st'.
Proof.
  induction body as [|s body IH]; intros i c o st r st' H; simpl in H.
  - apply ret_Ok in H as [_ ->]. apply Ext_refl.
  - destruct (is_break_test s) as [test|].
    + destruct test; try discriminate H.
      destruct (bool_decide _); [discriminate H|].
      apply bind_Ok in H as (sc & s0 & [-> _]%current_scope_inv & H).
      destruct (sc !! id); [|discriminate H].
      apply bind_Ok in H as (cn & s1 & ->%Value_value_state & H).
      by eapply IH.
    + apply bind_Ok in H as ([] & s1 & Hs & H).
      eapply Ext_trans; [by eapply translate_stmt_frame'|]. by eapply IH.
Qed.

Lemma loop_state_input_Ext pv st u st' :
  loop_state_input pv st = Ok (u, st') → Ext false st st'.
Proof.
  unfold loop_state_input. intros H.
  apply bind_Ok in H as (ov & s1 & Hg & H).
  apply bind_Ok in H as ([] & s2 & Hd & H).
  eapply Ext_trans; [exact (Ext_generate_unique_name _ _ _ _ _ Hg)|].
  eapply Ext_trans; [exact (declare_input_Ext _ _ _ _ _ Hd)|].
  exact (bind_name_Ext _ _ _ _ _ _ _ _ H).
Qed.

Lemma loop_state_output_Ext pv st u st' :
  loop_state_output pv st = Ok (u, st') → Ext false st st'.
Proof.
  unfold loop_state_output. intros H.
  apply bind_Ok in H as (ov & s1 & Ho & H).
  apply bind_Ok in H as (c & s2 & [-> ->]%get_Ok & H).
  apply bind_Ok in H as (out & s3 & [Hc _]%copy_unless_assigned_spec & H).
  eapply Ext_trans; [by eapply py_var_to_onnx_var_Ext|].
  eapply Ext_trans; [exact (Ext_false _ _ _ Hc)|]. by eapply declare_output_Ext.
Qed.

Lemma loop_prologue_inv loop_state_vars p_loop_var i_cond_var st o_true st' :
  loop_prologue loop_state_vars p_loop_var i_cond_var st = Ok (o_true, st') →
  ∃ s1 s2, emit_const (PyBool true) (Some "true") st = Ok (o_true, s1) ∧
           enter_scope "loop_body" s1 = Ok (tt, s2) ∧ Ext false s2 st'.
Proof.
  unfold loop_prologue. intros H.
  apply bind_Ok in H as (o & s1 & Hc & H).
  apply bind_Ok in H as ([] & s2 & He & H).
  apply bind_Ok in H as (lv & s3 & Hg & H).
  apply bind_Ok in H as ([] & s4 & Hd & H).
  apply bind_Ok in H as ([] & s5 & Hb & H).
  apply bind_Ok in H as ([] & s6 & Hd2 & H).
  apply bind_Ok in H as ([] & s7 & Hf & H). apply ret_Ok in H as [<- <-].
  exists s1, s2. split; [done|]. split; [done|].
  eapply Ext_trans; [by eapply Ext_generate_unique_name|].
  eapply Ext_trans; [by eapply declare_input_Ext|].
  eapply Ext_trans; [by eapply bind_name_Ext|].
  eapply Ext_trans; [by eapply declare_input_Ext|].
  eapply forM__Ext; [|done]. intros. by eapply loop_state_input_Ext.
Qed.

Lemma loop_cond_var_state cond_while (o_cond_var : option string) st r st' :
  match cond_while with
  | Some cond_while =>
      current_scope <- current_scope ;;
      match current_scope !! cond_while with
      | None => fail
          "Unable to find condition variable {cond_while!r} in known variables {list(current_scope)!r}."
      | Some v => value <- Value_value v ;; ret (Some value)
      end
  | None => ret o_cond_var
  end st = Ok (r, st') → st' = st.
Proof.
  destruct cond_while as [c|]; [|by intros [_ ->]%ret_Ok].
  intros H. apply bind_Ok in H as (sc & s0 & [-> _]%current_scope_inv & H).
  destruct (sc !! c); [|discriminate H].
  apply bind_Ok in H as (cn & s1 & ->%Value_value_state & H).
  by apply ret_Ok in H as [_ ->].
Qed.

(** The part of the loop epilogue that runs inside the scope of the
    body. *)
Lemma loop_epilogue_inv loop_state_vars o_loop_bound o_true cond_while
    o_cond_var condition_name operator_name st u st' :
  loop_epilogue loop_state_vars o_loop_bound o_true cond_while o_cond_var
    condition_name operator_name st = Ok (u, st') →
  ∃ s1 body s2 state s3,
    Ext false st s1 ∧ exit_scope s1 = Ok (body, s2) ∧
    mapM py_var_to_onnx_var (elements loop_state_vars) s2 = Ok (state, s3) ∧
    emit_loop (elements (loop_state_vars ∪ ∅)) "Loop"
      ([o_loop_bound; OExpr o_true] ++ state) [AttrGraph "body" body] s3
    = Ok (u, st').
Proof.
  unfold loop_epilogue. intros H.
  apply bind_Ok in H as (co & s1 & Hg & H).
  apply bind_Ok in H as (cv & s2 & ->%loop_cond_var_state & H).
  apply bind_Ok in H as (op & s3 & Hop & H).
  pose proof Hop as [_ ->]%default_op_opname.
  apply bind_Ok in H as ([] & s4 & He & H).
  apply bind_Ok in H as ([] & s5 & Hd & H).
  apply bind_Ok in H as ([] & s6 & Hf & H).
  apply bind_Ok in H as (body & s7 & Hx & H).
  apply bind_Ok in H as (state & s8 & Hm & H).
  exists s6, body, s7, state, s8. split; [|done].
  eapply Ext_trans.
  { eapply Ext_emit_generated; [exact Hg|apply Ext_refl|exact He|done]. }
  eapply Ext_trans; [by eapply declare_output_Ext|].
  eapply forM__Ext; [|done]. intros. by eapply loop_state_output_Ext.
Qed.

Lemma emit_loop_Ext strict G st s outputs callee inputs body u s' :
  ExtP strict ∅ (list_to_set (fn_names body)) st s → NoDup (fn_names body) →
  emit_loop outputs callee inputs [AttrGraph G body] s = Ok (u, s') →
  Ext strict st s'.
Proof.
  unfold emit_loop. intros HG Hnd H.
  apply bind_Ok in H as (rs & s1 & Hr & H).
  apply bind_Ok in H as (op & s2 & Hop & H).
  pose proof Hop as [_ ->]%default_op_opname.
  eapply (Ext_renamed_emit strict Output); [exact HG|exact Hr|exact H| |].
  - simpl. by rewrite app_nil_r.
  - simpl. rewrite app_nil_r. set_solver.
Qed.

Lemma translate_loop_stmt_body_Ext strict body live_out p_loop_var o_loop_bound
    i_cond_var cond_while o_cond_var st u st' :
  translate_loop_stmt_body defs exposed_uses translate_stmt body live_out
    p_loop_var o_loop_bound i_cond_var cond_while o_cond_var st = Ok (u, st') →
  Ext strict st st'.
Proof.
  unfold translate_loop_stmt_body. intros H.
  apply bind_Ok in H as (o_true & s1 & (sa & sb & Hc & He & Hp)%loop_prologue_inv & H).
  apply bind_Ok in H as (b & s2 & Hb%translate_loop_body_Ext & H).
  apply loop_epilogue_inv in H as (s3 & g & s4 & state & s5 & Hi & Hx & Hm & Hl).
  destruct (scope_ExtP strict _ _ _ _ _ _ _ He
              (Ext_trans _ _ _ _ Hp (Ext_trans _ _ _ _ Hb Hi)) Hx)
    as (HE & Hnd & _).
  eapply Ext_trans; [by eapply emit_const_Ext|].
  eapply emit_loop_Ext; [|exact Hnd|exact Hl].
  eapply ExtP_trans; [exact HE|]. apply Ext_frame.
  eapply mapM_Ext; [|exact Hm]. intros. by eapply py_var_to_onnx_var_Ext.
Qed.

Lemma translate_loop_stmt_Ext strict loop_stmt st u st' :
  translate_loop_stmt defs exposed_uses translate_expr translate_stmt loop_stmt st
  = Ok (u, st') → Ext strict st st'.
Proof.
  unfold translate_loop_stmt. intros H.
  destruct loop_stmt as [| |target iter_func iter_args body live_out
                         |test body live_out|]; try discriminate H.
  - destruct target; try discriminate H. destruct iter_func; try discriminate H.
    destruct (bool_decide _); [discriminate H|].
    destruct iter_args as [|bound [|]]; try discriminate H.
    apply bind_Ok in H as (b & s1 & Hb & H).
    apply bind_Ok in H as (c & s2 & Hg & H).
    eapply Ext_trans; [by eapply translate_expr_frame|].
    eapply Ext_trans; [by eapply Ext_generate_unique_name|].
    by eapply translate_loop_stmt_body_Ext.
  - destruct test; try discriminate H. by eapply translate_loop_stmt_body_Ext.
Qed.

Lemma translate_stmt_body_Ext strict node st u st' :
  translate_stmt_body defs exposed_uses translate_expr translate_stmt node st
  = Ok (u, st') → Ext strict st st'.
Proof.
  destruct node; intros H.
  - exact (translate_assign_stmt_Ext _ _ _ _ _ _ H).
  - exact (translate_if_stmt_Ext _ _ _ _ _ _ _ _ _ H).
  - exact (translate_loop_stmt_Ext _ _ _ _ _ H).
  - exact (translate_loop_stmt_Ext _ _ _ _ _ H).
  - discriminate H.
Qed.
End statement_frames.

Lemma translate_stmt_Ext defs exposed_uses fuel :
  ∀ strict node st u st',
    translate_stmt defs exposed_uses fuel node st = Ok (u, st') →
    Ext strict st st'.
Proof.
  induction fuel as [|fuel IH]; intros strict node st u st' H; [discriminate H|].
  simpl in H. eapply translate_stmt_body_Ext; [| |exact H].
  - intros. by eapply translate_expr_Ext.
  - intros. by eapply IH.
Qed.

(** ** Uniqueness of value names *)

Lemma Ext_well_named strict st st' :
  Ext strict st st' → well_named st → well_named st'.
Proof.
  intros HE [Hnd Hin]. pose proof HE as (new & E & Hd & Hf)%Ext_fresh.
  destruct HE as [_ _ _ _ _ _ _ Hu _ _ _].
  unfold well_named. rewrite E, nodes_names_app. split.
  - apply NoDup_app. split; [done|]. split; [|done].
    intros n Hn1 Hn2. destruct (Hf n Hn2) as [Hfresh _]. by apply Hfresh, Hin.
  - intros n [Hn|Hn]%elem_of_app; [apply Hu, Hin, Hn|]. by destruct (Hf n Hn).
Qed.

Lemma translate_stmts_Ext defs exposed_uses fuel body st u st' :
  forM_ (translate_stmt defs exposed_uses fuel) body st = Ok (u, st') →
  Ext true st st'.
Proof.
  apply (forM__Ext true). intros x s r s' _ Hx.
  exact (translate_stmt_Ext _ _ _ _ _ _ _ _ Hx).
Qed.

(** The unique-name generator always returns a name; the name was not in
    use, is recorded as used and nothing else changes in the used set. *)
Theorem generate_unique_name_fresh (candidate : string) (st : Converter) :
  ∃ r st',
    generate_unique_name candidate st = Ok (r, st') ∧
    r ∉ _used_vars st ∧ _used_vars st' = {[r]} ∪ _used_vars st ∧
    _nextvar st ≤ _nextvar st' ∧
    (candidate ∉ _used_vars st → r = candidate).
Proof.
  destruct (generate_unique_name_Ok candidate st) as (r & n & H & Hr & Hn).
  eexists _, _. split; [exact H|]. split; [exact Hr|]. split; [reflexivity|].
  split; [exact Hn|].
  intros Hc. rewrite (generate_unique_name_unused _ _ Hc) in H. congruence.
Qed.

(** Two names the generator returns during one translation differ, however
    many statements are translated between the two calls. *)
Theorem generated_names_differ defs exposed_uses fuel body c1 c2 st r1 st1 u st2
    r2 st3 :
  generate_unique_name c1 st = Ok (r1, st1) →
  forM_ (translate_stmt defs exposed_uses fuel) body st1 = Ok (u, st2) →
  generate_unique_name c2 st2 = Ok (r2, st3) →
  r1 ≠ r2.
Proof.
  intros H1 Hb H2 ->.
  apply generate_unique_name_frame in H1 as (_ & Hu1 & _).
  apply generate_unique_name_frame in H2 as (Hr2 & _).
  apply translate_stmts_Ext in Hb.
  destruct Hb as [_ _ _ _ _ _ _ Hu _ _ _].
  apply Hr2, Hu. rewrite Hu1. apply elem_of_union. left. by apply elem_of_singleton.
Qed.

(** The nodes that the translation of a list of statements appends to the
    function under construction define (in their subgraphs too) pairwise
    distinct names, none of which was in use before; declared inputs and
    outputs, enclosing functions and enclosing scopes are as before. *)
Theorem translate_stmts_fresh_names defs exposed_uses fuel body st u st' :
  forM_ (translate_stmt defs exposed_uses fuel) body st = Ok (u, st') →
  (∃ new, stmts (_current_fn st') = stmts (_current_fn st) ++ new ∧
          fresh_names st st' (nodes_names new)) ∧
  fn_inputs (_current_fn st') = fn_inputs (_current_fn st) ∧
  fn_outputs (_current_fn st') = fn_outputs (_current_fn st) ∧
  _outer st' = _outer st ∧ tail (_locals st') = tail (_locals st) ∧
  (well_named st → well_named st').
Proof.
  intros Hb. apply translate_stmts_Ext in Hb.
  split; [exact (Ext_fresh _ _ _ Hb)|].
  destruct (Ext_io _ _ Hb) as [HI HO].
  pose proof (Ext_well_named _ _ _ Hb) as Hw.
  destruct Hb as [_ _ Ho _ _ [Ht _] _ _ _ _ _].
  split; [exact HI|]. split; [exact HO|]. split; [exact Ho|]. split; [exact Ht|].
  exact Hw.
Qed.

Lemma translate_stmts_fresh_names_witness :
  well_named
    (state_of (forM_ (translate_stmt example_defs example_exposed_uses 4)
                 [example_if] example_state)).
Proof.
  eapply (translate_stmts_fresh_names example_defs example_exposed_uses 4
            [example_if] example_state tt).
  - vm_compute. reflexivity.
  - split; [constructor | intros n Hn; by apply elem_of_nil in Hn].
Defined.

Lemma generated_names_differ_witness :
  "x" ≠ "x_4".
Proof.
  eapply (generated_names_differ example_defs example_exposed_uses 4 [example_if]
            "x" "x" example_state "x"
            (state_of (generate_unique_name "x" example_state)) tt
            (state_of (forM_ (translate_stmt example_defs example_exposed_uses 4)
                         [example_if]
                         (state_of (generate_unique_name "x" example_state))))
            "x_4"
            (state_of (generate_unique_name "x"
               (state_of (forM_ (translate_stmt example_defs example_exposed_uses 4)
                         [example_if]
                         (state_of (generate_unique_name "x" example_state)))))));
    vm_compute; reflexivity.
Defined.

(** ** Scopes *)

(** Entering a scope and leaving it at once gives back the state as it
    was, with the empty function of the given name; leaving a scope fails
    exactly when no scope was entered. *)
Theorem scope_round_trip (name : string) (st : Converter) :
  (enter_scope name ;;; exit_scope) st = Ok (new_function name, st) ∧
  ((∃ msg, exit_scope st = Raise (IndexError msg)) ↔
   _outer st = [] ∨ _locals st = []).
Proof.
  split; [by destruct st|].
  unfold exit_scope, bind, get, modify, ret, raise.
  destruct (_outer st) as [|f outer], (_locals st) as [|sc locals]; simpl;
    split; try (intros [msg [=]]); try (intros [[=]|[=]]); eauto.
Qed.

(** A name bound in the innermost scope is what [lookup] finds
    afterwards; the other names resolve as before. *)
Theorem lookup_bind_name x v st u st' :
  bind_name x v st = Ok (u, st') →
  lookup x st' = Ok (v, st') ∧
  ∀ y, y ≠ x →
       lookup y st' = match lookup y st with
                      | Ok (w, _) => Ok (w, st')
                      | Raise e => Raise e
                      end.
Proof.
  intros (scope & locals & E & ->)%bind_name_frame.
  unfold lookup, bind, get. simpl. rewrite E. simpl. split.
  - by rewrite lookup_insert_eq.
  - intros y Hy. rewrite lookup_insert_ne by done.
    destruct (scope !! y); [done|]. destruct (lookup_scopes y locals); [done|].
    by destruct (globals st !! y).
Qed.

Lemma lookup_bind_name_witness :
  lookup "x" (state_of (bind_name "x" (Dynamic "x_0" Intermediate None) example_state))
  = Ok (Dynamic "x_0" Intermediate None,
        state_of (bind_name "x" (Dynamic "x_0" Intermediate None) example_state)).
Proof.
  eapply (lookup_bind_name "x" (Dynamic "x_0" Intermediate None) example_state tt).
  vm_compute. reflexivity.
Defined.

(** ** Autocast: one result per argument *)

(** The shared two-pass algorithm returns one result per actual
    argument. *)
Theorem cast_inputs_length {S A TI B} (get_type_info : A → option TI)
    (cast : A → option TI → SE S B) op_schema args s rs s' :
  cast_inputs get_type_info cast op_schema args s = Ok (rs, s') →
  length rs = length args.
Proof.
  unfold cast_inputs. destruct op_schema as [sch|].
  - destruct (bind_typevars _ _ _ _ _ _) as [[tb atv]|e] eqn:E; [|discriminate].
    intros H%mapM_length. apply bind_typevars_Ok in E as [-> _].
    rewrite H. simpl. by rewrite length_imap.
  - apply mapM_length.
Qed.

Lemma cast_inputs_length_witness :
  length [Some "A"; Some "c"] = 2.
Proof.
  eapply (cast_inputs_length static_get_type_info static_cast
            (Some {| inputs := [T_single; T_single] |})
            [ {| ce_name := Some "A"; ce_kind := ANY |};
              {| ce_name := Some "c"; ce_kind := ANY |} ] example_state
            [Some "A"; Some "c"] example_state).
  vm_compute. reflexivity.
Defined.

(** ** Forward runs *)

Lemma bind_run {S A B} (m : SE S A) (k : A → SE S B) s a s1 :
  m s = Ok (a, s1) → bind m k s = k a s1.
Proof. unfold bind. by intros ->. Qed.

Lemma bind_fail {S A B} (m : SE S A) (k : A → SE S B) s e :
  m s = Raise e → bind m k s = Raise e.
Proof. unfold bind. by intros ->. Qed.

Lemma default_op_run name st o :
  default_opset_ st = Some o → default_op name st = Ok (mkOp o name, st).
Proof. intros H. apply default_op_Ok. eauto. Qed.

(** ** Branch subgraphs *)

(** The subgraph of a block has no declared input and one declared output
    per live variable, each of them defined by a node of the subgraph
    itself; the names its nodes define are fresh and pairwise distinct;
    the enclosing function and scopes are as before the block. *)
Theorem translate_block_outputs defs exposed_uses fuel stmts name live_defs st g st' :
  translate_block (translate_stmt defs exposed_uses fuel) stmts name live_defs st
  = Ok (g, st') →
  fn_inputs g = [] ∧ length (fn_outputs g) = length live_defs ∧
  Forall (λ o, o.1 ∈ assigned_names g) (fn_outputs g) ∧
  NoDup (fn_names g) ∧
  (∀ n, n ∈ fn_names g → n ∉ _used_vars st ∧ n ∈ _used_vars st') ∧
  _current_fn st' = _current_fn st ∧ _locals st' = _locals st ∧
  _outer st' = _outer st.
Proof.
  intros H.
  pose proof (translate_block_spec defs exposed_uses (translate_expr fuel)
                (translate_stmt defs exposed_uses fuel) (translate_expr_Ext fuel)
                (translate_stmt_Ext defs exposed_uses fuel true)
                false _ _ _ _ _ _ H)
    as (HE & Hnd & Hf & Hl & Ho & _ & Hi & Hlen & Hall).
  split; [exact Hi|]. split; [exact Hlen|]. split; [exact Hall|].
  split; [exact Hnd|]. split; [|done].
  intros n Hn. apply (ExtP_pending_fresh _ _ _ _ HE).
  by apply elem_of_list_to_set.
Qed.

Lemma translate_block_outputs_witness :
  length (fn_outputs
            (graph_of (translate_block
                         (translate_stmt example_defs example_exposed_uses 3)
                         example_body "thenGraph" ["x"; "A"] example_state)))
  = 2.
Proof.
  refine (proj1 (proj2 (translate_block_outputs example_defs example_exposed_uses 3
                          example_body "thenGraph" ["x"; "A"] example_state _
                          (state_of (translate_block
                             (translate_stmt example_defs example_exposed_uses 3)
                             example_body "thenGraph" ["x"; "A"] example_state))
                          _))).
  vm_compute. reflexivity.
Defined.

(** ** Constants *)

(** A value that converts to a tensor becomes one [Constant] node whose
    output is a fresh name; the result is a constant expression of that
    name. *)
Theorem emit_const_total v suggested_name st o :
  default_opset_ st = Some o →
  (∀ n, ∃ t, pyvalue_to_onnx_tensor n v = Ok t) →
  ∃ r t st',
    emit_const v suggested_name st
    = Ok ({| ce_name := Some r; ce_kind := CONST |}, st') ∧
    r ∉ _used_vars st ∧ pyvalue_to_onnx_tensor r v = Ok t ∧
    stmts (_current_fn st')
    = stmts (_current_fn st) ++
      [mkIRStmt [r] (mkOp o "Constant") [] [AttrTensor "value" t]] ∧
    _locals st' = _locals st ∧ default_opset_ st' = Some o.
Proof.
  intros Ho Hv. unfold emit_const. cbv zeta.
  match goal with
  | |- context [generate_unique_name ?c] =>
      destruct (generate_unique_name_Ok c st) as (r & n & Hg & Hr & Hn);
      rewrite (bind_run _ _ _ _ _ Hg)
  end.
  destruct (Hv r) as [t Ht]. rewrite Ht.
  rewrite (bind_run _ _ _ _ _
             (default_op_run "Constant" (set_names n ({[r]} ∪ _used_vars st) st) o Ho)).
  exists r, t. eexists. split; [reflexivity|].
  split; [exact Hr|]. split; [exact Ht|]. simpl.
  by destruct (_current_fn st).
Qed.

Lemma emit_const_total_witness :
  ∃ r t st',
    emit_const (PyInt 1) None example_state
    = Ok ({| ce_name := Some r; ce_kind := CONST |}, st') ∧
    r ∉ _used_vars example_state ∧ pyvalue_to_onnx_tensor r (PyInt 1) = Ok t ∧
    stmts (_current_fn st')
    = stmts (_current_fn example_state) ++
      [mkIRStmt [r] (mkOp example_opset "Constant") [] [AttrTensor "value" t]] ∧
    _locals st' = _locals example_state ∧ default_opset_ st' = Some example_opset.
Proof.
  apply (emit_const_total (PyInt 1) None example_state example_opset).
  - reflexivity.
  - intros n. eexists. reflexivity.
Defined.

(** A value that does not convert to a tensor makes [emit_const] fail
    with a translation error that carries the message of the value error;
    no name is taken and no node is emitted. *)
Theorem emit_const_value_error v suggested_name st e :
  (∀ n, pyvalue_to_onnx_tensor n v = Raise (ValueError e)) →
  emit_const v suggested_name st = Raise (TranslationError e).
Proof.
  intros Hv. unfold emit_const. cbv zeta.
  match goal with
  | |- context [generate_unique_name ?c] =>
      destruct (generate_unique_name_Ok c st) as (r & n & Hg & Hr & Hn);
      rewrite (bind_run _ _ _ _ _ Hg)
  end.
  by rewrite Hv.
Qed.

Lemma emit_const_value_error_witness :
  emit_const (PyList []) None example_state
  = Raise (TranslationError "Cannot convert an empty list to tensor").
Proof.
  apply emit_const_value_error. intros n. reflexivity.
Defined.

(** ** Operators *)

(** A negated literal is folded: [-c] lowers exactly as the literal of
    the negated value, and the requested result name is not used. *)
Theorem negative_literal_folded fuel val v target st :
  py_neg val = Ok v →
  translate_expr (S fuel) (ast.UnaryOp ast.USub (ast.Constant val)) target st
  = translate_expr fuel (ast.Constant v) None st.
Proof.
  intros Hv. simpl. unfold translate_expr_body, translate_unary_op_expr. simpl.
  rewrite Hv. unfold bind.
  by destruct (translate_expr fuel (ast.Constant v) None st) as [[e s]|].
Qed.

Lemma negative_literal_folded_witness :
  translate_expr 2 (ast.UnaryOp ast.USub (ast.Constant (PyInt 5))) (Some "y")
    example_state
  = translate_expr 1 (ast.Constant (PyInt (-5))) None example_state.
Proof. apply negative_literal_folded. reflexivity. Defined.

(** [a != b] lowers to an [Equal] node followed by a [Not] node that
    negates its output; the [Not] node defines the result. *)
Theorem not_equal_lowering fuel l r target st e st' :
  translate_expr (S fuel) (ast.Compare l ast.NotEq r) target st = Ok (e, st') →
  ∃ o pre tmp lhs rhs res,
    stmts (_current_fn st')
    = stmts (_current_fn st) ++ pre ++
      [mkIRStmt [tmp] (mkOp o "Equal") [lhs; rhs] [];
       mkIRStmt [res] (mkOp o "Not") [OName tmp] []] ∧
    e = {| ce_name := Some res; ce_kind := ANY |} ∧ tmp ≠ res.
Proof.
  simpl. unfold translate_expr_body. intros H.
  apply bind_Ok in H as (rr & s1 & Hc & H).
  unfold translate_compare_expr in Hc. simpl in Hc.
  apply bind_Ok in Hc as (lv & sa & Hl & Hc).
  apply bind_Ok in Hc as (rv & sb & Hr & Hc).
  change (bool_decide ("NotEqual" = "NotEqual")) with true in Hc. cbv iota in Hc.
  apply bind_Ok in Hc as (op & sc & (o & Ho & -> & ->)%default_op_Ok & Hc).
  apply bind_Ok in Hc as (lr & sd & Hcast & Hc).
  apply bind_Ok in Hc as (tmp & se & Hg & Hc).
  apply bind_Ok in Hc as ([] & sf & He & Hc).
  apply bind_Ok in Hc as (nop & sg & (o' & Ho' & -> & ->)%default_op_Ok & Hc).
  apply ret_Ok in Hc as [<- <-].
  apply bind_Ok in H as (res & sh & Hg2 & H).
  apply bind_Ok in H as ([] & si & He2 & H). apply ret_Ok in H as [<- <-].
  assert (Ext true st sd) as HE.
  { eapply Ext_trans; [exact (translate_expr_Ext _ _ _ _ _ _ _ Hl)|].
    eapply Ext_trans; [exact (translate_expr_Ext _ _ _ _ _ _ _ Hr)|].
    exact (_cast_like_binary_expression_Ext _ _ _ _ _ _ _ Hcast). }
  apply Ext_fresh in HE as (pre & Epre & _).
  pose proof (generate_unique_name_frame _ _ _ _ Hg) as (_ & Hu1 & Hf1 & _ & Hop1 & _).
  pose proof (generate_unique_name_frame _ _ _ _ Hg2) as (Hfr2 & _ & Hf2 & _).
  apply emit_stmts in He as (He & _ & Hu2 & _ & Hop2 & _).
  apply emit_stmts in He2 as (He2 & _).
  pose proof (_cast_like_binary_expression_Ext true _ _ _ _ _ _ Hcast)
    as [Hopc _ _ _ _ _ _ _ _ _ _].
  assert (o' = o) as -> by congruence.
  exists o, pre, tmp, (fst lr), (snd lr), res. split; [|split; [done|]].
  - rewrite He2, Hf2, He, Hf1, Epre. by rewrite <- !app_assoc.
  - intros ->. apply Hfr2. rewrite Hu2, Hu1. set_solver.
Qed.

Lemma not_equal_lowering_witness :
  ∃ o pre tmp lhs rhs res,
    stmts (_current_fn
             (state_of (translate_expr 2 (ast.Compare (ast.Name "A") ast.NotEq
                                            (ast.Name "c")) None example_state)))
    = stmts (_current_fn example_state) ++ pre ++
      [mkIRStmt [tmp] (mkOp o "Equal") [lhs; rhs] [];
       mkIRStmt [res] (mkOp o "Not") [OName tmp] []] ∧
    {| ce_name := Some "tmp_0"; ce_kind := ANY |}
    = {| ce_name := Some res; ce_kind := ANY |} ∧ tmp ≠ res.
Proof.
  apply (not_equal_lowering 1 (ast.Name "A") (ast.Name "c") None example_state).
  vm_compute. reflexivity.
Defined.

(** ** The dynamic specialization of autocast *)

(** In a call with two arguments of the same type variable, a
    promotable literal next to a tensor is converted with the tensor's
    element type, whichever of the two comes first: the call returns the
    tensor unchanged and the converted literal when the conversion to
    that element type succeeds, and fails with the conversion's error
    when it does not. *)
Theorem dynamic_cast_literal_to_tensor_dtype p1 p2 d sh fl v :
  type_str p1 = type_str p2 → char_in lparen (type_str p1) = false →
  _promotable v = true →
  dynamic_cast_inputs (Some {| inputs := [p1; p2] |}) [PyTensor d sh fl; v] tt
  = match cast_pyvalue_to_os_tensor v (Some d) with
    | Ok t => Ok ([PyTensor d sh fl; t], tt)
    | Raise e => Raise e
    end ∧
  dynamic_cast_inputs (Some {| inputs := [p1; p2] |}) [v; PyTensor d sh fl] tt
  = match cast_pyvalue_to_os_tensor v (Some d) with
    | Ok t => Ok ([t; PyTensor d sh fl], tt)
    | Raise e => Raise e
    end ∧
  cast_pyvalue_to_os_tensor v (Some d) = Tensor_of_array v d.
Proof.
  intros Hty Hp Hv.
  assert (dynamic_get_type_info v = None) as Hi by (by destruct v).
  unfold dynamic_cast_inputs, cast_inputs. simpl.
  rewrite <- Hty, Hp, Hi. simpl.
  unfold bind, lift, cast_pyvalue_to_os_tensor. simpl.
  rewrite !lookup_insert_eq, Hv.
  by destruct (Tensor_of_array v d).
Qed.

Lemma dynamic_cast_literal_to_tensor_dtype_witness :
  dynamic_cast_inputs (Some {| inputs := [T_single; T_single] |})
    [tensor_f32; PyInt 2] tt
  = match cast_pyvalue_to_os_tensor (PyInt 2) (Some np_float32) with
    | Ok t => Ok ([tensor_f32; t], tt)
    | Raise e => Raise e
    end ∧
  dynamic_cast_inputs (Some {| inputs := [T_single; T_single] |})
    [PyInt 2; tensor_f32] tt
  = match cast_pyvalue_to_os_tensor (PyInt 2) (Some np_float32) with
    | Ok t => Ok ([t; tensor_f32], tt)
    | Raise e => Raise e
    end ∧
  cast_pyvalue_to_os_tensor (PyInt 2) (Some np_float32)
  = Tensor_of_array (PyInt 2) np_float32.
Proof.
  apply (dynamic_cast_literal_to_tensor_dtype T_single T_single np_float32 []
           [PyFloat 1] (PyInt 2)); reflexivity.
Defined.

(** An [int] next to a [float32] tensor becomes a [float32] tensor; next
    to an [int64] tensor, an [int] outside the 64-bit range makes the
    call fail. *)
Example dynamic_cast_int_next_to_tensor :
  dynamic_cast_inputs (Some {| inputs := [T_single; T_single] |})
    [tensor_f32; PyInt 2] tt
  = Ok ([tensor_f32; PyTensor np_float32 [] [PyInt 2]], tt) ∧
  dynamic_cast_inputs (Some {| inputs := [T_single; T_single] |})
    [tensor_i64; PyInt (2 ^ 63)] tt
  = Raise (OverflowError "Python int too large to convert").
Proof. split; reflexivity. Qed.

(** ** Conditionals *)

(** The renaming loop always succeeds in a state with a scope: it binds
    each variable, in order, to the name generated for it and leaves the
    other bindings of the innermost scope alone. *)
Lemma rename_run kind (l : list string) :
  NoDup l →
  ∀ st scope locals,
    _locals st = scope :: locals →
    ∃ rs st' scope',
      mapM (λ x, r <- generate_unique_name x ;;
                 bind_name x (Dynamic r kind None) ;;; ret r) l st = Ok (rs, st') ∧
      length rs = length l ∧
      _current_fn st' = _current_fn st ∧ default_opset_ st' = default_opset_ st ∧
      _locals st' = scope' :: locals ∧
      (∀ y, y ∉ l → scope' !! y = scope !! y) ∧
      (∀ i x r, l !! i = Some x → rs !! i = Some r →
                scope' !! x = Some (Dynamic r kind None)).
Proof.
  induction 1 as [|x l Hx Hnd IH]; intros st scope locals Hl.
  - exists [], st, scope. repeat split; done.
  - destruct (generate_unique_name_Ok x st) as (r & n & Hg & Hr & Hn).
    set (s1 := set_names n ({[r]} ∪ _used_vars st) st) in *.
    set (s2 := set_locals (<[x := Dynamic r kind None]> scope :: locals) s1).
    assert (bind_name x (Dynamic r kind None) s1 = Ok (tt, s2)) as Hb.
    { unfold bind_name, bind, get, modify. simpl. by rewrite Hl. }
    destruct (IH s2 (<[x := Dynamic r kind None]> scope) locals)
      as (rs & st' & scope' & Hm & Hlen & Hf & Ho & Hl' & Hy & Hi); [done|].
    exists (r :: rs), st', scope'. split; [|split; [|split; [|split; [|split; [|split]]]]].
    + apply mapM_Ok_cons. exists r, s2, rs. split; [|done].
      rewrite (bind_run _ _ _ _ _ Hg), (bind_run _ _ _ _ _ Hb). done.
    + simpl. by rewrite Hlen.
    + by rewrite Hf.
    + by rewrite Ho.
    + done.
    + intros y Hy'. apply not_elem_of_cons in Hy' as [Hne Hy'].
      rewrite (Hy y Hy'). by rewrite lookup_insert_ne.
    + intros [|i] x' r' Hx' Hr'; simpl in *.
      * injection Hx' as <-. injection Hr' as <-.
        rewrite (Hy x Hx). by rewrite lookup_insert_eq.
      * by eapply Hi.
Qed.

Lemma translate_if_stmt_run defs exposed_uses fuel test body orelse live_out st t st1
    thenG st2 elseG st3 o :
  let stmt := ast.If test body orelse live_out in
  let live_defs :=
    match live_out with
    | Some live_out => elements (live_out ∩ defs [stmt])
    | None => elements (defs [stmt])
    end in
  translate_expr fuel test (Some "cond") st = Ok (t, st1) →
  translate_block (translate_stmt defs exposed_uses fuel) body
    "thenGraph_{lineno}" live_defs st1 = Ok (thenG, st2) →
  translate_block (translate_stmt defs exposed_uses fuel) orelse
    "elseGraph_{lineno}" live_defs st2 = Ok (elseG, st3) →
  default_opset_ st = Some o → _locals st ≠ [] → live_defs ≠ [] →
  (∀ c, ce_name t = Some c → c ∈ _used_vars st1) →
  ∃ renamed st',
    translate_stmt defs exposed_uses (S fuel) stmt st = Ok (tt, st') ∧
    stmts (_current_fn st')
    = stmts (_current_fn st1) ++
      [mkIRStmt renamed (mkOp o "If") [operand_of_name (ce_name t)]
         [AttrGraph "then_branch" thenG; AttrGraph "else_branch" elseG]] ∧
    length renamed = length live_defs ∧ NoDup renamed ∧
    (∀ r, r ∈ renamed → r ∉ _used_vars st3) ∧
    length (fn_outputs thenG) = length live_defs ∧
    length (fn_outputs elseG) = length live_defs ∧
    (∀ i x r, live_defs !! i = Some x → renamed !! i = Some r →
              lookup x st' = Ok (Dynamic r Intermediate None, st')).
Proof.
  intros stmt live_defs Ht Hthen Helse Ho Hloc Hlive Hused.
  assert (NoDup live_defs) as Hnd.
  { unfold live_defs. destruct live_out; apply NoDup_elements. }
  pose proof (translate_expr_Ext _ true _ _ _ _ _ Ht) as HE1.
  pose proof (translate_block_spec defs exposed_uses (translate_expr fuel)
                (translate_stmt defs exposed_uses fuel) (translate_expr_Ext fuel)
                (translate_stmt_Ext defs exposed_uses fuel true)
                true _ _ _ _ _ _ Hthen)
    as (HEt & _ & Hft & Hlt & _ & Hot & _ & Hlent & _).
  pose proof (translate_block_spec defs exposed_uses (translate_expr fuel)
                (translate_stmt defs exposed_uses fuel) (translate_expr_Ext fuel)
                (translate_stmt_Ext defs exposed_uses fuel true)
                true _ _ _ _ _ _ Helse)
    as (HEe & _ & Hfe & Hle & _ & Hoe & _ & Hlene & _).
  assert (∃ scope locals, _locals st3 = scope :: locals) as (scope & locals & Hl3).
  { rewrite Hle, Hlt. destruct HE1 as [_ _ _ _ _ [_ Hlen] _ _ _ _ _].
    destruct (_locals st1) as [|sc lc]; [|eauto].
    destruct (_locals st); [done | discriminate Hlen]. }
  destruct (rename_run Intermediate live_defs Hnd st3 scope locals Hl3)
    as (rs & s4 & scope' & Hm & Hlen & Hf4 & Ho4 & Hl4 & _ & Hbind).
  pose proof (rename_ExtP true _ _ _ _ _ Hm) as (HEr & Hndr & _).
  pose proof (ExtP_pending_fresh _ _ _ _ HEr) as Hfresh.
  assert (default_opset_ s4 = Some o) as Hos4.
  { rewrite Ho4, Hoe, Hot. destruct HE1 as [-> _ _ _ _ _ _ _ _ _ _]. done. }
  set (node := mkIRStmt rs (mkOp o "If") [operand_of_name (ce_name t)]
                 [AttrGraph "then_branch" thenG; AttrGraph "else_branch" elseG]).
  exists rs, (set_current_fn (add_stmt (_current_fn s4) node) s4).
  split; [|split; [|split; [|split; [|split; [|split; [|split]]]]]];
    try done.
  - change (translate_stmt defs exposed_uses (S fuel) stmt st)
      with (translate_if_stmt defs (translate_expr fuel)
              (translate_stmt defs exposed_uses fuel) stmt test body orelse
              live_out st).
    unfold translate_if_stmt. fold stmt. fold live_defs.
    rewrite (bind_run _ _ _ _ _ Ht), (bind_run _ _ _ _ _ Hthen),
      (bind_run _ _ _ _ _ Helse).
    unfold if_rename. rewrite (bind_run _ _ _ _ _ Hm).
    destruct rs as [|r0 rs0]; [by destruct live_defs|].
    change (negb (truthy_list (r0 :: rs0))) with false. cbv iota.
    rewrite bool_decide_eq_false_2.
    + cbv iota. rewrite (bind_run _ _ _ _ _ (default_op_run "If" _ o Hos4)). done.
    + intros Heq. destruct rs0; [|discriminate Heq]. injection Heq as Heq.
      destruct (Hfresh r0) as [Hn _]; [set_solver|].
      apply Hn. destruct HEt as [_ _ _ _ _ _ _ Hu1 _ _ _].
      destruct HEe as [_ _ _ _ _ _ _ Hu2 _ _ _].
      apply Hu2, Hu1, Hused. done.
  - simpl. rewrite Hf4, Hfe, Hft. by destruct (_current_fn st1).
  - intros r Hr. apply Hfresh. by apply elem_of_list_to_set.
  - intros i x r Hx Hr. unfold lookup, bind, get. simpl. rewrite Hl4. simpl.
    by rewrite (Hbind i x r Hx Hr).
Qed.

(** When a default opset is set, a scope is open, the statement assigns
    at least one variable that is live after it, and the test (to a
    value whose name is registered as used) and the two branch blocks
    translate, the conditional translates: it appends exactly one [If] node whose
    input is the test value, whose attributes are the two branch
    subgraphs and whose outputs are fresh, pairwise distinct names, one
    for each live variable that the statement assigns, in the order of
    these variables; each branch subgraph declares as many outputs; and
    afterwards each of these variables is bound to the output of the [If]
    node at its position. *)
Theorem if_lowering defs exposed_uses fuel test body orelse live_out st t st1
    thenG st2 elseG st3 o :
  let stmt := ast.If test body orelse live_out in
  let live_defs :=
    match live_out with
    | Some live_out => elements (live_out ∩ defs [stmt])
    | None => elements (defs [stmt])
    end in
  translate_expr fuel test (Some "cond") st = Ok (t, st1) →
  translate_block (translate_stmt defs exposed_uses fuel) body
    "thenGraph_{lineno}" live_defs st1 = Ok (thenG, st2) →
  translate_block (translate_stmt defs exposed_uses fuel) orelse
    "elseGraph_{lineno}" live_defs st2 = Ok (elseG, st3) →
  default_opset_ st = Some o → _locals st ≠ [] → live_defs ≠ [] →
  (∀ c, ce_name t = Some c → c ∈ _used_vars st1) →
  ∃ renamed st',
    translate_stmt defs exposed_uses (S fuel) stmt st = Ok (tt, st') ∧
    stmts (_current_fn st')
    = stmts (_current_fn st1) ++
      [mkIRStmt renamed (mkOp o "If") [operand_of_name (ce_name t)]
         [AttrGraph "then_branch" thenG; AttrGraph "else_branch" elseG]] ∧
    length renamed = length live_defs ∧ NoDup renamed ∧
    (∀ r, r ∈ renamed → r ∉ _used_vars st3) ∧
    length (fn_outputs thenG) = length live_defs ∧
    length (fn_outputs elseG) = length live_defs ∧
    (∀ i x r, live_defs !! i = Some x → renamed !! i = Some r →
              lookup x st' = Ok (Dynamic r Intermediate None, st')).
Proof.
  exact (translate_if_stmt_run defs exposed_uses fuel test body orelse live_out st t
           st1 thenG st2 elseG st3 o).
Qed.

Lemma if_lowering_witness :
  ∃ (renamed : list string) st',
    translate_stmt example_defs example_exposed_uses 4 example_if example_state
    = Ok (tt, st') ∧
    length renamed = 1.
Proof.
  destruct (if_lowering example_defs example_exposed_uses 3 (ast.Name "c")
              example_body
              [ast.Assign "x" (ast.BinOp (ast.Name "A") ast.Sub
                                 (ast.Constant (PyInt 1)))]
              (Some {["x"; "A"]}) example_state
              {| ce_name := Some "c"; ce_kind := ANY |} example_state
              (graph_of (translate_block
                 (translate_stmt example_defs example_exposed_uses 3) example_body
                 "thenGraph_{lineno}" ["x"] example_state))
              (state_of (translate_block
                 (translate_stmt example_defs example_exposed_uses 3) example_body
                 "thenGraph_{lineno}" ["x"] example_state))
              (graph_of (translate_block
                 (translate_stmt example_defs example_exposed_uses 3)
                 [ast.Assign "x" (ast.BinOp (ast.Name "A") ast.Sub
                                    (ast.Constant (PyInt 1)))]
                 "elseGraph_{lineno}" ["x"]
                 (state_of (translate_block
                    (translate_stmt example_defs example_exposed_uses 3) example_body
                    "thenGraph_{lineno}" ["x"] example_state))))
              (state_of (translate_block
                 (translate_stmt example_defs example_exposed_uses 3)
                 [ast.Assign "x" (ast.BinOp (ast.Name "A") ast.Sub
                                    (ast.Constant (PyInt 1)))]
                 "elseGraph_{lineno}" ["x"]
                 (state_of (translate_block
                    (translate_stmt example_defs example_exposed_uses 3) example_body
                    "thenGraph_{lineno}" ["x"] example_state))))
              example_opset)
    as (renamed & st' & H & _ & Hlen & _).
  - vm_compute. reflexivity.
  - vm_compute. reflexivity.
  - vm_compute. reflexivity.
  - reflexivity.
  - discriminate.
  - vm_compute. discriminate.
  - intros c [= <-].
    apply (bool_decide_unpack ("c" ∈ _used_vars example_state)).
    vm_compute. exact I.
  - exists renamed, st'. split; [exact H|]. rewrite Hlen. reflexivity.
Defined.

(** A conditional that assigns no variable that is live after it is
    refused. *)
Example if_without_live_definition :
  translate_stmt example_defs example_exposed_uses 4
    (ast.If (ast.Name "c")
       [ast.Assign "x" (ast.BinOp (ast.Name "A") ast.Add (ast.Constant (PyInt 1)))]
       [ast.Assign "x" (ast.BinOp (ast.Name "A") ast.Sub (ast.Constant (PyInt 1)))]
       (Some {["A"]}))
    example_state
  = Raise (TranslationError
             "A subgraph for a test do not have any output variable.").
Proof. vm_compute. reflexivity. Qed.

(** ** Subscripts *)

Lemma emitted_refl st : emitted [] st st.
Proof. unfold emitted. by rewrite app_nil_r. Qed.

Lemma emitted_trans n1 n2 s1 s2 s3 :
  emitted n1 s1 s2 → emitted n2 s2 s3 → emitted (n1 ++ n2) s1 s3.
Proof.
  intros (Ho1 & Hl1 & Hg1 & E1) (Ho2 & Hl2 & Hg2 & E2). unfold emitted.
  rewrite Ho2, Hl2, Hg2, E2, E1, app_assoc. done.
Qed.

Lemma emitted_opset new st st' o :
  emitted new st st' → default_opset_ st = Some o → default_opset_ st' = Some o.
Proof. intros (-> & _) H. exact H. Qed.

(** A node whose single output is a generated name. *)
Lemma gen_emit_named_run {A} candidate name ins attrs (k : string → M A) st o :
  default_opset_ st = Some o →
  ∃ r s',
    emitted [mkIRStmt [r] (mkOp o name) ins attrs] st s' ∧
    (r0 <- generate_unique_name candidate ;;
     emit_named [r0] name ins attrs ;;; k r0) st = k r s'.
Proof.
  intros Ho. destruct (generate_unique_name_Ok candidate st) as (r & n & Hg & Hr & Hn).
  exists r. eexists. split; [|rewrite (bind_run _ _ _ _ _ Hg)].
  2: { unfold emit_named.
       rewrite (bind_run _ _ _ _ _
                  (bind_run _ _ _ _ _
                     (default_op_run name (set_names n ({[r]} ∪ _used_vars st) st) o Ho))).
       unfold emit, modify. reflexivity. }
  unfold emitted. simpl. by destruct (_current_fn st).
Qed.

Lemma emit_named_run outputs name ins attrs st o :
  default_opset_ st = Some o →
  ∃ s', emitted [mkIRStmt outputs (mkOp o name) ins attrs] st s' ∧
        emit_named outputs name ins attrs st = Ok (tt, s').
Proof.
  intros Ho. eexists. split.
  2: { unfold emit_named. rewrite (bind_run _ _ _ _ _ (default_op_run name st o Ho)).
       unfold emit, modify. reflexivity. }
  unfold emitted. simpl. by destruct (_current_fn st).
Qed.

Lemma int_list_tensor v n :
  isinstance v Tint = true → int64_value v = true →
  ∃ t, pyvalue_to_onnx_tensor n (PyList [v]) = Ok t.
Proof.
  destruct v; try discriminate; intros _ Hv; unfold pyvalue_to_onnx_tensor,
    make_tensor; simpl in *; rewrite ?Hv; eexists; reflexivity.
Qed.

Lemma emit_const_run v suggested_name st o :
  default_opset_ st = Some o →
  (∀ n, ∃ t, pyvalue_to_onnx_tensor n v = Ok t) →
  ∃ r t st',
    emit_const v suggested_name st
    = Ok ({| ce_name := Some r; ce_kind := CONST |}, st') ∧
    pyvalue_to_onnx_tensor r v = Ok t ∧
    emitted [mkIRStmt [r] (mkOp o "Constant") [] [AttrTensor "value" t]] st st'.
Proof.
  intros Ho Hv. unfold emit_const. cbv zeta.
  match goal with
  | |- context [generate_unique_name ?c] =>
      destruct (generate_unique_name_Ok c st) as (r & n & Hg & Hr & Hn);
      rewrite (bind_run _ _ _ _ _ Hg)
  end.
  destruct (Hv r) as [t Ht]. rewrite Ht.
  rewrite (bind_run _ _ _ _ _
             (default_op_run "Constant" (set_names n ({[r]} ∪ _used_vars st) st) o Ho)).
  exists r, t. eexists. split; [reflexivity|]. split; [exact Ht|].
  unfold emitted. simpl. by destruct (_current_fn st).
Qed.

Lemma const_1d_run v cache st o :
  default_opset_ st = Some o → isinstance v Tint = true →
  int64_value v = true →
  ∃ e cache' st' new,
    const_1d v cache st = Ok ((e, cache'), st') ∧ emitted new st st' ∧
    Forall (is_op "Constant") new.
Proof.
  intros Ho Hv Hr. unfold const_1d. destruct (cache !! int_value v) as [e|].
  - exists e, cache, st, []. split; [done|]. split; [apply emitted_refl|constructor].
  - destruct (emit_const_run (PyList [v]) None st o Ho) as (r & t & st' & He & _ & Hem).
    { intros n. by apply int_list_tensor. }
    rewrite (bind_run _ _ _ _ _ He). eexists _, _, st', _.
    split; [reflexivity|]. split; [exact Hem|]. by repeat constructor.
Qed.

Section subscript_runs.
Variable translate_expr : ast.expr → option string → M ConverterExpression.

Lemma translate_slice_component_run c default_value cache st o :
  default_opset_ st = Some o → isinstance c Tint = true →
  int64_value c = true →
  ∃ e cache' st' new,
    translate_slice_component translate_expr (Some (ast.Constant c)) default_value
      cache st = Ok ((OExpr e, Some (int_value c), cache'), st') ∧
    emitted new st st' ∧ Forall (is_op "Constant") new.
Proof.
  intros Ho Hc Hr. unfold translate_slice_component. simpl. rewrite Hc.
  destruct (const_1d_run c cache st o Ho Hc Hr)
    as (e & cache' & st' & new & H & Hem & Hf).
  rewrite (bind_run _ _ _ _ _ H). by exists e, cache', st', new.
Qed.

Lemma translate_slice_run a b c cache st o :
  default_opset_ st = Some o →
  isinstance a Tint = true → isinstance b Tint = true → isinstance c Tint = true →
  int64_value a = true → int64_value b = true → int64_value c = true →
  ∃ r st' new,
    translate_slice translate_expr
      (Some (ast.Constant a), Some (ast.Constant b), Some (ast.Constant c))
      cache st = Ok (r, st') ∧
    emitted new st st' ∧ Forall (is_op "Constant") new.
Proof.
  intros Ho Ha Hb Hc Ra Rb Rc. unfold translate_slice.
  destruct (translate_slice_component_run c (Some 1%Z) cache st o Ho Hc Rc)
    as (e1 & c1 & s1 & n1 & H1 & Hem1 & Hf1).
  rewrite (bind_run _ _ _ _ _ H1). cbv beta iota.
  pose proof (emitted_opset _ _ _ _ Hem1 Ho) as Ho1.
  match goal with
  | |- context [translate_slice_component _ _ ?d c1] =>
      destruct (translate_slice_component_run a d c1 s1 o Ho1 Ha Ra)
        as (e2 & c2 & s2 & n2 & H2 & Hem2 & Hf2)
  end.
  rewrite (bind_run _ _ _ _ _ H2). cbv beta iota.
  pose proof (emitted_opset _ _ _ _ Hem2 Ho1) as Ho2.
  match goal with
  | |- context [translate_slice_component _ _ ?d c2] =>
      destruct (translate_slice_component_run b d c2 s2 o Ho2 Hb Rb)
        as (e3 & c3 & s3 & n3 & H3 & Hem3 & Hf3)
  end.
  rewrite (bind_run _ _ _ _ _ H3). cbv beta iota.
  eexists _, s3, (n1 ++ n2 ++ n3). split; [reflexivity|]. split.
  - eapply emitted_trans; [exact Hem1|]. eapply emitted_trans; [exact Hem2|exact Hem3].
  - rewrite !Forall_app. done.
Qed.

Lemma translate_slices_run (l : list (nat * slice_expr)) o :
  Forall (λ s, ∃ a b c,
            s.2 = (Some (ast.Constant a), Some (ast.Constant b), Some (ast.Constant c)) ∧
            isinstance a Tint = true ∧ isinstance b Tint = true ∧
            isinstance c Tint = true ∧
            int64_value a = true ∧ int64_value b = true ∧
            int64_value c = true ∧ in_int64 (Z.of_nat s.1) = true) l →
  ∀ cache starts ends axes steps st,
    default_opset_ st = Some o →
    ∃ starts' ends' axes' steps' st' new,
      translate_slices translate_expr l cache starts ends axes steps st
      = Ok ((starts', ends', axes', steps'), st') ∧
      emitted new st st' ∧ Forall (is_op "Constant") new ∧
      length starts' = length starts + length l ∧
      length ends' = length ends + length l ∧
      length axes' = length axes + length l ∧
      length steps' = length steps + length l.
Proof.
  induction 1 as [|[axis s] l
                    (a & b & c & Hs & Ha & Hb & Hc & Ra & Rb & Rc & Rx) Hl IH];
    intros cache starts ends axes steps st Ho; simpl in *.
  - exists starts, ends, axes, steps, st, []. rewrite !Nat.add_0_r.
    split; [done|]. split; [apply emitted_refl|]. by split; [constructor|].
  - subst s.
    destruct (const_1d_run (PyInt (Z.of_nat axis)) cache st o Ho eq_refl Rx)
      as (e & c1 & s1 & n1 & H1 & Hem1 & Hf1).
    rewrite (bind_run _ _ _ _ _ H1). cbv beta iota.
    pose proof (emitted_opset _ _ _ _ Hem1 Ho) as Ho1.
    destruct (translate_slice_run a b c c1 s1 o Ho1 Ha Hb Hc Ra Rb Rc)
      as ([[[ln un] sn] c2] & s2 & n2 & H2 & Hem2 & Hf2).
    rewrite (bind_run _ _ _ _ _ H2). cbv beta iota.
    pose proof (emitted_opset _ _ _ _ Hem2 Ho1) as Ho2.
    destruct (IH c2 (starts ++ [ln]) (ends ++ [un])
                (axes ++ [operand_of_name (ce_name e)]) (steps ++ [sn]) s2 Ho2)
      as (st' & en' & ax' & sp' & s3 & n3 & H3 & Hem3 & Hf3 & L1 & L2 & L3 & L4).
    exists st', en', ax', sp', s3, (n1 ++ n2 ++ n3). split; [exact H3|]. split.
    { eapply emitted_trans; [exact Hem1|]. eapply emitted_trans; [exact Hem2|exact Hem3]. }
    split; [by rewrite !Forall_app|].
    rewrite length_app in L1, L2, L3, L4. simpl in *. lia.
Qed.
End subscript_runs.

Lemma combine_slice_inputs_run var starts ends axes steps st o :
  default_opset_ st = Some o → 1 < length starts →
  ∃ r st' new,
    combine_slice_inputs var starts ends axes steps st = Ok (r, st') ∧
    emitted new st st' ∧ Forall (is_op "Concat") new.
Proof.
  intros Ho Hlen. unfold combine_slice_inputs.
  rewrite bool_decide_eq_true_2 by done. cbv zeta.
  destruct (gen_emit_named_run (name_of var +:+ "_start") "Concat" starts
              [AttrPy "axis" (PyInt 0)]
                  (λ start_name,
                     end_name <- generate_unique_name (name_of var +:+ "_end") ;;
                     emit_named [end_name] "Concat" ends [AttrPy "axis" (PyInt 0)] ;;;
                     axes_name <- generate_unique_name (name_of var +:+ "_axis") ;;
                     emit_named [axes_name] "Concat" axes [AttrPy "axis" (PyInt 0)] ;;;
                     steps_name <- generate_unique_name (name_of var +:+ "_step") ;;
                     emit_named [steps_name] "Concat" steps [AttrPy "axis" (PyInt 0)] ;;;
                     ret (OName start_name, OName end_name, OName axes_name,
                          OName steps_name)) st o Ho)
        as (r1 & s1 & Hem1 & H1).
  rewrite H1. pose proof (emitted_opset _ _ _ _ Hem1 Ho) as Ho1.
  destruct (gen_emit_named_run (name_of var +:+ "_end") "Concat" ends
              [AttrPy "axis" (PyInt 0)]
              (λ end_name,
                 axes_name <- generate_unique_name (name_of var +:+ "_axis") ;;
                 emit_named [axes_name] "Concat" axes [AttrPy "axis" (PyInt 0)] ;;;
                 steps_name <- generate_unique_name (name_of var +:+ "_step") ;;
                 emit_named [steps_name] "Concat" steps [AttrPy "axis" (PyInt 0)] ;;;
                 ret (OName r1, OName end_name, OName axes_name, OName steps_name))
              s1 o Ho1) as (r2 & s2 & Hem2 & H2).
  rewrite H2. pose proof (emitted_opset _ _ _ _ Hem2 Ho1) as Ho2.
  destruct (gen_emit_named_run (name_of var +:+ "_axis") "Concat" axes
              [AttrPy "axis" (PyInt 0)]
              (λ axes_name,
                 steps_name <- generate_unique_name (name_of var +:+ "_step") ;;
                 emit_named [steps_name] "Concat" steps [AttrPy "axis" (PyInt 0)] ;;;
                 ret (OName r1, OName r2, OName axes_name, OName steps_name))
              s2 o Ho2) as (r3 & s3 & Hem3 & H3).
  rewrite H3. pose proof (emitted_opset _ _ _ _ Hem3 Ho2) as Ho3.
  destruct (gen_emit_named_run (name_of var +:+ "_step") "Concat" steps
              [AttrPy "axis" (PyInt 0)]
              (λ steps_name, ret (OName r1, OName r2, OName r3, OName steps_name))
              s3 o Ho3) as (r4 & s4 & Hem4 & H4).
  rewrite H4. eexists _, s4, _. split; [reflexivity|]. split.
  - eapply emitted_trans; [exact Hem1|]. eapply emitted_trans; [exact Hem2|].
    eapply emitted_trans; [exact Hem3|exact Hem4].
  - by repeat constructor.
Qed.

Lemma partition_indices_scalar axis e v rest sl sc ns :
  is_constant_expr e = true → eval_constant_expr e = Ok v →
  isinstance v Tint = true →
  partition_indices axis (e :: rest) sl sc ns
  = partition_indices (S axis) rest sl (sc ++ [(axis, e)]) ns.
Proof.
  intros Hc He Hv. destruct e; try discriminate Hc; simpl in *; simplify_eq;
    rewrite ?Hc, ?He, ?Hv; reflexivity.
Qed.

Lemma partition_indices_name axis id rest sl sc ns :
  partition_indices axis (ast.Name id :: rest) sl sc ns
  = partition_indices (S axis) rest sl sc (ns ++ [(axis, ast.Name id)]).
Proof. reflexivity. Qed.

Lemma count_op_app name l1 l2 :
  count_op name (l1 ++ l2) = count_op name l1 + count_op name l2.
Proof. unfold count_op. by rewrite filter_app, length_app. Qed.

Lemma count_op_other name (P : IRStmt → Prop) l :
  Forall P l → (∀ n, P n → opname (callee n) ≠ name) → count_op name l = 0.
Proof.
  intros Hl HP. unfold count_op. induction Hl as [|n l Hn Hl IH]; [done|].
  rewrite filter_cons_False; [done|]. by apply HP.
Qed.

Section subscript_lowering.
Variable translate_expr : ast.expr → option string → M ConverterExpression.

Lemma translate_sliced_run var target i j vi vj st o :
  default_opset_ st = Some o →
  eval_constant_expr i = Ok vi → isinstance vi Tint = true →
  eval_constant_expr j = Ok vj → isinstance vj Tint = true →
  in_int64 (int_value vi) = true → in_int64 (int_value vi + 1) = true →
  in_int64 (int_value vj) = true → in_int64 (int_value vj + 1) = true →
  ∃ st' pre sliced ins squeezed axes,
    translate_sliced translate_expr var target [] [(0, i); (1, j)] [] st
    = Ok (Some target, st') ∧
    emitted
      (pre ++
       [mkIRStmt [sliced] (mkOp o "Slice") (operand_of_name (ce_name var) :: ins) [];
        mkIRStmt [squeezed] (mkOp o "Constant") [] [AttrTensor "value" axes];
        mkIRStmt [target] (mkOp o "Squeeze")
          [OName sliced; OExpr {| ce_name := Some squeezed; ce_kind := CONST |}] []])
      st st' ∧
    Forall (λ n, is_op "Constant" n ∨ is_op "Concat" n) pre ∧
    pyvalue_to_onnx_tensor squeezed (PyList [PyInt 0; PyInt 1]) = Ok axes.
Proof.
  intros Ho Hi Hvi Hj Hvj Ri Ri1 Rj Rj1. unfold translate_sliced.
  assert (∀ v, isinstance v Tint = true → in_int64 (int_value v) = true →
               int64_value v = true) as Hiv.
  { intros v Hv Hr. by destruct v. }
  assert (scalars_as_slices [(0, i); (1, j)]
          = Ok [(0, (Some (ast.Constant vi),
                     Some (ast.Constant (PyInt (int_value vi + 1))),
                     Some (ast.Constant (PyInt 1))));
                (1, (Some (ast.Constant vj),
                     Some (ast.Constant (PyInt (int_value vj + 1))),
                     Some (ast.Constant (PyInt 1))))]) as ->.
  { simpl. by rewrite Hi, Hj. }
  cbv zeta. rewrite app_nil_l.
  destruct (translate_slices_run translate_expr
              [(0, (Some (ast.Constant vi),
                    Some (ast.Constant (PyInt (int_value vi + 1))),
                    Some (ast.Constant (PyInt 1))));
               (1, (Some (ast.Constant vj),
                    Some (ast.Constant (PyInt (int_value vj + 1))),
                    Some (ast.Constant (PyInt 1))))] o)
    with (st := st) (cache := (∅ : gmap Z ConverterExpression))
         (starts := @nil operand) (ends := @nil operand) (axes := @nil operand)
         (steps := @nil operand)
    as (starts & ends & axes & steps & s1 & n1 & H1 & Hem1 & Hf1 & L1 & L2 & L3 & L4);
    [|exact Ho|].
  { constructor; [|constructor; [|constructor]].
    - exists vi, (PyInt (int_value vi + 1)), (PyInt 1). split_and!; try reflexivity; auto.
    - exists vj, (PyInt (int_value vj + 1)), (PyInt 1). split_and!; try reflexivity; auto. }
  rewrite (bind_run _ _ _ _ _ H1). cbv beta iota.
  pose proof (emitted_opset _ _ _ _ Hem1 Ho) as Ho1.
  destruct (combine_slice_inputs_run var starts ends axes steps s1 o Ho1)
    as ([[[sn en] an] pn] & s2 & n2 & H2 & Hem2 & Hf2); [simpl in L1; lia|].
  rewrite (bind_run _ _ _ _ _ H2). cbv beta iota.
  pose proof (emitted_opset _ _ _ _ Hem2 Ho1) as Ho2.
  cbn [truthy_list map fst]. cbv iota.
  destruct (gen_emit_named_run (name_of var +:+ "_sliced") "Slice"
              [operand_of_name (ce_name var); sn; en; an; pn] []
              (λ sliced_name,
                 squeezed <- emit_const (PyList [PyInt (Z.of_nat 0); PyInt (Z.of_nat 1)])
                               (Some "squeezed_axes") ;;
                 result <- ret target ;;
                 emit_named [result] "Squeeze" [OName sliced_name; OExpr squeezed] [] ;;;
                 ret (Some result)) s2 o Ho2) as (sl & s3 & Hem3 & H3).
  rewrite H3. pose proof (emitted_opset _ _ _ _ Hem3 Ho2) as Ho3.
  destruct (emit_const_run (PyList [PyInt (Z.of_nat 0); PyInt (Z.of_nat 1)])
              (Some "squeezed_axes") s3 o Ho3) as (sq & t & s4 & H4 & Ht & Hem4).
  { intros n. eexists. reflexivity. }
  rewrite (bind_run _ _ _ _ _ H4).
  pose proof (emitted_opset _ _ _ _ Hem4 Ho3) as Ho4.
  rewrite (bind_run (ret target) _ s4 target s4 eq_refl).
  destruct (emit_named_run [target] "Squeeze"
              [OName sl; OExpr {| ce_name := Some sq; ce_kind := CONST |}] [] s4 o Ho4)
    as (s5 & Hem5 & H5).
  rewrite (bind_run _ _ _ _ _ H5).
  exists s5, (n1 ++ n2), sl, [sn; en; an; pn], sq, t.
  split; [reflexivity|]. split; [|split; [|exact Ht]].
  - rewrite <- app_assoc.
    eapply emitted_trans; [exact Hem1|]. eapply emitted_trans; [exact Hem2|].
    eapply (emitted_trans [_]); [exact Hem3|].
    eapply (emitted_trans [_] [_]); [exact Hem4|exact Hem5].
  - apply Forall_app. split; (eapply Forall_impl; [eassumption|]); intros n Hn;
      [by left | by right].
Qed.
End subscript_lowering.

Lemma constant_subscript_run fuel value i j vi vj target st var st1 o :
  translate_expr fuel value None st = Ok (var, st1) →
  default_opset_ st1 = Some o →
  is_constant_expr i = true → eval_constant_expr i = Ok vi →
  isinstance vi Tint = true →
  is_constant_expr j = true → eval_constant_expr j = Ok vj →
  isinstance vj Tint = true →
  in_int64 (int_value vi) = true → in_int64 (int_value vi + 1) = true →
  in_int64 (int_value vj) = true → in_int64 (int_value vj + 1) = true →
  ∃ tgt st2 st' pre sliced ins squeezed axes,
    let new :=
      pre ++
      [mkIRStmt [sliced] (mkOp o "Slice") (operand_of_name (ce_name var) :: ins) [];
       mkIRStmt [squeezed] (mkOp o "Constant") [] [AttrTensor "value" axes];
       mkIRStmt [tgt] (mkOp o "Squeeze")
         [OName sliced; OExpr {| ce_name := Some squeezed; ce_kind := CONST |}] []] in
    generate_unique_name
      (match target with
       | None => name_of var +:+ "_subscripted"
       | Some target => target
       end) st1 = Ok (tgt, st2) ∧
    translate_expr (S fuel) (ast.Subscript value [i; j]) target st
    = Ok ({| ce_name := Some tgt; ce_kind := ANY |}, st') ∧
    stmts (_current_fn st') = stmts (_current_fn st1) ++ new ∧
    Forall (λ n, is_op "Constant" n ∨ is_op "Concat" n) pre ∧
    pyvalue_to_onnx_tensor squeezed (PyList [PyInt 0; PyInt 1]) = Ok axes ∧
    count_op "Slice" new = 1 ∧ count_op "Squeeze" new = 1 ∧
    count_op "Gather" new = 0.
Proof.
  intros Hvar Ho Hci Hei Hvi Hcj Hej Hvj Ri Ri1 Rj Rj1.
  match goal with
  | |- context [generate_unique_name ?c st1] =>
      destruct (generate_unique_name_Ok c st1) as (tgt & n & Hg & Hr & Hn)
  end.
  set (st2 := set_names n ({[tgt]} ∪ _used_vars st1) st1) in *.
  destruct (translate_sliced_run (translate_expr fuel) var tgt i j vi vj st2 o Ho
              Hei Hvi Hej Hvj Ri Ri1 Rj Rj1)
    as (st' & pre & sliced & ins & squeezed & axes & Hs & Hem & Hpre & Hax).
  exists tgt, st2, st', pre, sliced, ins, squeezed, axes. cbv zeta.
  split; [exact Hg|]. split; [|split; [|split; [exact Hpre|split; [exact Hax|]]]].
  - change (translate_expr (S fuel) (ast.Subscript value [i; j]) target st)
      with (translate_expr_body (translate_expr fuel)
              (ast.Subscript value [i; j]) target st).
    unfold translate_expr_body.
    assert (translate_subscript_expr (translate_expr fuel) value [i; j] target st
            = Ok (RName (Some tgt), st')) as Hsub.
    { unfold translate_subscript_expr. rewrite (bind_run _ _ _ _ _ Hvar). cbv zeta.
      rewrite (bind_run _ _ _ _ _ Hg).
      rewrite (partition_indices_scalar 0 i vi), (partition_indices_scalar 1 j vj)
        by done.
      cbn [partition_indices app truthy_list negb orb length]. cbv iota.
      rewrite bool_decide_eq_true_2 by lia. cbv iota.
      rewrite (bind_run _ _ _ _ _ (bind_run _ _ _ _ _ Hs)). reflexivity. }
    rewrite (bind_run _ _ _ _ _ Hsub). reflexivity.
  - destruct Hem as (_ & _ & _ & ->). reflexivity.
  - assert (count_op "Slice" pre = 0 ∧ count_op "Squeeze" pre = 0 ∧
            count_op "Gather" pre = 0) as (C1 & C2 & C3).
    { repeat split; (eapply count_op_other; [exact Hpre|]);
        intros m [Hm|Hm]; unfold is_op in Hm; rewrite Hm; discriminate. }
    rewrite !count_op_app, C1, C2, C3. repeat split; reflexivity.
Qed.

(** Indexing with two integer constants, as in [A[2, 3]], where the
    indexed value translates, a default opset is set and each index and
    its successor lie in the signed 64-bit range: after the constants
    and concatenations that build the bounds, the lowering appends one
    [Slice] node on the indexed value, the constant of the squeezed axes
    [[0, 1]] and one [Squeeze] node that reads the output of the [Slice]
    node and writes the result name; no [Gather] node is emitted. *)
Theorem constant_subscript_lowering fuel value i j vi vj target st var st1 o :
  translate_expr fuel value None st = Ok (var, st1) →
  default_opset_ st1 = Some o →
  is_constant_expr i = true → eval_constant_expr i = Ok vi →
  isinstance vi Tint = true →
  is_constant_expr j = true → eval_constant_expr j = Ok vj →
  isinstance vj Tint = true →
  in_int64 (int_value vi) = true → in_int64 (int_value vi + 1) = true →
  in_int64 (int_value vj) = true → in_int64 (int_value vj + 1) = true →
  ∃ tgt st2 st' pre sliced ins squeezed axes,
    let new :=
      pre ++
      [mkIRStmt [sliced] (mkOp o "Slice") (operand_of_name (ce_name var) :: ins) [];
       mkIRStmt [squeezed] (mkOp o "Constant") [] [AttrTensor "value" axes];
       mkIRStmt [tgt] (mkOp o "Squeeze")
         [OName sliced; OExpr {| ce_name := Some squeezed; ce_kind := CONST |}] []] in
    generate_unique_name
      (match target with
       | None => name_of var +:+ "_subscripted"
       | Some target => target
       end) st1 = Ok (tgt, st2) ∧
    translate_expr (S fuel) (ast.Subscript value [i; j]) target st
    = Ok ({| ce_name := Some tgt; ce_kind := ANY |}, st') ∧
    stmts (_current_fn st') = stmts (_current_fn st1) ++ new ∧
    Forall (λ n, is_op "Constant" n ∨ is_op "Concat" n) pre ∧
    pyvalue_to_onnx_tensor squeezed (PyList [PyInt 0; PyInt 1]) = Ok axes ∧
    count_op "Slice" new = 1 ∧ count_op "Squeeze" new = 1 ∧
    count_op "Gather" new = 0.
Proof. exact (constant_subscript_run fuel value i j vi vj target st var st1 o). Qed.

Lemma constant_subscript_lowering_witness :
  ∃ tgt st2 st' pre sliced ins squeezed axes,
    let new :=
      pre ++
      [mkIRStmt [sliced] (mkOp example_opset "Slice")
         (operand_of_name (Some "A") :: ins) [];
       mkIRStmt [squeezed] (mkOp example_opset "Constant") []
         [AttrTensor "value" axes];
       mkIRStmt [tgt] (mkOp example_opset "Squeeze")
         [OName sliced; OExpr {| ce_name := Some squeezed; ce_kind := CONST |}] []] in
    generate_unique_name "r" example_state = Ok (tgt, st2) ∧
    translate_expr 2
      (ast.Subscript (ast.Name "A")
         [ast.Constant (PyInt 2); ast.Constant (PyInt 3)]) (Some "r") example_state
    = Ok ({| ce_name := Some tgt; ce_kind := ANY |}, st') ∧
    stmts (_current_fn st') = stmts (_current_fn example_state) ++ new ∧
    Forall (λ n, is_op "Constant" n ∨ is_op "Concat" n) pre ∧
    pyvalue_to_onnx_tensor squeezed (PyList [PyInt 0; PyInt 1]) = Ok axes ∧
    count_op "Slice" new = 1 ∧ count_op "Squeeze" new = 1 ∧
    count_op "Gather" new = 0.
Proof.
  apply (constant_subscript_lowering 1 (ast.Name "A") (ast.Constant (PyInt 2))
           (ast.Constant (PyInt 3)) (PyInt 2) (PyInt 3) (Some "r") example_state
           {| ce_name := Some "A"; ce_kind := ANY |} example_state example_opset);
    reflexivity.
Defined.

(** An index whose successor leaves the signed 64-bit range is refused
    when its bound is made a constant. *)
Example subscript_index_out_of_range :
  translate_expr 2
    (ast.Subscript (ast.Name "A")
       [ast.Constant (PyInt (2 ^ 63 - 1)); ast.Constant (PyInt 0)]) (Some "r")
    example_state
  = Raise (TranslationError "Value out of range: {value}").
Proof. vm_compute. reflexivity. Qed.

Lemma translate_name_run fuel id v k t target st :
  lookup_scopes id (_locals st) = Some (Dynamic v k t) →
  translate_expr (S fuel) (ast.Name id) target st
  = Ok ({| ce_name := Some v; ce_kind := ANY |}, st).
Proof.
  intros H. simpl.
  unfold translate_expr_body, translate_name_expr, py_var_to_onnx_var, lookup,
    bind, get.
  simpl. rewrite H. reflexivity.
Qed.

Lemma tensor_subscript_run fuel value I J vI kI tI vJ kJ tJ target st var
    st1 o :
  translate_expr fuel value None st = Ok (var, st1) →
  default_opset_ st1 = Some o →
  lookup_scopes I (_locals st1) = Some (Dynamic vI kI tI) →
  lookup_scopes J (_locals st1) = Some (Dynamic vJ kJ tJ) →
  ∃ tgt st2 tmp st',
    generate_unique_name
      (match target with
       | None => name_of var +:+ "_subscripted"
       | Some target => target
       end) st1 = Ok (tgt, st2) ∧
    translate_expr (S fuel) (ast.Subscript value [ast.Name I; ast.Name J]) target st
    = Ok ({| ce_name := Some tgt; ce_kind := ANY |}, st') ∧
    stmts (_current_fn st')
    = stmts (_current_fn st1) ++
      [mkIRStmt [tmp] (mkOp o "Gather")
         [OName (name_of var); OExpr {| ce_name := Some vI; ce_kind := ANY |}]
         [AttrPy "axis" (PyInt 0)];
       mkIRStmt [tgt] (mkOp o "Gather")
         [OName tmp; OExpr {| ce_name := Some vJ; ce_kind := ANY |}]
         [AttrPy "axis" (PyInt 1)]] ∧
    tmp ≠ tgt ∧ tmp ∉ _used_vars st1 ∧ tgt ∉ _used_vars st1.
Proof.
  intros Hvar Ho HI HJ.
  destruct fuel as [|fuel]; [discriminate Hvar|].
  match goal with
  | |- context [generate_unique_name ?c st1] =>
      destruct (generate_unique_name_Ok c st1) as (tgt & n & Hg & Hr & Hn)
  end.
  set (st2 := set_names n ({[tgt]} ∪ _used_vars st1) st1) in *.
  destruct (generate_unique_name_Ok (name_of var +:+ "_axis_" +:+ pretty 0) st2)
    as (tmp & n2 & Hg2 & Hr2 & Hn2).
  set (s3 := set_names n2 ({[tmp]} ∪ _used_vars st2) st2) in *.
  set (g0 := mkIRStmt [tmp] (mkOp o "Gather")
               [OName (name_of var); OExpr {| ce_name := Some vI; ce_kind := ANY |}]
               [AttrPy "axis" (PyInt 0)]).
  set (s4 := set_current_fn (add_stmt (_current_fn s3) g0) s3).
  set (g1 := mkIRStmt [tgt] (mkOp o "Gather")
               [OName tmp; OExpr {| ce_name := Some vJ; ce_kind := ANY |}]
               [AttrPy "axis" (PyInt 1)]).
  set (s5 := set_current_fn (add_stmt (_current_fn s4) g1) s4).
  exists tgt, st2, tmp, s5.
  split; [exact Hg|]. split; [|split; [|split; [|split; [|exact Hr]]]].
  - change (translate_expr (S (S fuel)) (ast.Subscript value [ast.Name I; ast.Name J])
              target st)
      with (translate_expr_body (translate_expr (S fuel))
              (ast.Subscript value [ast.Name I; ast.Name J]) target st).
    unfold translate_expr_body.
    assert (translate_subscript_expr (translate_expr (S fuel)) value
              [ast.Name I; ast.Name J] target st = Ok (RName (Some tgt), s5)) as Hsub.
    { unfold translate_subscript_expr. rewrite (bind_run _ _ _ _ _ Hvar). cbv zeta.
      rewrite (bind_run _ _ _ _ _ Hg).
      cbn [partition_indices is_constant_expr app truthy_list negb orb length last].
      cbv iota. rewrite bool_decide_eq_false_2 by (simpl; lia). cbv iota.
      rewrite (bind_run (ret (ce_name var, [])) _ st2 _ st2 eq_refl). cbv beta iota.
      cbn [app last].
      assert (translate_gathers (translate_expr (S fuel)) var tgt 1
                [(0, ast.Name I); (1, ast.Name J)] (ce_name var) st2
              = Ok (Some tgt, s5)) as Hga.
      { cbn [translate_gathers].
      rewrite (bind_run _ _ _ _ _
                   (translate_name_run fuel I vI kI tI None st2 HI)).
        rewrite bool_decide_eq_true_2 by done.
        rewrite (bind_run _ _ _ _ _ Hg2).
        assert (emit_named [tmp] "Gather"
                  [OName (str_of_name (ce_name var));
                   OExpr {| ce_name := Some vI; ce_kind := ANY |}]
                  [AttrPy "axis" (PyInt (Z.of_nat 0))] s3 = Ok (tt, s4)) as He1.
        { unfold emit_named. by rewrite (bind_run _ _ _ _ _ (default_op_run "Gather" s3 o Ho)). }
        rewrite (bind_run _ _ _ _ _ He1).
        rewrite (bind_run _ _ _ _ _
                   (translate_name_run fuel J vJ kJ tJ None s4 HJ)).
        rewrite bool_decide_eq_false_2 by (by intros ?).
        rewrite (bind_run (ret tgt) _ s4 tgt s4 eq_refl).
        assert (emit_named [tgt] "Gather"
                  [OName (str_of_name (Some tmp));
                   OExpr {| ce_name := Some vJ; ce_kind := ANY |}]
                  [AttrPy "axis" (PyInt (Z.of_nat 1))] s4 = Ok (tt, s5)) as He2.
        { unfold emit_named. by rewrite (bind_run _ _ _ _ _ (default_op_run "Gather" s4 o Ho)). }
        rewrite (bind_run _ _ _ _ _ He2). reflexivity. }
      rewrite (bind_run _ _ _ _ _ Hga). reflexivity. }
    rewrite (bind_run _ _ _ _ _ Hsub). reflexivity.
  - simpl. destruct (_current_fn st1). simpl. by rewrite <- app_assoc.
  - intros ->. apply Hr2. simpl. set_solver.
  - intros Hin. apply Hr2. simpl. set_solver.
Qed.

(** Indexing with two variables bound to graph values, as in [A[I, J]],
    where the indexed value translates and a default opset is set: the
    lowering appends exactly two [Gather] nodes, the first along axis
    0 on the indexed value with the first index, the second along axis 1
    on the output of the first with the second index; the second writes
    the result name. *)
Theorem tensor_subscript_lowering fuel value I J vI kI tI vJ kJ tJ target st var
    st1 o :
  translate_expr fuel value None st = Ok (var, st1) →
  default_opset_ st1 = Some o →
  lookup_scopes I (_locals st1) = Some (Dynamic vI kI tI) →
  lookup_scopes J (_locals st1) = Some (Dynamic vJ kJ tJ) →
  ∃ tgt st2 tmp st',
    generate_unique_name
      (match target with
       | None => name_of var +:+ "_subscripted"
       | Some target => target
       end) st1 = Ok (tgt, st2) ∧
    translate_expr (S fuel) (ast.Subscript value [ast.Name I; ast.Name J]) target st
    = Ok ({| ce_name := Some tgt; ce_kind := ANY |}, st') ∧
    stmts (_current_fn st')
    = stmts (_current_fn st1) ++
      [mkIRStmt [tmp] (mkOp o "Gather")
         [OName (name_of var); OExpr {| ce_name := Some vI; ce_kind := ANY |}]
         [AttrPy "axis" (PyInt 0)];
       mkIRStmt [tgt] (mkOp o "Gather")
         [OName tmp; OExpr {| ce_name := Some vJ; ce_kind := ANY |}]
         [AttrPy "axis" (PyInt 1)]] ∧
    tmp ≠ tgt ∧ tmp ∉ _used_vars st1 ∧ tgt ∉ _used_vars st1.
Proof.
  exact (tensor_subscript_run fuel value I J vI kI tI vJ kJ tJ target st var st1 o).
Qed.

Lemma tensor_subscript_lowering_witness :
  ∃ tgt st2 tmp st',
    generate_unique_name "r" example_state = Ok (tgt, st2) ∧
    translate_expr 2 (ast.Subscript (ast.Name "A") [ast.Name "I"; ast.Name "J"])
      (Some "r") example_state
    = Ok ({| ce_name := Some tgt; ce_kind := ANY |}, st') ∧
    stmts (_current_fn st')
    = stmts (_current_fn example_state) ++
      [mkIRStmt [tmp] (mkOp example_opset "Gather")
         [OName "A"; OExpr {| ce_name := Some "I"; ce_kind := ANY |}]
         [AttrPy "axis" (PyInt 0)];
       mkIRStmt [tgt] (mkOp example_opset "Gather")
         [OName tmp; OExpr {| ce_name := Some "J"; ce_kind := ANY |}]
         [AttrPy "axis" (PyInt 1)]] ∧
    tmp ≠ tgt ∧ tmp ∉ _used_vars example_state ∧ tgt ∉ _used_vars example_state.
Proof.
  apply (tensor_subscript_lowering 1 (ast.Name "A") "I" "J" "I" Input None "J"
           Input None (Some "r") example_state
           {| ce_name := Some "A"; ce_kind := ANY |} example_state example_opset);
    reflexivity.
Defined.

(** ** Loops *)
















(** ** The claims on lowering *)







(** C6 (amended): where the indexed value translates and a default opset
    is set, indexing with two integer constants whose values and
    successors lie in the signed 64-bit range, as in [A[2, 3]], appends,
    after constants and concatenations that build the bounds, exactly one
    [Slice] node on the indexed value and exactly one [Squeeze] node on
    its output, and no [Gather] node; indexing with two variables bound
    to graph values, as in [A[I, J]], appends exactly two [Gather] nodes,
    along axis 0 with the first index and then along axis 1 on the
    output of the first with the second index.  The last node writes the
    name the generator returns for the requested result name, which is
    the requested name only when that is not in use. *)
Theorem subscript_lowering fuel value target st var st1 o :
  translate_expr fuel value None st = Ok (var, st1) →
  default_opset_ st1 = Some o →
  ∃ tgt st2,
    generate_unique_name
      (match target with
       | None => name_of var +:+ "_subscripted"
       | Some target => target
       end) st1 = Ok (tgt, st2) ∧
    tgt ∉ _used_vars st1 ∧
    (∀ requested, target = Some requested → requested ∉ _used_vars st1 →
                  tgt = requested) ∧
    (∀ i j vi vj,
       is_constant_expr i = true → eval_constant_expr i = Ok vi →
       isinstance vi Tint = true →
       is_constant_expr j = true → eval_constant_expr j = Ok vj →
       isinstance vj Tint = true →
       in_int64 (int_value vi) = true → in_int64 (int_value vi + 1) = true →
       in_int64 (int_value vj) = true → in_int64 (int_value vj + 1) = true →
       ∃ st' pre sliced ins squeezed axes,
         let new :=
           pre ++
           [mkIRStmt [sliced] (mkOp o "Slice")
              (operand_of_name (ce_name var) :: ins) [];
            mkIRStmt [squeezed] (mkOp o "Constant") [] [AttrTensor "value" axes];
            mkIRStmt [tgt] (mkOp o "Squeeze")
              [OName sliced; OExpr {| ce_name := Some squeezed; ce_kind := CONST |}]
              []] in
         translate_expr (S fuel) (ast.Subscript value [i; j]) target st
         = Ok ({| ce_name := Some tgt; ce_kind := ANY |}, st') ∧
         stmts (_current_fn st') = stmts (_current_fn st1) ++ new ∧
         Forall (λ n, is_op "Constant" n ∨ is_op "Concat" n) pre ∧
         pyvalue_to_onnx_tensor squeezed (PyList [PyInt 0; PyInt 1]) = Ok axes ∧
         count_op "Slice" new = 1 ∧ count_op "Squeeze" new = 1 ∧
         count_op "Gather" new = 0) ∧
    (∀ I J vI kI tI vJ kJ tJ,
       lookup_scopes I (_locals st1) = Some (Dynamic vI kI tI) →
       lookup_scopes J (_locals st1) = Some (Dynamic vJ kJ tJ) →
       ∃ tmp st',
         translate_expr (S fuel) (ast.Subscript value [ast.Name I; ast.Name J])
           target st
         = Ok ({| ce_name := Some tgt; ce_kind := ANY |}, st') ∧
         stmts (_current_fn st')
         = stmts (_current_fn st1) ++
           [mkIRStmt [tmp] (mkOp o "Gather")
              [OName (name_of var); OExpr {| ce_name := Some vI; ce_kind := ANY |}]
              [AttrPy "axis" (PyInt 0)];
            mkIRStmt [tgt] (mkOp o "Gather")
              [OName tmp; OExpr {| ce_name := Some vJ; ce_kind := ANY |}]
              [AttrPy "axis" (PyInt 1)]] ∧
         tmp ≠ tgt ∧ tmp ∉ _used_vars st1).
Proof.
  intros Hvar Ho.
  match goal with
  | |- context [generate_unique_name ?c st1] =>
      destruct (generate_unique_name_Ok c st1) as (tgt & n & Hg & Hr & Hn);
      pose proof (generate_unique_name_unused c st1) as Hun
  end.
  exists tgt. eexists. split; [exact Hg|]. split; [exact Hr|]. split; [|split].
  - intros requested -> Hfree. rewrite (Hun Hfree) in Hg. congruence.
  - intros i j vi vj Hci Hei Hvi Hcj Hej Hvj Ri Ri1 Rj Rj1.
    destruct (constant_subscript_run fuel value i j vi vj target st var st1 o
                Hvar Ho Hci Hei Hvi Hcj Hej Hvj Ri Ri1 Rj Rj1)
      as (tgt' & st2 & st' & pre & sliced & ins & squeezed & axes & Hg' & H).
    rewrite Hg in Hg'. injection Hg' as <- <-.
    by exists st', pre, sliced, ins, squeezed, axes.
  - intros I J vI kI tI vJ kJ tJ HI HJ.
    destruct (tensor_subscript_run fuel value I J vI kI tI vJ kJ tJ target st var
                st1 o Hvar Ho HI HJ)
      as (tgt' & st2 & tmp & st' & Hg' & H & Hs & Hd & Ht & _).
    rewrite Hg in Hg'. injection Hg' as <- <-.
    by exists tmp, st'.
Qed.

Lemma subscript_lowering_witness :
  ∃ tgt,
    tgt = "r" ∧
    (∃ st' pre sliced ins squeezed axes,
       let new :=
         pre ++
         [mkIRStmt [sliced] (mkOp example_opset "Slice")
            (operand_of_name (Some "A") :: ins) [];
          mkIRStmt [squeezed] (mkOp example_opset "Constant") []
            [AttrTensor "value" axes];
          mkIRStmt [tgt] (mkOp example_opset "Squeeze")
            [OName sliced; OExpr {| ce_name := Some squeezed; ce_kind := CONST |}]
            []] in
       translate_expr 2
         (ast.Subscript (ast.Name "A")
            [ast.Constant (PyInt 2); ast.Constant (PyInt 3)]) (Some "r")
         example_state
       = Ok ({| ce_name := Some tgt; ce_kind := ANY |}, st') ∧
       stmts (_current_fn st') = stmts (_current_fn example_state) ++ new ∧
       count_op "Slice" new = 1 ∧ count_op "Squeeze" new = 1 ∧
       count_op "Gather" new = 0) ∧
    (∃ tmp st',
       translate_expr 2 (ast.Subscript (ast.Name "A") [ast.Name "I"; ast.Name "J"])
         (Some "r") example_state
       = Ok ({| ce_name := Some tgt; ce_kind := ANY |}, st') ∧
       stmts (_current_fn st')
       = stmts (_current_fn example_state) ++
         [mkIRStmt [tmp] (mkOp example_opset "Gather")
            [OName "A"; OExpr {| ce_name := Some "I"; ce_kind := ANY |}]
            [AttrPy "axis" (PyInt 0)];
          mkIRStmt [tgt] (mkOp example_opset "Gather")
            [OName tmp; OExpr {| ce_name := Some "J"; ce_kind := ANY |}]
            [AttrPy "axis" (PyInt 1)]]).
Proof.
  destruct (subscript_lowering 1 (ast.Name "A") (Some "r") example_state
              {| ce_name := Some "A"; ce_kind := ANY |} example_state example_opset)
    as (tgt & st2 & Hg & _ & Hreq & Hconst & Htensor).
  - reflexivity.
  - reflexivity.
  - exists tgt. split; [|split].
    + apply (Hreq "r" eq_refl).
      apply (bool_decide_unpack ("r" ∉ _used_vars example_state)).
      vm_compute. exact I.
    + destruct (Hconst (ast.Constant (PyInt 2)) (ast.Constant (PyInt 3))
                  (PyInt 2) (PyInt 3))
        as (st' & pre & sliced & ins & squeezed & axes & H & Hs & _ & _ & C);
        try reflexivity.
      by exists st', pre, sliced, ins, squeezed, axes.
    + destruct (Htensor "I" "J" "I" Input None "J" Input None)
        as (tmp & st' & H & Hs & _); try reflexivity.
      by exists tmp, st'.
Defined.

(** The claim as worded fails on [A = A[I, J]]: the requested result name
    [A] is in use, and the second [Gather] node writes another name. *)
Lemma subscript_result_not_requested_name :
  "A" ∈ _used_vars example_state ∧
  translate_expr 2 (ast.Subscript (ast.Name "A") [ast.Name "I"; ast.Name "J"])
    (Some "A") example_state
  = Ok ({| ce_name := Some "A_0"; ce_kind := ANY |},
        state_of (translate_expr 2
                    (ast.Subscript (ast.Name "A") [ast.Name "I"; ast.Name "J"])
                    (Some "A") example_state)) ∧
  map (λ n, (opname (callee n), result n))
      (stmts (_current_fn
                (state_of (translate_expr 2
                             (ast.Subscript (ast.Name "A")
                                [ast.Name "I"; ast.Name "J"])
                             (Some "A") example_state))))
  = [("Gather", ["A_axis_0"]); ("Gather", ["A_0"])] ∧
  "A_0" ≠ "A".
Proof.
  split.
  - apply (bool_decide_unpack ("A" ∈ _used_vars example_state)).
    vm_compute. exact I.
  - split; [vm_compute; reflexivity|]. split; [vm_compute; reflexivity|].
    discriminate.
Qed.
